(** * AtomicSQL: a shallow embedding of [vinetrimmer/utils/AtomicSQL.py]

    The Python class [AtomicSQL] keeps a dictionary of database connections
    keyed by random 16-byte session ids, one [threading.Lock] for the whole
    object and one per session, and runs caller-supplied actions under both
    locks with a bounded retry on [sqlite3.OperationalError].

    The embedding threads an explicit machine state through a small
    state-and-exception monad.  Everything the methods do that a caller could
    observe (lock operations, cursor creation and closing, action calls,
    prints, sleeps) is appended to a log carried by the machine.

    Modelling choices:
    - session ids are [bytes]; connection handles and the world outside the
      registry are parameters;
    - an action is a function of the connection, the cursor and the world; it
      returns or raises, and it does not call back into the registry;
    - [connection.cursor()], [cursor.close()], [print] and [time.sleep] do
      not raise;
    - the two [while] loops take fuel: the result [Hang OutOfFuel] says that
      the fuel was too small, [Hang Deadlock] that a lock that is held was
      asked for with nobody around to release it;
    - [os.urandom] reads from a stream of bytes carried by the machine. *)

From Stdlib Require Import Strings.Byte.
From stdpp Require Import gmap strings list pretty.

#[global] Instance byte_eq_dec : EqDecision byte := Byte.byte_eq_dec.
#[global] Instance byte_countable : Countable byte :=
  inj_countable Byte.to_N Byte.of_N Byte.of_to_N.

(** Session ids are Python [bytes] objects. *)
Abbreviation token := (list byte).

(** ** Python values the module manipulates *)

Module Py.

(** Exception classes, as far as [safe_execute] can tell them apart.
    [OperationalError] is [sqlite3.OperationalError] together with its
    subclasses: the [except] clause tests with [isinstance]. *)
Inductive exn_class :=
| OperationalError
| ValueError
| KeyError
| RuntimeError
| OtherError (name : string).

#[global] Instance exn_class_eq_dec : EqDecision exn_class.
Proof. solve_decision. Defined.

Record exn := mkExn { exn_type : exn_class; exn_msg : string }.

#[global] Instance exn_eq_dec : EqDecision exn.
Proof. solve_decision. Defined.

(** [except sqlite3.OperationalError] *)
Definition is_operational (e : exn) : bool :=
  match exn_type e with OperationalError => true | _ => false end.

(** [repr] of a [bytes] object (CPython's [bytes.__repr__]). *)
Definition hex_digit (n : N) : byte :=
  match n with
  | 0 => x30 | 1 => x31 | 2 => x32 | 3 => x33 | 4 => x34 | 5 => x35
  | 6 => x36 | 7 => x37 | 8 => x38 | 9 => x39 | 10 => x61 | 11 => x62
  | 12 => x63 | 13 => x64 | 14 => x65 | _ => x66
  end%N.

Definition repr_byte (quote b : byte) : list byte :=
  if bool_decide (b = quote) || bool_decide (b = x5c) then [x5c; b]
  else if bool_decide (b = x09) then [x5c; x74]
  else if bool_decide (b = x0a) then [x5c; x6e]
  else if bool_decide (b = x0d) then [x5c; x72]
  else if (Byte.to_N b <? 32)%N || (127 <=? Byte.to_N b)%N
       then [x5c; x78; hex_digit (Byte.to_N b / 16); hex_digit (Byte.to_N b mod 16)]
  else [b].

Definition repr_quote (bs : token) : byte :=
  if bool_decide (x27 ∈ bs) && negb (bool_decide (x22 ∈ bs)) then x22 else x27.

Definition repr_bytes (bs : token) : string :=
  String.string_of_list_byte
    ([x62; repr_quote bs] ++ concat (map (repr_byte (repr_quote bs)) bs)
       ++ [repr_quote bs]).

End Py.
Import Py.

(** ** Observable events *)

Inductive lock_id :=
| MasterLock
| SessionLock (session_id : token).

#[global] Instance lock_id_eq_dec : EqDecision lock_id.
Proof. solve_decision. Defined.

(** Cursor objects are identified by their allocation number. *)
Abbreviation cursor := nat (only parsing).

Inductive event :=
| EAcquire (l : lock_id)
| ERelease (l : lock_id)
| ECursor (k : cursor)        (* [self.db[session_id].cursor()] returned [k] *)
| EAction (k : cursor) (raised : option exn)
                              (* [action(db=..., cursor=k)] returned or raised *)
| EPrint (line : string)
| ESleep (seconds : nat)
| EClose (k : cursor).        (* [k.close()] *)

(** Why a computation did not come back. *)
Inductive stuck := Deadlock | OutOfFuel.

Inductive result (A : Type) :=
| Ok (a : A)
| Err (e : exn)
| Hang (h : stuck).
Arguments Ok {A} a.
Arguments Err {A} e.
Arguments Hang {A} h.

(** What a caller-supplied callable does: it returns or it raises. *)
Inductive outcome (A : Type) :=
| Returns (a : A)
| Raises (e : exn).
Arguments Returns {A} a.
Arguments Raises {A} e.

Definition raised {A} (o : outcome A) : option exn :=
  match o with Returns _ => None | Raises e => Some e end.

(** ** The machine and the class *)

Section AtomicSQL.

(** Connection handles and the world outside the registry (the databases
    behind the handles, whatever the actions' closures capture). *)
Context {conn World : Type}.

(** The three attributes set by [__init__].  A [threading.Lock] is its
    locked flag. *)
Record AtomicSQL := mkAtomicSQL {
  master_lock : bool;
  db : gmap token conn;
  session_lock : gmap token bool
}.

Definition AtomicSQL_init : AtomicSQL :=
  {| master_lock := false; db := ∅; session_lock := ∅ |}.

Record machine := mkMachine {
  self : AtomicSQL;
  world : World;
  entropy : nat -> byte;   (* the bytes [os.urandom] is going to hand out *)
  drawn : nat;             (* how many of them have been consumed *)
  next_cursor : cursor;    (* allocation counter for cursor objects *)
  log : list event
}.

Definition with_self (r : AtomicSQL) (st : machine) : machine :=
  {| self := r; world := world st; entropy := entropy st; drawn := drawn st;
     next_cursor := next_cursor st; log := log st |}.

Definition with_world (w : World) (st : machine) : machine :=
  {| self := self st; world := w; entropy := entropy st; drawn := drawn st;
     next_cursor := next_cursor st; log := log st |}.

Definition emit (e : event) (st : machine) : machine :=
  {| self := self st; world := world st; entropy := entropy st; drawn := drawn st;
     next_cursor := next_cursor st; log := log st ++ [e] |}.

(** *** The monad *)

Definition M (A : Type) : Type := machine -> result A * machine.

Definition ret {A} (a : A) : M A := fun st => (Ok a, st).
Definition raise {A} (e : exn) : M A := fun st => (Err e, st).

Definition bind {A B} (m : M A) (f : A -> M B) : M B :=
  fun st =>
    match m st with
    | (Ok a, st') => f a st'
    | (Err e, st') => (Err e, st')
    | (Hang h, st') => (Hang h, st')
    end.

(** [try: body finally: fin]. The [finally] block runs when the body
    returns and when it raises; an exception of the block itself replaces
    the body's result. *)
Definition try_finally {A} (body : M A) (fin : M unit) : M A :=
  fun st =>
    match body st with
    | (Hang h, st') => (Hang h, st')
    | (r, st') =>
        match fin st' with
        | (Ok _, st'') => (r, st'')
        | (Err e, st'') => (Err e, st'')
        | (Hang h, st'') => (Hang h, st'')
        end
    end.

(** [try: body except <class>: handler]; any other exception goes on
    (which is all that [except Exception: raise] does). *)
Definition try_except {A} (body : M A) (catches : exn -> bool)
    (handler : M A) : M A :=
  fun st =>
    match body st with
    | (Err e, st') => if catches e then handler st' else (Err e, st')
    | r => r
    end.

Declare Scope M_scope.
Delimit Scope M_scope with M.
Bind Scope M_scope with M.
Notation "x <- m ;; f" := (bind m (fun x => f))
  (at level 100, m at next level, f at level 200, right associativity) : M_scope.
Notation "m ;; f" := (bind m (fun _ => f))
  (at level 100, f at level 200, right associativity) : M_scope.
Open Scope M_scope.

(** *** Primitive operations *)

Definition hang {A} (h : stuck) : M A := fun st => (Hang h, st).

Definition key_error {A} (session_id : token) : M A :=
  raise {| exn_type := KeyError; exn_msg := repr_bytes session_id |}.

(** The [threading.Lock] object a lock expression denotes, as its locked
    flag: [self.master_lock], or [self.session_lock[session_id]], which
    raises [KeyError] on a missing key. *)
Definition lookup_lock (l : lock_id) : M bool :=
  fun st =>
    match l with
    | MasterLock => (Ok (master_lock (self st)), st)
    | SessionLock session_id =>
        match session_lock (self st) !! session_id with
        | Some b => (Ok b, st)
        | None => key_error session_id st
        end
    end.

Definition set_locked (l : lock_id) (b : bool) (r : AtomicSQL) : AtomicSQL :=
  match l with
  | MasterLock =>
      {| master_lock := b; db := db r; session_lock := session_lock r |}
  | SessionLock session_id =>
      {| master_lock := master_lock r; db := db r;
         session_lock := <[session_id := b]> (session_lock r) |}
  end.

(** [l.acquire()]: blocks while the lock is held.  Run on its own, with
    nobody to release the lock, that is a deadlock. *)
Definition Lock_acquire (l : lock_id) : M unit :=
  held <- lookup_lock l ;;
  if held then hang Deadlock
  else fun st =>
         (Ok tt, emit (EAcquire l) (with_self (set_locked l true (self st)) st)).

(** [l.release()]: [RuntimeError] on a lock that is not held. *)
Definition Lock_release (l : lock_id) : M unit :=
  held <- lookup_lock l ;;
  if held
  then fun st =>
         (Ok tt, emit (ERelease l) (with_self (set_locked l false (self st)) st))
  else raise {| exn_type := RuntimeError; exn_msg := "release unlocked lock" |}.

(** [os.urandom(n)] *)
Definition urandom (n : nat) : M token :=
  fun st =>
    (Ok (map (entropy st) (seq (drawn st) n)),
     {| self := self st; world := world st; entropy := entropy st;
        drawn := drawn st + n; next_cursor := next_cursor st; log := log st |}).

(** [session_id in self.db] *)
Definition contains_db (session_id : token) : M bool :=
  fun st => (Ok (bool_decide (is_Some (db (self st) !! session_id))), st).

(** [self.db[session_id]] *)
Definition getitem_db (session_id : token) : M conn :=
  fun st =>
    match db (self st) !! session_id with
    | Some c => (Ok c, st)
    | None => key_error session_id st
    end.

(** [self.db[session_id] = connection] *)
Definition setitem_db (session_id : token) (connection : conn) : M unit :=
  fun st =>
    (Ok tt,
     with_self {| master_lock := master_lock (self st);
                  db := <[session_id := connection]> (db (self st));
                  session_lock := session_lock (self st) |} st).

(** [self.session_lock[session_id] = Lock()] *)
Definition setitem_session_lock (session_id : token) : M unit :=
  fun st =>
    (Ok tt,
     with_self {| master_lock := master_lock (self st);
                  db := db (self st);
                  session_lock := <[session_id := false]> (session_lock (self st)) |} st).

(** [connection.cursor()]: a new cursor object each time. *)
Definition conn_cursor (c : conn) : M cursor :=
  fun st =>
    (Ok (next_cursor st),
     emit (ECursor (next_cursor st))
       {| self := self st; world := world st; entropy := entropy st;
          drawn := drawn st; next_cursor := S (next_cursor st); log := log st |}).

(** [cursor.close()] *)
Definition cursor_close (k : cursor) : M unit :=
  fun st => (Ok tt, emit (EClose k) st).

Definition print (line : string) : M unit :=
  fun st => (Ok tt, emit (EPrint line) st).

(** [time.sleep(seconds)] *)
Definition sleep (seconds : nat) : M unit :=
  fun st => (Ok tt, emit (ESleep seconds) st).

(** A caller-supplied action: given the connection and the cursor, it
    works on the world and returns or raises. *)
Definition action_t (V : Type) : Type :=
  conn -> cursor -> World -> outcome V * World.

(** [action(db=c, cursor=k)] *)
Definition call {V} (action : action_t V) (c : conn) (k : cursor) : M V :=
  fun st =>
    let (o, w) := action c k (world st) in
    let st' := emit (EAction k (raised o)) (with_world w st) in
    match o with
    | Returns v => (Ok v, st')
    | Raises e => (Err e, st')
    end.

(** *** [AtomicSQL.load] *)

(** The [while not session_id or session_id in self.db] loop of [load];
    [fuel] bounds the number of draws. *)
Fixpoint load_loop (fuel : nat) (session_id : option token) : M token :=
  let draw : M token :=
    match fuel with
    | 0 => hang OutOfFuel
    | S fuel' => t <- urandom 16 ;; load_loop fuel' (Some t)
    end in
  match session_id with
  | None => draw                       (* [not None] *)
  | Some [] => draw                    (* [not b''] *)
  | Some t => present <- contains_db t ;; if present then draw else ret t
  end.

Definition load (fuel : nat) (connection : conn) : M token :=
  Lock_acquire MasterLock ;;
  try_finally
    (session_id <- load_loop fuel None ;;
     setitem_db session_id connection ;;
     setitem_session_lock session_id ;;
     ret session_id)
    (Lock_release MasterLock).

(** *** [AtomicSQL.safe_execute] *)

Definition invalid_session (session_id : token) : exn :=
  {| exn_type := ValueError;
     exn_msg := "Session ID " +:+ repr_bytes session_id +:+ " is invalid." |}.

Definition retry_exhausted : exn :=
  {| exn_type := ValueError;
     exn_msg := "AtomicSQL.safe_execute failed too many times. Aborting." |}.

Definition retry_notice (delay : nat) : string :=
  "AtomicSQL.safe_execute failed, retrying in " +:+ pretty delay +:+ " seconds...".

(** One pass through the body of [while True] up to and including the
    inner [try] statement.  The result is the new value of [failures] and
    [Some res] when [return res] was reached. *)
Definition attempt {V} (session_id : token) (action : action_t V)
    (failures : nat) : M (nat * option V) :=
  k <- (c <- getitem_db session_id ;; conn_cursor c) ;;
  try_finally
    (try_except
       (c <- getitem_db session_id ;;
        res <- call action c k ;;
        ret (failures, Some res))
       is_operational
       (let failures := failures + 1 in
        let delay := 3 * failures in
        print (retry_notice delay) ;;
        sleep delay ;;
        ret (failures, None)))
    (cursor_close k).

Fixpoint safe_execute_loop {V} (fuel : nat) (session_id : token)
    (action : action_t V) (failures : nat) : M V :=
  match fuel with
  | 0 => hang OutOfFuel
  | S fuel' =>
      r <- attempt session_id action failures ;;
      match r with
      | (_, Some res) => ret res
      | (failures, None) =>
          if bool_decide (failures = 10) then raise retry_exhausted
          else safe_execute_loop fuel' session_id action failures
      end
  end.

Definition safe_execute {V} (fuel : nat) (session_id : token)
    (action : action_t V) : M V :=
  present <- contains_db session_id ;;
  if negb present then raise (invalid_session session_id)
  else
    Lock_acquire MasterLock ;;
    Lock_acquire (SessionLock session_id) ;;
    try_finally
      (safe_execute_loop fuel session_id action 0)
      (Lock_release (SessionLock session_id) ;; Lock_release MasterLock).

(** *** [AtomicSQL.commit] *)

(** [db.commit()], the commit operation of the connection handles. *)
Context {R : Type} (conn_commit : conn -> World -> outcome R * World).

Definition commit (fuel : nat) (session_id : token) : M bool :=
  safe_execute fuel session_id (fun db cursor => conn_commit db) ;;
  ret true.

End AtomicSQL.

Arguments AtomicSQL : clear implicits.
Arguments machine : clear implicits.
Arguments M : clear implicits.
Arguments action_t : clear implicits.

(** ** Reading the log *)

(** The seconds slept, in order. *)
Definition sleeps (tr : list event) : list nat :=
  omap (fun e => match e with ESleep n => Some n | _ => None end) tr.

(** The cursors handed to the action, one per invocation, in order. *)
Definition calls (tr : list event) : list cursor :=
  omap (fun e => match e with EAction k _ => Some k | _ => None end) tr.

(** The cursors created, in order. *)
Definition created (tr : list event) : list cursor :=
  omap (fun e => match e with ECursor k => Some k | _ => None end) tr.

(** Lock operations only. *)
Definition is_lock_event (e : event) : bool :=
  match e with EAcquire _ | ERelease _ => true | _ => false end.

Definition lock_events (tr : list event) : list event :=
  filter (fun e => is_lock_event e = true) tr.

(** Attempts and sleeps only, to see how they alternate. *)
Inductive beat := Attempt | Sleep (seconds : nat).

Definition schedule (tr : list event) : list beat :=
  omap (fun e => match e with
                 | EAction _ _ => Some Attempt
                 | ESleep n => Some (Sleep n)
                 | _ => None
                 end) tr.

(** The cursors that are open after a run of events, given those open
    before it. *)
Definition live_step (open : list cursor) (e : event) : list cursor :=
  match e with
  | ECursor k => open ++ [k]
  | EClose k => filter (fun k' => k' ≠ k) open
  | _ => open
  end.

Definition live_from (open : list cursor) (tr : list event) : list cursor :=
  foldl live_step open tr.

Definition live (tr : list event) : list cursor := live_from [] tr.

(** Never more than one cursor open, checked event by event. *)
Fixpoint one_at_a_time (open : list cursor) (tr : list event) : Prop :=
  length open <= 1
  ∧ match tr with
    | [] => True
    | e :: tr' => one_at_a_time (live_step open e) tr'
    end.

(** An exception was retried in [tr] when an action raised it and the
    action was invoked again later. *)
Definition retried (tr : list event) (e : exn) : Prop :=
  ∃ l1 k l2 k' o, tr = l1 ++ EAction k (Some e) :: l2 ∧ EAction k' o ∈ l2.

Section Runs.

Context {conn World : Type}.

(** What a call added to the log. *)
Definition emitted (st st' : machine conn World) : list event :=
  drop (length (log st)) (log st').

(** Nobody holds a lock, and every session has its lock object. *)
Definition idle (r : AtomicSQL conn) : Prop :=
  master_lock r = false ∧
  ∀ t, is_Some (db r !! t) → session_lock r !! t = Some false.

(** The locked flag of a lock, when the lock object exists. *)
Definition lock_state (l : lock_id) (r : AtomicSQL conn) : option bool :=
  match l with
  | MasterLock => Some (master_lock r)
  | SessionLock session_id => session_lock r !! session_id
  end.

(** The machine after some more events, in a new world, with the cursor
    counter at [n]. *)
Definition advance (w : World) (n : cursor) (evs : list event)
    (st : machine conn World) : machine conn World :=
  {| self := self st; world := w; entropy := entropy st; drawn := drawn st;
     next_cursor := n; log := log st ++ evs |}.

(** The events of one attempt with cursor [k] whose action call ended as
    [o]; [failures] is the counter after the attempt, which matters when the
    attempt failed with the transient error only. *)
Definition attempt_events (failures : nat) (k : cursor) (o : option exn)
    : list event :=
  [ECursor k; EAction k o]
    ++ match o with
       | Some e =>
           if is_operational e
           then [EPrint (retry_notice (3 * failures)); ESleep (3 * failures)]
           else []
       | None => []
       end
    ++ [EClose k].

(** The [while True] loop of [safe_execute] as a relation: started with
    [failures] failures, next cursor [k] and world [w], it emits [tr] and
    ends with a result in world [w'] with next cursor [n]. *)
Inductive loop_run {V} (action : action_t conn World V) (c : conn)
  : nat -> cursor -> World -> list event -> result V -> World -> cursor -> Prop :=
| loop_return failures k w v w' :
    action c k w = (Returns v, w') ->
    loop_run action c failures k w
      (attempt_events failures k None) (Ok v) w' (S k)
| loop_raise failures k w e w' :
    action c k w = (Raises e, w') ->
    is_operational e = false ->
    loop_run action c failures k w
      (attempt_events failures k (Some e)) (Err e) w' (S k)
| loop_exhausted failures k w e w' :
    action c k w = (Raises e, w') ->
    is_operational e = true ->
    failures + 1 = 10 ->
    loop_run action c failures k w
      (attempt_events (failures + 1) k (Some e)) (Err retry_exhausted) w' (S k)
| loop_retry failures k w e w' tr r w'' n :
    action c k w = (Raises e, w') ->
    is_operational e = true ->
    failures + 1 ≠ 10 ->
    loop_run action c (failures + 1) (S k) w' tr r w'' n ->
    loop_run action c failures k w
      (attempt_events (failures + 1) k (Some e) ++ tr) r w'' n.

(** The machine after [os.urandom] has handed out bytes up to [d]. *)
Definition with_drawn (d : nat) (st : machine conn World) : machine conn World :=
  {| self := self st; world := world st; entropy := entropy st; drawn := d;
     next_cursor := next_cursor st; log := log st |}.

(** The [i]-th session id that [load] would draw from now on. *)
Definition nth_draw (st : machine conn World) (i : nat) : token :=
  map (entropy st) (seq (drawn st + 16 * i) 16).

(** What the draw loop guarantees: it only consumes entropy, and when it
    returns, the session id is a non-empty byte string that is not a key
    of [self.db]. *)
Definition load_loop_post (st : machine conn World)
    (res : result token * machine conn World) : Prop :=
  ∃ d, drawn st <= d
    ∧ res.2 = with_drawn d st
    ∧ match res.1 with
      | Ok t => t ≠ [] ∧ db (self st) !! t = None
      | Err _ => False
      | Hang h => h = OutOfFuel
      end.

(** The machine after a [load] that returned [t]. *)
Definition after_load (t : token) (connection : conn) (d : nat)
    (st : machine conn World) : machine conn World :=
  {| self := {| master_lock := false;
                db := <[t := connection]> (db (self st));
                session_lock := <[t := false]> (session_lock (self st)) |};
     world := world st; entropy := entropy st; drawn := d;
     next_cursor := next_cursor st;
     log := log st ++ [EAcquire MasterLock; ERelease MasterLock] |}.

(** The machine when [load] is still drawing, with the master lock held. *)
Definition inside_load (d : nat) (st : machine conn World) : machine conn World :=
  {| self := {| master_lock := true; db := db (self st);
                session_lock := session_lock (self st) |};
     world := world st; entropy := entropy st; drawn := d;
     next_cursor := next_cursor st;
     log := log st ++ [EAcquire MasterLock] |}.

(** The computation leaves the session table as it found it, however it
    ends. *)
Definition keeps_db {A} (m : M conn World A) : Prop :=
  ∀ st, db (self (m st).2) = db (self st).

End Runs.

(** ** Sequences of calls on one registry *)

Section Calls.

Context {conn World V R : Type}.
Context (conn_commit : conn -> World -> outcome R * World).

(** The action raises the transient error whenever it is invoked. *)
Definition always_busy (action : action_t conn World V) : Prop :=
  ∀ c k w, ∃ e w', action c k w = (Raises e, w') ∧ is_operational e = true.

Inductive api_call :=
| CallLoad (connection : conn)
| CallSafeExecute (session_id : token) (action : action_t conn World V)
| CallCommit (session_id : token).

Inductive api_result :=
| FromLoad (r : result token)
| FromSafeExecute (r : result V)
| FromCommit (r : result bool).

Definition do_call (fuel : nat) (call : api_call) (st : machine conn World)
    : api_result * machine conn World :=
  match call with
  | CallLoad connection =>
      let (r, st') := load fuel connection st in (FromLoad r, st')
  | CallSafeExecute session_id action =>
      let (r, st') := safe_execute fuel session_id action st in
      (FromSafeExecute r, st')
  | CallCommit session_id =>
      let (r, st') := commit conn_commit fuel session_id st in (FromCommit r, st')
  end.

Fixpoint do_calls (fuel : nat) (calls : list api_call) (st : machine conn World)
    : list api_result * machine conn World :=
  match calls with
  | [] => ([], st)
  | call :: calls' =>
      let (r, st') := do_call fuel call st in
      let (rs, st'') := do_calls fuel calls' st' in
      (r :: rs, st'')
  end.

(** The session ids that [load] returned. *)
Definition issued (rs : list api_result) : list token :=
  omap (fun r => match r with FromLoad (Ok t) => Some t | _ => None end) rs.

End Calls.

(** ** Several threads on one registry *)

(** For calls that run concurrently, a method is a tree of atomic steps: each
    primitive operation above is one step, and between two steps of a thread
    the other threads may run.  A step that would block when run alone (an
    [acquire] of a lock that is held) is not enabled. *)

Module Threads.

Section Programs.

Context {conn World : Type}.

Inductive prog (A : Type) : Type :=
| Done (r : result A)
| Atomic {X : Type} (m : M conn World X) (k : result X -> prog A).
Arguments Done {A} r.
Arguments Atomic {A X} m k.

Definition atomic {X} (m : M conn World X) : prog X := Atomic m Done.

Fixpoint bind {A B} (p : prog A) (f : A -> prog B) : prog B :=
  match p with
  | Done (Ok a) => f a
  | Done (Err e) => Done (Err e)
  | Done (Hang h) => Done (Hang h)
  | Atomic m k => Atomic m (fun r => bind (k r) f)
  end.

(** The [finally] block, run after the body ended as [r]. *)
Fixpoint finish {A} (fin : prog unit) (r : result A) : prog A :=
  match fin with
  | Done (Ok _) => Done r
  | Done (Err e) => Done (Err e)
  | Done (Hang h) => Done (Hang h)
  | Atomic m k => Atomic m (fun x => finish (k x) r)
  end.

Fixpoint try_finally {A} (body : prog A) (fin : prog unit) : prog A :=
  match body with
  | Done (Hang h) => Done (Hang h)
  | Done r => finish fin r
  | Atomic m k => Atomic m (fun r => try_finally (k r) fin)
  end.

Fixpoint try_except {A} (body : prog A) (catches : exn -> bool)
    (handler : prog A) : prog A :=
  match body with
  | Done (Err e) => if catches e then handler else Done (Err e)
  | Done r => Done r
  | Atomic m k => Atomic m (fun r => try_except (k r) catches handler)
  end.

Declare Scope prog_scope.
Delimit Scope prog_scope with prog.
Bind Scope prog_scope with prog.
Notation "x <- m ;; f" := (bind m (fun x => f))
  (at level 100, m at next level, f at level 200, right associativity) : prog_scope.
Notation "m ;; f" := (bind m (fun _ => f))
  (at level 100, f at level 200, right associativity) : prog_scope.
Open Scope prog_scope.

(** [safe_execute], step by step. *)
Definition attempt {V} (session_id : token) (action : action_t conn World V)
    (failures : nat) : prog (nat * option V) :=
  k <- (c <- atomic (getitem_db session_id) ;; atomic (conn_cursor c)) ;;
  try_finally
    (try_except
       (c <- atomic (getitem_db session_id) ;;
        res <- atomic (call action c k) ;;
        Done (Ok (failures, Some res)))
       is_operational
       (let failures := failures + 1 in
        let delay := 3 * failures in
        atomic (print (retry_notice delay)) ;;
        atomic (sleep delay) ;;
        Done (Ok (failures, None))))
    (atomic (cursor_close k)).

Fixpoint safe_execute_loop {V} (fuel : nat) (session_id : token)
    (action : action_t conn World V) (failures : nat) : prog V :=
  match fuel with
  | 0 => Done (Hang OutOfFuel)
  | S fuel' =>
      r <- attempt session_id action failures ;;
      match r with
      | (_, Some res) => Done (Ok res)
      | (failures, None) =>
          if bool_decide (failures = 10) then Done (Err retry_exhausted)
          else safe_execute_loop fuel' session_id action failures
      end
  end.

Definition safe_execute {V} (fuel : nat) (session_id : token)
    (action : action_t conn World V) : prog V :=
  present <- atomic (contains_db session_id) ;;
  if negb present then Done (Err (invalid_session session_id))
  else
    atomic (Lock_acquire MasterLock) ;;
    atomic (Lock_acquire (SessionLock session_id)) ;;
    try_finally
      (safe_execute_loop fuel session_id action 0)
      (atomic (Lock_release (SessionLock session_id)) ;;
       atomic (Lock_release MasterLock)).

(** Running a program alone, from start to end. *)
Fixpoint run {A} (p : prog A) (st : machine conn World)
    : result A * machine conn World :=
  match p with
  | Done r => (r, st)
  | Atomic m k =>
      let (r, st') := m st in
      match r with
      | Hang h => (Hang h, st')
      | _ => run (k r) st'
      end
  end.

(** The shared machine and the pool of threads, each with what it still has
    to do. *)
Definition config (V : Type) : Type := machine conn World * list (prog V).

Definition tagged (i : nat) (evs : list event) : list (nat * event) :=
  map (pair i) evs.

(** Thread [i] takes its next step. *)
Inductive step {V} : nat -> config V -> config V -> Prop :=
| step_atomic i st pool X (m : M conn World X) k r st' :
    pool !! i = Some (Atomic m k) ->
    m st = (r, st') ->
    (∀ h, r ≠ Hang h) ->
    step i (st, pool) (st', <[i := k r]> pool).

(** An interleaving of steps, with the log it produces, every event tagged
    with the thread that performed it. *)
Inductive exec {V} : config V -> list (nat * event) -> config V -> Prop :=
| exec_start c : exec c [] c
| exec_step c ttr c1 i c2 :
    exec c ttr c1 ->
    step i c1 c2 ->
    exec c (ttr ++ tagged i (emitted c1.1 c2.1)) c2.

(** The same, computed: let the threads named in [order] take one step
    each, in that order; [None] when a thread that is named cannot step. *)
Fixpoint interleave {V} (order : list nat) (ttr : list (nat * event))
    (c : config V) : option (list (nat * event) * config V) :=
  match order with
  | [] => Some (ttr, c)
  | i :: order' =>
      match c.2 !! i with
      | Some (Atomic m k) =>
          let (r, st') := m c.1 in
          match r with
          | Hang _ => None
          | _ => interleave order' (ttr ++ tagged i (emitted c.1 st'))
                   (st', <[i := k r]> c.2)
          end
      | _ => None
      end
  end.

(** A pool of threads, each of them calling [safe_execute]; a job is the
    fuel, the session id and the action of one call. *)
Definition spawn {V} (jobs : list (nat * token * action_t conn World V))
    : list (prog V) :=
  map (fun job => safe_execute job.1.1 job.1.2 job.2) jobs.

(** *** The locking discipline of a program *)

Definition master_event (e : event) : Prop :=
  e = EAcquire MasterLock ∨ e = ERelease MasterLock.

(** What one step of a thread does to the master lock: [held] says whether
    the thread owns it before the step, [held'] after. *)
Definition lock_move (held held' : bool) (st st' : machine conn World) : Prop :=
  match held, held' with
  | false, false =>
      master_lock (self st') = master_lock (self st) ∧ emitted st st' = []
  | false, true =>
      master_lock (self st) = false ∧ master_lock (self st') = true
      ∧ emitted st st' = [EAcquire MasterLock]
  | true, true =>
      master_lock (self st') = master_lock (self st)
      ∧ Forall (fun e => ¬ master_event e) (emitted st st')
  | true, false =>
      master_lock (self st') = false ∧ emitted st st' = [ERelease MasterLock]
  end.

(** A program respects the master lock: it logs nothing unless it owns the
    lock, it only takes the lock when it is free and only gives back a lock
    it owns. *)
Fixpoint disciplined {A} (held : bool) (p : prog A) : Prop :=
  match p with
  | Done _ => True
  | Atomic m k =>
      ∀ st r st', m st = (r, st') -> (∀ h, r ≠ Hang h) ->
        ∃ held', lock_move held held' st st' ∧ disciplined held' (k r)
  end.

(** A step that leaves the master lock alone. *)
Definition calm {X} (m : M conn World X) : Prop :=
  ∀ st, lock_move true true st (m st).2.

(** A program that runs under the master lock without touching it. *)
Fixpoint inside {A} (p : prog A) : Prop :=
  match p with
  | Done _ => True
  | Atomic m k => calm m ∧ ∀ r, inside (k r)
  end.

End Programs.

Arguments prog : clear implicits.
Arguments config : clear implicits.

(** Who owns the master lock after a tagged log. *)
Definition owner_step (owner : option nat) (ie : nat * event) : option nat :=
  match ie.2 with
  | EAcquire MasterLock => Some ie.1
  | ERelease MasterLock => None
  | _ => owner
  end.

Definition owner_after (owner : option nat) (ttr : list (nat * event)) : option nat :=
  foldl owner_step owner ttr.

(** Mutual exclusion, read off a tagged log: the master lock is acquired
    only when nobody owns it and released only by its owner, and every other
    event (a session lock operation, a cursor created or closed, an action
    call, a print, a sleep) is performed by the thread that owns the master
    lock at that moment. *)
Fixpoint exclusive (owner : option nat) (ttr : list (nat * event)) : Prop :=
  match ttr with
  | [] => True
  | (i, e) :: rest =>
      match e with
      | EAcquire MasterLock => owner = None ∧ exclusive (Some i) rest
      | ERelease MasterLock => owner = Some i ∧ exclusive None rest
      | _ => owner = Some i ∧ exclusive owner rest
      end
  end.

End Threads.

(** ** Counting invocations of the commit operation *)

(** A commit operation instrumented with a counter: the world is paired with
    the number of times the operation has been invoked. *)
Definition counting {conn World R : Type}
    (op : conn -> World -> outcome R * World)
    : conn -> World * nat -> outcome R * (World * nat) :=
  fun c wn =>
    let (o, w') := op c wn.1 in (o, (w', S wn.2)).

(** ** A concrete registry to run the model on *)

Module Demo.

Definition busy : exn :=
  {| exn_type := OperationalError; exn_msg := "database is locked" |}.

Definition broken : exn :=
  {| exn_type := OtherError "sqlite3.IntegrityError";
     exn_msg := "UNIQUE constraint failed" |}.

(** Connections are named by their database file; the world is the
    script of what the next invocations of a callable are going to do. *)
Definition World : Type := list (outcome nat).

Definition scripted : action_t string World nat :=
  fun _ _ w =>
    match w with
    | [] => (Returns 0, [])
    | o :: w' => (o, w')
    end.

Definition stubborn : action_t string World nat :=
  fun _ _ w => (Raises busy, w).

Definition do_commit : string -> World -> outcome nat * World :=
  fun c w => scripted c 0 w.

(** The first two draws of sixteen bytes collide. *)
Definition weak_entropy (i : nat) : byte := default x00 (Byte.of_nat (i / 32)).

Definition boot {W : Type} (w : W) : machine string W :=
  {| self := AtomicSQL_init; world := w; entropy := weak_entropy;
     drawn := 0; next_cursor := 0; log := [] |}.

Definition sid0 : token := replicate 16 x00.
Definition sid1 : token := replicate 16 x01.

(** Two connections loaded. *)
Definition loaded {W : Type} (w : W) : machine string W :=
  (load 2 "b.db" (load 2 "a.db" (boot w)).2).2.

Definition first_load : list (api_call (conn := string) (World := World) (V := nat)) :=
  [CallLoad "a.db"].

Definition second_load : api_call (conn := string) (World := World) (V := nat) :=
  CallLoad "b.db".

(** A history that mixes the three methods. *)
Definition history : list (api_call (conn := string) (World := World) (V := nat)) :=
  [CallLoad "a.db"; CallSafeExecute sid0 scripted; CallLoad "b.db";
   CallCommit sid0].

(** The demo registry in front of various worlds. *)
Definition quiet : machine string World := loaded [].
Definition flaky : machine string World :=
  loaded [Raises busy; Raises busy; Returns 42].
Definition failing : machine string World := loaded [Raises broken].
Definition mixed : machine string World := loaded [Raises busy; Raises broken].
Definition committing : machine string (World * nat) := loaded ([Returns 7], 0).
Definition committing_busy : machine string (World * nat) :=
  loaded ([Raises busy; Returns 7], 0).
Definition fresh : machine string World := boot [].

(** Two threads, one per session; they both pass the session check, then
    thread 0 runs to its end before thread 1 gets the master lock. *)
Definition jobs : list (nat * token * action_t string World nat) :=
  [(10, sid0, scripted); (10, sid1, scripted)].

Definition order : list nat :=
  [0; 1; 0; 0; 0; 0; 0; 0; 0; 0; 0; 1; 1; 1; 1; 1; 1; 1; 1; 1].

Definition interleaved
    : option (list (nat * event) * Threads.config string World nat) :=
  Threads.interleave order [] (loaded [Returns 1; Returns 2], Threads.spawn jobs).

(** Thread 1 asks for the master lock while thread 0 holds it. *)
Definition blocked
    : option (list (nat * event) * Threads.config string World nat) :=
  Threads.interleave [0; 1; 0; 1] []
    (loaded [Returns 1; Returns 2], Threads.spawn jobs).

End Demo.

(** The sequential [load], under a name that stays visible where the
    threaded one is defined. *)
Abbreviation sequential_load := load.

(** ** Threads that call [load] *)

Module Loaders.

Arguments Threads.Done {conn World A} r.
Arguments Threads.Atomic {conn World A X} m k.

Section Programs.

Context {conn World : Type}.

Declare Scope loader_scope.
Delimit Scope loader_scope with loader.
Notation "x <- m ;; f" := (Threads.bind m (fun x => f))
  (at level 100, m at next level, f at level 200, right associativity) : loader_scope.
Notation "m ;; f" := (Threads.bind m (fun _ => f))
  (at level 100, f at level 200, right associativity) : loader_scope.
Open Scope loader_scope.

(** [load], step by step. *)
Fixpoint load_loop (fuel : nat) (session_id : option token)
    : Threads.prog conn World token :=
  let draw : Threads.prog conn World token :=
    match fuel with
    | 0 => Threads.Done (Hang OutOfFuel)
    | S fuel' => t <- Threads.atomic (urandom 16) ;; load_loop fuel' (Some t)
    end in
  match session_id with
  | None => draw
  | Some [] => draw
  | Some t =>
      present <- Threads.atomic (contains_db t) ;;
      if present then draw else Threads.Done (Ok t)
  end.

Definition load (fuel : nat) (connection : conn) : Threads.prog conn World token :=
  Threads.atomic (Lock_acquire MasterLock) ;;
  Threads.try_finally
    (session_id <- load_loop fuel None ;;
     Threads.atomic (setitem_db session_id connection) ;;
     Threads.atomic (setitem_session_lock session_id) ;;
     Threads.Done (Ok session_id))
    (Threads.atomic (Lock_release MasterLock)).

(** A pool of threads, each of them calling [load]; a job is the fuel and
    the connection of one call. *)
Definition spawn (jobs : list (nat * conn)) : list (Threads.prog conn World token) :=
  map (fun job => load job.1 job.2) jobs.

(** The next step of a thread, when it has one that is enabled. *)
Definition thread_step {A} (p : Threads.prog conn World A) (st : machine conn World)
    : option (Threads.prog conn World A * machine conn World) :=
  match p with
  | Threads.Done _ => None
  | Threads.Atomic m k =>
      let (r, st') := m st in
      match r with
      | Hang _ => None
      | _ => Some (k r, st')
      end
  end.

(** A program that owns the master lock: each of its steps keeps the lock,
    or gives it back and is the last one. *)
Fixpoint critical {A} (p : Threads.prog conn World A) : Prop :=
  match p with
  | Threads.Done _ => True
  | Threads.Atomic m k =>
      ∀ st r st', m st = (r, st') -> (∀ h, r ≠ Hang h) ->
        master_lock (self st) = true ->
        (master_lock (self st') = true ∧ critical (k r))
        ∨ (master_lock (self st') = false ∧ ∃ r', k r = Threads.Done r')
  end.

(** A program none of whose steps can block. *)
Fixpoint nonblocking {A} (p : Threads.prog conn World A) : Prop :=
  match p with
  | Threads.Done _ => True
  | Threads.Atomic m k => (∀ st h, (m st).1 ≠ Hang h) ∧ ∀ r, nonblocking (k r)
  end.

(** The calls of [load] made one after the other: [returned] lists the
    threads in the order of their calls, each with the session id its call
    returned.  The result is the machine after the last call; [None] when a
    call does not return the session id listed for it. *)
Fixpoint serial (jobs : list (nat * conn)) (returned : list (nat * token))
    (st : machine conn World) : option (machine conn World) :=
  match returned with
  | [] => Some st
  | (i, t) :: returned' =>
      match jobs !! i with
      | Some (fuel, connection) =>
          match sequential_load fuel connection st with
          | (Ok t', st') =>
              if bool_decide (t' = t) then serial jobs returned' st' else None
          | _ => None
          end
      | None => None
      end
  end.

(** What holds of a pool of [load] threads at any moment of a run that
    started on [st0].  [ref] is the machine as it was when the master lock
    was last free, and [returned] the threads that have returned so far, in
    the order in which they gave back the master lock. *)
Definition pool_inv (jobs : list (nat * conn)) (st0 st : machine conn World)
    (pool : list (Threads.prog conn World token)) : Prop :=
  length pool = length jobs
  ∧ ∃ (owner : option nat) (ref : machine conn World)
      (returned : list (nat * token)),
      master_lock (self ref) = false
      ∧ match owner with
        | None => ref = st
        | Some i =>
            master_lock (self st) = true
            ∧ (i ∉ returned.*1)
            ∧ ∃ fuel c p, jobs !! i = Some (fuel, c) ∧ pool !! i = Some p
                ∧ critical p ∧ nonblocking p
                ∧ Threads.run p st = sequential_load fuel c ref
        end
      ∧ (∀ j fuel c p, owner ≠ Some j -> jobs !! j = Some (fuel, c) ->
           pool !! j = Some p ->
           p = load fuel c
           ∨ ∃ t, p = Threads.Done (Ok t) ∧ db (self ref) !! t = Some c)
      ∧ (∀ i j t, owner ≠ Some i -> owner ≠ Some j ->
           pool !! i = Some (Threads.Done (Ok t)) ->
           pool !! j = Some (Threads.Done (Ok t)) -> i = j)
      ∧ NoDup (returned.*1)
      ∧ serial jobs returned st0 = Some ref
      ∧ (∀ j t, owner ≠ Some j ->
           pool !! j = Some (Threads.Done (Ok t)) ↔ (j, t) ∈ returned).

(** A thread that has come to its end. *)
Definition finished {A} (p : Threads.prog conn World A) : Prop :=
  match p with Threads.Done _ => True | Threads.Atomic _ _ => False end.

#[global] Instance finished_dec {A} (p : Threads.prog conn World A)
    : Decision (finished p).
Proof. destruct p; [left|right]; cbn; tauto. Defined.

End Programs.

End Loaders.

(** ** More ways to read logs and histories *)

(** What [safe_execute] makes of the outcome of the last invocation. *)
Definition as_result {V : Type} (o : outcome V) : result V :=
  match o with Returns v => Ok v | Raises e => Err e end.

(** The lines printed, in order. *)
Definition prints (tr : list event) : list string :=
  omap (fun e => match e with EPrint line => Some line | _ => None end) tr.

(** The session ids issued in a history, each with the connection that was
    passed to the [load] call that returned it. *)
Fixpoint bindings {conn World V : Type}
    (history : list (api_call (conn := conn) (World := World) (V := V)))
    (rs : list (@api_result V)) : list (token * conn) :=
  match history, rs with
  | CallLoad connection :: history', FromLoad (Ok t) :: rs' =>
      (t, connection) :: bindings history' rs'
  | _ :: history', _ :: rs' => bindings history' rs'
  | _, _ => []
  end.

(** The machine right after [load] has taken the master lock. *)
Definition load_entered {conn World : Type} (st : machine conn World)
    : machine conn World :=
  emit (EAcquire MasterLock) (with_self (set_locked MasterLock true (self st)) st).

(** More demo values. *)
Module Cases.

(** A commit operation that is refused once and for all. *)
Definition refusing : machine string (Demo.World * nat) :=
  Demo.loaded ([Raises Demo.broken], 0).

(** A commit operation that is busy whatever happens. *)
Definition busy_commit : string -> Demo.World -> outcome nat * Demo.World :=
  fun _ w => (Raises Demo.busy, w).

Definition counted : machine string (Demo.World * nat) := Demo.loaded ([], 0).

(** A registry whose master lock is held. *)
Definition held : machine string Demo.World :=
  load_entered Demo.quiet.

(** Three transient failures, then an error of another kind. *)
Definition thrice : machine string Demo.World :=
  Demo.loaded [Raises Demo.busy; Raises Demo.busy; Raises Demo.busy;
               Raises Demo.broken].

(** Two threads that call [load]; the draws of the second one to get the
    master lock collide once.  Thread 1 runs first. *)
Definition loaders : list (nat * string) := [(2, "a.db"); (2, "b.db")].

Definition loading_order : list nat := [1; 1; 1; 1; 1; 1; 0; 0; 0; 0; 0; 0; 0; 0].

Definition loading
    : option (list (nat * event) * Threads.config string Demo.World token) :=
  Threads.interleave loading_order [] (Demo.fresh, Loaders.spawn loaders).

(** Thread 1 is inside [load], thread 0 has not started. *)
Definition waiting
    : option (list (nat * event) * Threads.config string Demo.World token) :=
  Threads.interleave [1; 1; 1] [] (Demo.fresh, Loaders.spawn loaders).

End Cases.

(** * Proofs *)

(** Two machine states built from the same pieces are equal once the logs
    are re-associated. *)
Ltac machine_eq :=
  unfold advance, emit, with_world, with_self; cbn;
  rewrite <- ?app_assoc; cbn; try reflexivity.

Section Attempts.

Context {conn World V : Type}.
Implicit Types (st : machine conn World) (action : action_t conn World V).

Lemma emitted_advance st w n evs : emitted st (advance w n evs st) = evs.
Proof. unfold emitted, advance; simpl. by rewrite drop_app_length. Qed.

Lemma advance_advance st w n evs w' n' evs' :
  advance w' n' evs' (advance w n evs st) = advance w' n' (evs ++ evs') st.
Proof. unfold advance; simpl. by rewrite app_assoc. Qed.

(** One attempt, whatever the action does. *)
Lemma attempt_eq session_id action failures st c :
  db (self st) !! session_id = Some c ->
  attempt session_id action failures st =
    (match (action c (next_cursor st) (world st)).1 with
     | Returns v => Ok (failures, Some v)
     | Raises e => if is_operational e then Ok (failures + 1, None) else Err e
     end,
     advance (action c (next_cursor st) (world st)).2 (S (next_cursor st))
       (attempt_events (failures + 1) (next_cursor st)
          (raised (action c (next_cursor st) (world st)).1)) st).
Proof.
  intros Hc. unfold attempt, bind, try_finally, try_except, getitem_db,
    conn_cursor, call, cursor_close, print, sleep, ret.
  rewrite Hc. cbn [self emit world next_cursor log with_world].
  rewrite Hc. cbn [self emit world next_cursor log with_world].
  destruct (action c (next_cursor st) (world st)) as [[v|e] w]; cbn.
  - by machine_eq.
  - unfold attempt_events.
    destruct (is_operational e) eqn:He; cbn; by machine_eq.
Qed.

(** With enough fuel the loop always comes back, and what it does is
    described by [loop_run]. *)
Lemma safe_execute_loop_run fuel session_id action failures st c :
  db (self st) !! session_id = Some c ->
  failures < 10 ->
  10 - failures <= fuel ->
  ∃ tr r w n,
    safe_execute_loop fuel session_id action failures st
      = (r, advance w n tr st)
    ∧ loop_run action c failures (next_cursor st) (world st) tr r w n.
Proof.
  revert failures st.
  induction fuel as [|fuel IH]; intros failures st Hc Hlt Hfuel; [lia|].
  cbn [safe_execute_loop]. unfold bind at 1.
  rewrite (attempt_eq _ _ _ _ c Hc).
  destruct (action c (next_cursor st) (world st)) as [[v|e] w] eqn:Hact;
    cbn [fst snd raised].
  - eexists _, _, _, _. split; [reflexivity|].
    change (attempt_events (failures + 1) (next_cursor st) None)
      with (attempt_events failures (next_cursor st) None).
    by apply loop_return.
  - destruct (is_operational e) eqn:He.
    + case_bool_decide as Hten.
      * eexists _, _, _, _. split; [reflexivity|]. by apply loop_exhausted.
      * destruct (IH (failures + 1)
                    (advance w (S (next_cursor st))
                       (attempt_events (failures + 1) (next_cursor st) (Some e)) st)
                    Hc ltac:(lia) ltac:(lia)) as (tr & r & w' & n & Hrun & Hspec).
        rewrite Hrun, advance_advance.
        eexists _, _, _, _. split; [reflexivity|].
        eapply loop_retry; eauto.
    + eexists _, _, _, _. split; [reflexivity|].
      replace (attempt_events (failures + 1) (next_cursor st) (Some e))
        with (attempt_events failures (next_cursor st) (Some e))
        by (unfold attempt_events; by rewrite He).
      by apply loop_raise.
Qed.

(** An unknown session id: nothing happens. *)
Lemma safe_execute_unknown fuel session_id action st :
  db (self st) !! session_id = None ->
  safe_execute fuel session_id action st = (Err (invalid_session session_id), st).
Proof.
  intros Hnone. unfold safe_execute, bind, contains_db. rewrite Hnone.
  rewrite bool_decide_eq_false_2; [done|]. by intros [? ?].
Qed.

Lemma loop_run_comes_back action c failures k w tr (r : result V) w' n :
  loop_run action c failures k w tr r w' n -> ∀ h, r ≠ Hang h.
Proof. induction 1; done. Qed.

Lemma Lock_acquire_free l st :
  lock_state l (self st) = Some false ->
  Lock_acquire l st
    = (Ok tt, emit (EAcquire l) (with_self (set_locked l true (self st)) st)).
Proof.
  unfold Lock_acquire, bind, lookup_lock.
  destruct l; cbn; intros Hl; [injection Hl as ->|rewrite Hl]; done.
Qed.

Lemma Lock_release_held l st :
  lock_state l (self st) = Some true ->
  Lock_release l st
    = (Ok tt, emit (ERelease l) (with_self (set_locked l false (self st)) st)).
Proof.
  unfold Lock_release, bind, lookup_lock.
  destruct l; cbn; intros Hl; [injection Hl as ->|rewrite Hl]; done.
Qed.

(** A registered session id on an idle registry: both locks are taken,
    the loop runs, both locks are given back, and the registry is as it
    was. *)
Lemma safe_execute_run fuel session_id action st c :
  idle (self st) ->
  db (self st) !! session_id = Some c ->
  10 <= fuel ->
  ∃ tr r w n,
    safe_execute fuel session_id action st
      = (r, advance w n
              ([EAcquire MasterLock; EAcquire (SessionLock session_id)]
                 ++ tr
                 ++ [ERelease (SessionLock session_id); ERelease MasterLock]) st)
    ∧ loop_run action c 0 (next_cursor st) (world st) tr r w n.
Proof.
  intros [Hmaster Hlocks] Hc Hfuel.
  pose proof (Hlocks session_id (mk_is_Some _ _ Hc)) as Hlock.
  set (st1 := emit (EAcquire MasterLock)
                (with_self (set_locked MasterLock true (self st)) st)).
  set (st2 := emit (EAcquire (SessionLock session_id))
                (with_self (set_locked (SessionLock session_id) true (self st1))
                   st1)).
  destruct (safe_execute_loop_run fuel session_id action 0 st2 c)
    as (tr & r & w & n & Hrun & Hspec); [done|lia|lia|].
  exists tr, r, w, n. split; [|exact Hspec].
  unfold safe_execute, bind at 1, contains_db. rewrite Hc.
  rewrite bool_decide_eq_true_2 by eauto. cbn [negb].
  unfold bind at 1. rewrite Lock_acquire_free by (by cbn; f_equal).
  unfold bind at 1. fold st1. rewrite Lock_acquire_free by done. fold st2.
  unfold try_finally. rewrite Hrun.
  unfold bind. rewrite Lock_release_held by (cbn; apply lookup_insert_eq).
  rewrite Lock_release_held by done.
  pose proof (loop_run_comes_back _ _ _ _ _ _ _ _ _ Hspec) as Hback.
  assert (emit (ERelease MasterLock)
            (with_self
               (set_locked MasterLock false
                  (self (emit (ERelease (SessionLock session_id))
                           (with_self
                              (set_locked (SessionLock session_id) false
                                 (self (advance w n tr st2)))
                              (advance w n tr st2)))))
               (emit (ERelease (SessionLock session_id))
                  (with_self
                     (set_locked (SessionLock session_id) false
                        (self (advance w n tr st2)))
                     (advance w n tr st2))))
          = advance w n
              ([EAcquire MasterLock; EAcquire (SessionLock session_id)]
                 ++ tr
                 ++ [ERelease (SessionLock session_id); ERelease MasterLock]) st)
    as Hfinal.
  { unfold st2, st1, advance, emit, with_self; cbn.
    rewrite <- !app_assoc; cbn. f_equal.
    destruct (self st) as [ml d sl]; cbn in *; subst ml.
    f_equal. rewrite insert_insert_eq. by apply insert_id. }
  destruct r as [v|e|h]; [| |by destruct (Hback h)]; by rewrite Hfinal.
Qed.

(** On an idle registry and with enough fuel, [safe_execute] gives the
    registry back as it found it. *)
Lemma safe_execute_self fuel session_id action st :
  idle (self st) -> 10 <= fuel ->
  self (safe_execute fuel session_id action st).2 = self st.
Proof.
  intros Hidle Hfuel. destruct (db (self st) !! session_id) as [c|] eqn:Hc.
  - by destruct (safe_execute_run fuel session_id action st c Hidle Hc Hfuel)
      as (tr & r & w & n & -> & _).
  - by rewrite safe_execute_unknown.
Qed.

End Attempts.

(** ** Retrying *)

Section Retry.

Context {conn World V : Type}.
Implicit Types (st : machine conn World) (action : action_t conn World V).

Lemma schedule_app tr1 tr2 : schedule (tr1 ++ tr2) = schedule tr1 ++ schedule tr2.
Proof. apply omap_app. Qed.

Lemma sleeps_app tr1 tr2 : sleeps (tr1 ++ tr2) = sleeps tr1 ++ sleeps tr2.
Proof. apply omap_app. Qed.

Lemma calls_app tr1 tr2 : calls (tr1 ++ tr2) = calls tr1 ++ calls tr2.
Proof. apply omap_app. Qed.

Lemma created_app tr1 tr2 : created (tr1 ++ tr2) = created tr1 ++ created tr2.
Proof. apply omap_app. Qed.

(** What a failed attempt that is going to be retried leaves in the log. *)
Lemma attempt_events_busy failures k e :
  is_operational e = true ->
  attempt_events failures k (Some e)
    = [ECursor k; EAction k (Some e); EPrint (retry_notice (3 * failures));
       ESleep (3 * failures); EClose k].
Proof. intros He. unfold attempt_events. by rewrite He. Qed.

Lemma attempt_events_quiet failures k o :
  (∀ e, o = Some e -> is_operational e = false) ->
  attempt_events failures k o = [ECursor k; EAction k o; EClose k].
Proof.
  intros Ho. unfold attempt_events. destruct o as [e|]; [|done].
  by rewrite (Ho e eq_refl).
Qed.

(** An action that is always busy drives the loop to its tenth failure. *)
Lemma loop_run_always_busy action c failures k w tr (r : result V) w' n :
  loop_run action c failures k w tr r w' n ->
  always_busy action ->
  failures < 10 ->
  r = Err retry_exhausted
  ∧ schedule tr
      = flat_map (fun i => [Attempt; Sleep (3 * i)]) (seq (failures + 1) (10 - failures))
  ∧ calls tr = seq k (10 - failures)
  ∧ sleeps tr = map (Nat.mul 3) (seq (failures + 1) (10 - failures)).
Proof.
  intros Hrun Hbusy.
  induction Hrun as [f k w v w' Hact|f k w e w' Hact He|f k w e w' Hact He Hten
                    |f k w e w' tr r w'' n Hact He Hten Hrun IH]; intros Hlt.
  - destruct (Hbusy c k w) as (e' & w'' & Hact' & _). congruence.
  - destruct (Hbusy c k w) as (e' & w'' & Hact' & He'). congruence.
  - assert (f = 9) as -> by lia. rewrite attempt_events_busy by done. done.
  - destruct IH as (-> & Hsched & Hcalls & Hsleeps); [lia|].
    rewrite schedule_app, calls_app, sleeps_app, Hsched, Hcalls, Hsleeps.
    rewrite attempt_events_busy by done.
    replace (10 - f) with (S (10 - (f + 1))) by lia.
    replace (f + 1 + 1) with (S (f + 1)) by lia.
    done.
Qed.

(** C1. An action that raises the transient error on every invocation is
    invoked exactly ten times (never an eleventh), each invocation is
    followed by a sleep of 3, 6, ..., 30 seconds, and the call then fails
    with the retries-exhausted error. *)
Theorem safe_execute_always_busy fuel session_id action st c :
  idle (self st) ->
  db (self st) !! session_id = Some c ->
  10 <= fuel ->
  always_busy action ->
  (safe_execute fuel session_id action st).1 = Err retry_exhausted
  ∧ length (calls (emitted st (safe_execute fuel session_id action st).2)) = 10
  ∧ sleeps (emitted st (safe_execute fuel session_id action st).2)
      = [3; 6; 9; 12; 15; 18; 21; 24; 27; 30]
  ∧ schedule (emitted st (safe_execute fuel session_id action st).2)
      = [Attempt; Sleep 3; Attempt; Sleep 6; Attempt; Sleep 9; Attempt; Sleep 12;
         Attempt; Sleep 15; Attempt; Sleep 18; Attempt; Sleep 21; Attempt; Sleep 24;
         Attempt; Sleep 27; Attempt; Sleep 30].
Proof.
  intros Hidle Hc Hfuel Hbusy.
  destruct (safe_execute_run fuel session_id action st c Hidle Hc Hfuel)
    as (tr & r & w & n & -> & Hrun).
  destruct (loop_run_always_busy _ _ _ _ _ _ _ _ _ Hrun Hbusy)
    as (-> & Hsched & Hcalls & Hsleeps); [lia|].
  cbn [fst snd]. rewrite emitted_advance.
  rewrite !calls_app, !sleeps_app, !schedule_app, Hsched, Hcalls, Hsleeps.
  done.
Qed.

End Retry.

(** ** Loading connections *)

Section Load.

Context {conn World : Type}.
Implicit Types (st : machine conn World) (connection : conn).

Lemma with_drawn_same st : with_drawn (drawn st) st = st.
Proof. by destruct st. Qed.

Lemma load_loop_unfold fuel o st :
  load_loop fuel o st =
    let draw : M conn World token :=
      match fuel with
      | 0 => hang OutOfFuel
      | S fuel' => bind (urandom 16) (fun t => load_loop fuel' (Some t))
      end in
    match o with
    | Some (b :: t) =>
        if bool_decide (is_Some (db (self st) !! (b :: t))) then draw st
        else (Ok (b :: t), st)
    | _ => draw st
    end.
Proof.
  destruct fuel, o as [[|b t]|]; try reflexivity;
    cbn [load_loop]; unfold bind at 1, contains_db; by case_bool_decide.
Qed.

Lemma load_loop_spec fuel o st : load_loop_post st (load_loop fuel o st).
Proof.
  revert o st. induction fuel as [|fuel IH]; intros o st;
    rewrite load_loop_unfold; cbn zeta.
  - assert (load_loop_post st (hang OutOfFuel st)) as Hdraw.
    { exists (drawn st). by rewrite with_drawn_same. }
    destruct o as [[|b t]|]; try exact Hdraw.
    case_bool_decide as Hin; [exact Hdraw|].
    exists (drawn st). rewrite with_drawn_same. cbn.
    repeat split; [lia|done|]. by apply eq_None_not_Some.
  - assert (load_loop_post st
              (bind (urandom 16) (fun t => load_loop fuel (Some t)) st)) as Hdraw.
    { unfold bind, urandom.
      match goal with |- context [load_loop fuel ?o' ?st'] =>
        destruct (IH o' st') as (d & Hd & Hst & Hres) end.
      cbn in Hd. exists d. split; [lia|]. rewrite Hst. split; [done|].
      exact Hres. }
    destruct o as [[|b t]|]; try exact Hdraw.
    case_bool_decide as Hin; [exact Hdraw|].
    exists (drawn st). rewrite with_drawn_same. cbn.
    repeat split; [lia|done|]. by apply eq_None_not_Some.
Qed.

(** All that [load] can do. *)
Lemma load_cases fuel connection st :
  (master_lock (self st) = true
     ∧ load fuel connection st = (Hang Deadlock, st))
  ∨ (master_lock (self st) = false
     ∧ ∃ d, drawn st <= d
         ∧ ((∃ t, t ≠ [] ∧ db (self st) !! t = None
                ∧ load fuel connection st = (Ok t, after_load t connection d st))
            ∨ load fuel connection st = (Hang OutOfFuel, inside_load d st))).
Proof.
  destruct (master_lock (self st)) eqn:Hmaster; [left|right]; split; try done.
  - unfold load, bind, Lock_acquire, bind, lookup_lock. by rewrite Hmaster.
  - set (st1 := emit (EAcquire MasterLock)
                  (with_self (set_locked MasterLock true (self st)) st)).
    destruct (load_loop_spec fuel None st1) as (d & Hd & Hst & Hres).
    exists d. split; [exact Hd|].
    assert (load fuel connection st
            = try_finally
                (bind (load_loop fuel None)
                   (fun t => bind (setitem_db t connection)
                      (fun _ => bind (setitem_session_lock t) (fun _ => ret t))))
                (Lock_release MasterLock) st1) as ->.
    { unfold load, bind at 1. by rewrite Lock_acquire_free by (by cbn; f_equal). }
    destruct (load_loop fuel None st1) as [[t|e|h] st2] eqn:Hloop;
      cbn in Hst, Hres.
    + left. exists t. destruct Hres as [Hne Hfresh]. repeat split; try done.
      unfold try_finally, bind at 1. rewrite Hloop.
      subst st2. unfold bind, setitem_db, setitem_session_lock, ret.
      rewrite Lock_release_held by done. f_equal. by machine_eq.
    + done.
    + right. unfold try_finally, bind at 1. rewrite Hloop.
      subst h st2. by machine_eq.
Qed.

(** [load] adds one entry under a key that was free, or leaves [self.db]
    alone. *)
Lemma load_db fuel connection st :
  match (load fuel connection st).1 with
  | Ok t =>
      db (self st) !! t = None
      ∧ db (self (load fuel connection st).2) = <[t := connection]> (db (self st))
  | _ => db (self (load fuel connection st).2) = db (self st)
  end.
Proof.
  destruct (load_cases fuel connection st)
    as [[_ ->]|[_ (d & _ & [(t & _ & Hfresh & ->)| ->])]]; done.
Qed.

Lemma idle_init : idle (AtomicSQL_init (conn := conn)).
Proof. split; [done|]. intros t [c Hc]. cbn in Hc. by rewrite lookup_empty in Hc. Qed.

(** A [load] that returns leaves an idle registry idle. *)
Lemma load_idle fuel connection st t :
  idle (self st) ->
  (load fuel connection st).1 = Ok t ->
  idle (self (load fuel connection st).2).
Proof.
  intros [Hmaster Hlocks].
  destruct (load_cases fuel connection st)
    as [[_ ->]|[_ (d & _ & [(t' & _ & Hfresh & ->)| ->])]]; try done.
  intros _. split; [done|]. cbn. intros t0.
  destruct (decide (t' = t0)) as [->|Hne].
  - intros _. apply lookup_insert_eq.
  - rewrite !lookup_insert_ne by done. apply Hlocks.
Qed.

(** The draw loop returns the first draw that is not a key of [self.db],
    provided the fuel reaches that far. *)
Lemma load_loop_returns j fuel o st :
  (∀ t, o = Some t -> t = [] ∨ is_Some (db (self st) !! t)) ->
  j < fuel ->
  (∀ i, i < j -> is_Some (db (self st) !! nth_draw st i)) ->
  db (self st) !! nth_draw st j = None ->
  (load_loop fuel o st).1 = Ok (nth_draw st j).
Proof.
  revert fuel o st. induction j as [|j IH]; intros fuel o st Ho Hfuel Hbusy Hfree;
    (destruct fuel as [|fuel]; [lia|]).
  - rewrite load_loop_unfold. cbn zeta.
    assert ((bind (urandom 16) (fun t => load_loop fuel (Some t)) st).1
            = Ok (nth_draw st 0)) as Hdraw.
    { unfold bind, urandom. rewrite load_loop_unfold.
      unfold nth_draw in *. rewrite Nat.mul_0_r, Nat.add_0_r in *.
      cbn [seq map] in *. cbn [self db]. by rewrite bool_decide_eq_false_2
        by (rewrite Hfree; by intros [? ?]). }
    destruct o as [[|b t]|]; try exact Hdraw.
    destruct (Ho _ eq_refl) as [?|Hin]; [done|].
    by rewrite bool_decide_eq_true_2.
  - rewrite load_loop_unfold. cbn zeta.
    assert ((bind (urandom 16) (fun t => load_loop fuel (Some t)) st).1
            = Ok (nth_draw st (S j))) as Hdraw.
    { unfold bind, urandom.
      match goal with |- (load_loop fuel ?o' ?st').1 = _ =>
        assert (∀ i, nth_draw st' i = nth_draw st (S i)) as Hshift
          by (intros i; unfold nth_draw; cbn [entropy drawn]; do 2 f_equal; lia);
        rewrite <- Hshift; apply IH
      end.
      - intros t [= <-]. right. specialize (Hbusy 0 ltac:(lia)).
        unfold nth_draw in Hbusy. by rewrite Nat.mul_0_r, Nat.add_0_r in Hbusy.
      - lia.
      - intros i Hi. rewrite Hshift. apply Hbusy. lia.
      - rewrite Hshift. exact Hfree. }
    destruct o as [[|b t]|]; try exact Hdraw.
    destruct (Ho _ eq_refl) as [?|Hin]; [done|].
    by rewrite bool_decide_eq_true_2.
Qed.

(** [load] returns: with the master lock free and a draw within reach of
    the fuel that is not in use, it returns the first such draw. *)
Lemma load_returns fuel connection st j :
  master_lock (self st) = false ->
  j < fuel ->
  (∀ i, i < j -> is_Some (db (self st) !! nth_draw st i)) ->
  db (self st) !! nth_draw st j = None ->
  (load fuel connection st).1 = Ok (nth_draw st j).
Proof.
  intros Hmaster Hfuel Hbusy Hfree.
  set (st1 := emit (EAcquire MasterLock)
                (with_self (set_locked MasterLock true (self st)) st)).
  pose proof (load_loop_returns j fuel None st1 ltac:(done) Hfuel Hbusy Hfree) as Hres.
  destruct (load_loop_spec fuel None st1) as (d & _ & Hst & _).
  assert (load fuel connection st
          = try_finally
              (bind (load_loop fuel None)
                 (fun t => bind (setitem_db t connection)
                    (fun _ => bind (setitem_session_lock t) (fun _ => ret t))))
              (Lock_release MasterLock) st1) as ->.
  { unfold load, bind at 1. by rewrite Lock_acquire_free by (by cbn; f_equal). }
  unfold try_finally, bind at 1.
  destruct (load_loop fuel None st1) as [[t'|e|h] st2]; cbn in Hres, Hst; try done.
  injection Hres as ->. subst st2.
  unfold bind, setitem_db, setitem_session_lock, ret.
  by rewrite Lock_release_held by done.
Qed.

End Load.

(** ** What never touches [self.db] *)

Section Frame.

Context {conn World : Type}.
Implicit Types (st : machine conn World).

Local Abbreviation keeps := (keeps_db (conn := conn) (World := World)).

Lemma keeps_db_ret {A} (a : A) : keeps (ret a).
Proof. done. Qed.

Lemma keeps_db_raise {A} e : keeps (raise (A := A) e).
Proof. done. Qed.

Lemma keeps_db_hang {A} h : keeps (hang (A := A) h).
Proof. done. Qed.

Lemma keeps_db_bind {A B} (m : M conn World A) (f : A -> M conn World B) :
  keeps m -> (∀ a, keeps (f a)) -> keeps (bind m f).
Proof.
  intros Hm Hf st. unfold bind. specialize (Hm st).
  destruct (m st) as [[a|e|h] st1]; cbn in *; try done.
  by rewrite Hf.
Qed.

Lemma keeps_db_try_finally {A} (body : M conn World A) fin :
  keeps body -> keeps fin -> keeps (try_finally body fin).
Proof.
  intros Hbody Hfin st. unfold try_finally. specialize (Hbody st).
  destruct (body st) as [[a|e|h] st1]; cbn in *; try done;
    specialize (Hfin st1); destruct (fin st1) as [[[]|e'|h'] st2];
    cbn in *; congruence.
Qed.

Lemma keeps_db_try_except {A} (body : M conn World A) catches handler :
  keeps body -> keeps handler -> keeps (try_except body catches handler).
Proof.
  intros Hbody Hhandler st. unfold try_except. specialize (Hbody st).
  destruct (body st) as [[a|e|h] st1]; cbn in *; try done.
  destruct (catches e); [|done]. by rewrite Hhandler.
Qed.

Lemma keeps_db_lookup_lock l : keeps (lookup_lock l).
Proof.
  intros st. unfold lookup_lock. destruct l as [|t]; [done|].
  by destruct (session_lock (self st) !! t).
Qed.

Lemma keeps_db_Lock_acquire l : keeps (Lock_acquire l).
Proof.
  apply keeps_db_bind; [apply keeps_db_lookup_lock|].
  intros [|]; [apply keeps_db_hang|]. intros st. by destruct l.
Qed.

Lemma keeps_db_Lock_release l : keeps (Lock_release l).
Proof.
  apply keeps_db_bind; [apply keeps_db_lookup_lock|].
  intros [|]; [|apply keeps_db_raise]. intros st. by destruct l.
Qed.

Lemma keeps_db_getitem_db t : keeps (getitem_db t).
Proof. intros st. unfold getitem_db. by destruct (db (self st) !! t). Qed.

Lemma keeps_db_call {V} (action : action_t conn World V) c k :
  keeps (call action c k).
Proof.
  intros st. unfold call. by destruct (action c k (world st)) as [[v|e] w].
Qed.

Lemma keeps_db_attempt {V} t (action : action_t conn World V) failures :
  keeps (attempt t action failures).
Proof.
  unfold attempt.
  repeat first
    [ apply keeps_db_getitem_db | apply keeps_db_call
    | apply keeps_db_try_finally | apply keeps_db_try_except
    | apply keeps_db_bind | done | intros ? ].
Qed.

Lemma keeps_db_safe_execute_loop {V} fuel t (action : action_t conn World V)
    failures :
  keeps (safe_execute_loop fuel t action failures).
Proof.
  revert failures. induction fuel as [|fuel IH]; intros failures; [done|].
  cbn [safe_execute_loop]. apply keeps_db_bind; [apply keeps_db_attempt|].
  intros [failures' [res|]]; [done|]. by case_bool_decide.
Qed.

(** [safe_execute] never writes to [self.db]. *)
Lemma keeps_db_safe_execute {V} fuel t (action : action_t conn World V) :
  keeps (safe_execute fuel t action).
Proof.
  unfold safe_execute. apply keeps_db_bind; [done|].
  intros [|]; cbn [negb]; [|done].
  repeat first
    [ apply keeps_db_Lock_acquire | apply keeps_db_Lock_release
    | apply keeps_db_safe_execute_loop | apply keeps_db_try_finally
    | apply keeps_db_bind | intros ? ].
Qed.

(** Nor does [commit]. *)
Lemma keeps_db_commit {R} (conn_commit : conn -> World -> outcome R * World)
    fuel t :
  keeps (commit conn_commit fuel t).
Proof.
  unfold commit. apply keeps_db_bind; [apply keeps_db_safe_execute|done].
Qed.

End Frame.

(** ** Histories of calls *)

Section History.

Context {conn World V R : Type}.
Context (conn_commit : conn -> World -> outcome R * World).
Implicit Types (st : machine conn World).
Implicit Types (call : api_call (conn := conn) (World := World) (V := V)).
Implicit Types (history : list (api_call (conn := conn) (World := World) (V := V))).

(** One call: either a [load] that returned a fresh key and bound it, or
    [self.db] is what it was. *)
Lemma do_call_db fuel call st :
  match (do_call conn_commit fuel call st).1 with
  | FromLoad (Ok t) =>
      ∃ connection, call = CallLoad connection
        ∧ db (self st) !! t = None
        ∧ db (self (do_call conn_commit fuel call st).2)
            = <[t := connection]> (db (self st))
  | _ => db (self (do_call conn_commit fuel call st).2) = db (self st)
  end.
Proof.
  destruct call as [connection|session_id action|session_id]; unfold do_call.
  - pose proof (load_db fuel connection st) as Hload.
    destruct (load fuel connection st) as [[t|e|h] st']; cbn in *; try done.
    destruct Hload. eauto.
  - pose proof (keeps_db_safe_execute fuel session_id action st) as Hkeep.
    by destruct (safe_execute fuel session_id action st) as [[v|e|h] st'].
  - pose proof (keeps_db_commit conn_commit fuel session_id st) as Hkeep.
    by destruct (commit conn_commit fuel session_id st) as [[v|e|h] st'].
Qed.

(** No call removes or rebinds an entry. *)
Lemma do_call_keeps_entries fuel call st t c :
  db (self st) !! t = Some c ->
  db (self (do_call conn_commit fuel call st).2) !! t = Some c.
Proof.
  intros Hc. pose proof (do_call_db fuel call st) as Hdb.
  destruct (do_call conn_commit fuel call st) as [[[t'|e|h]|r|r] st']; cbn in *;
    try (by rewrite Hdb).
  destruct Hdb as (connection & _ & Hfresh & ->).
  rewrite lookup_insert_ne; [done|]. intros ->. congruence.
Qed.

Lemma do_calls_keeps_entries fuel history st t c :
  db (self st) !! t = Some c ->
  db (self (do_calls conn_commit fuel history st).2) !! t = Some c.
Proof.
  revert st. induction history as [|call history IH]; intros st Hc; [done|].
  cbn [do_calls].
  pose proof (do_call_keeps_entries fuel call st t c Hc) as Hstep.
  destruct (do_call conn_commit fuel call st) as [r st1]. cbn in Hstep.
  specialize (IH st1 Hstep).
  by destruct (do_calls conn_commit fuel history st1) as [rs st2].
Qed.

(** The keys of [self.db] after a history are the keys it started with
    and the session ids issued on the way, which are new and pairwise
    distinct. *)
Lemma do_calls_issued fuel history st :
  NoDup (issued (do_calls conn_commit fuel history st).1)
  ∧ (∀ t, t ∈ issued (do_calls conn_commit fuel history st).1 ->
          db (self st) !! t = None)
  ∧ (∀ t, is_Some (db (self (do_calls conn_commit fuel history st).2) !! t) ->
          is_Some (db (self st) !! t)
          ∨ t ∈ issued (do_calls conn_commit fuel history st).1).
Proof.
  revert st. induction history as [|call history IH]; intros st.
  { cbn. split; [constructor|]. split; [by intros t ?%elem_of_nil|]. eauto. }
  cbn [do_calls].
  pose proof (do_call_db fuel call st) as Hdb.
  destruct (do_call conn_commit fuel call st) as [r st1]. cbn [fst snd] in Hdb.
  destruct (IH st1) as (Hnodup & Hnew & Hkeys).
  destruct (do_calls conn_commit fuel history st1) as [rs st2]. cbn [fst snd] in *.
  destruct r as [[t'|e|h]|r|r]; cbn [issued omap] in *;
    try (rewrite Hdb in *; by eauto).
  destruct Hdb as (connection & _ & Hfresh & Hdb). rewrite Hdb in *.
  fold (issued rs). split; [|split].
  - constructor; [|done]. intros Hin. apply Hnew in Hin.
    by rewrite lookup_insert_eq in Hin.
  - intros t [->|Hin]%elem_of_cons; [done|].
    apply Hnew in Hin. destruct (decide (t' = t)) as [->|Hne].
    + by rewrite lookup_insert_eq in Hin.
    + by rewrite lookup_insert_ne in Hin.
  - intros t Hsome. destruct (Hkeys t Hsome) as [Hold|Hin].
    + destruct (decide (t' = t)) as [->|Hne].
      * right. apply elem_of_cons. by left.
      * left. by rewrite lookup_insert_ne in Hold.
    + right. apply elem_of_cons. by right.
Qed.

(** Calls that come back leave an idle registry idle. *)
Lemma do_call_idle fuel call st :
  10 <= fuel ->
  idle (self st) ->
  (∀ h, (do_call conn_commit fuel call st).1 ≠ FromLoad (Hang h)) ->
  idle (self (do_call conn_commit fuel call st).2).
Proof.
  intros Hfuel Hidle Hback.
  destruct call as [connection|session_id action|session_id]; unfold do_call in *.
  - pose proof (load_idle fuel connection st) as Hload.
    destruct (load_cases fuel connection st)
      as [[_ Heq]|[_ (d & _ & [(t & _ & _ & Heq)|Heq])]];
      rewrite Heq in *; cbn in *; [by destruct (Hback Deadlock)| |by destruct (Hback OutOfFuel)].
    by eapply Hload.
  - pose proof (safe_execute_self fuel session_id action st Hidle Hfuel) as Hself.
    destruct (safe_execute fuel session_id action st) as [r st']. cbn in *.
    by rewrite Hself.
  - pose proof (safe_execute_self fuel session_id
                  (fun db _ => conn_commit db) st Hidle Hfuel) as Hself.
    unfold commit, bind.
    destruct (safe_execute fuel session_id _ st) as [[r|e|h] st']; cbn in *;
      by rewrite Hself.
Qed.

Lemma do_calls_idle fuel history st :
  10 <= fuel ->
  idle (self st) ->
  (∀ h, FromLoad (Hang h) ∉ (do_calls conn_commit fuel history st).1) ->
  idle (self (do_calls conn_commit fuel history st).2).
Proof.
  intros Hfuel. revert st. induction history as [|call history IH];
    intros st Hidle Hback; [done|].
  cbn [do_calls] in *.
  pose proof (do_call_idle fuel call st Hfuel Hidle) as Hstep.
  destruct (do_call conn_commit fuel call st) as [r st1]. cbn [fst snd] in Hstep.
  specialize (IH st1).
  destruct (do_calls conn_commit fuel history st1) as [rs st2]. cbn [fst snd] in *.
  apply IH.
  - apply Hstep. intros h ->. apply (Hback h). by left.
  - intros h Hin. apply (Hback h). by right.
Qed.

(** C5. The session ids returned by the [load] calls of any history of
    calls on one registry are pairwise distinct. *)
Theorem load_tokens_distinct fuel history st :
  NoDup (issued (do_calls conn_commit fuel history st).1).
Proof. apply do_calls_issued. Qed.

(** C4. A session id that no [load] of this registry has returned makes
    [safe_execute] raise the invalid-session error at once: the action is
    not invoked, no cursor is created, nothing is logged, and the machine
    (registry included) is left exactly as it was. *)
Theorem safe_execute_unknown_session fuel history st0 fuel' session_id
    (action : action_t conn World V) :
  self st0 = AtomicSQL_init ->
  session_id ∉ issued (do_calls conn_commit fuel history st0).1 ->
  safe_execute fuel' session_id action (do_calls conn_commit fuel history st0).2
    = (Err (invalid_session session_id), (do_calls conn_commit fuel history st0).2).
Proof.
  intros Hinit Hnew. apply safe_execute_unknown.
  apply eq_None_not_Some. intros Hsome.
  destruct (do_calls_issued fuel history st0) as (_ & _ & Hkeys).
  destruct (Hkeys session_id Hsome) as [[c Hc]|Hin]; [|done].
  rewrite Hinit in Hc. cbn in Hc. by rewrite lookup_empty in Hc.
Qed.

(** C8. Once [load] has returned a session id for a connection, the id
    resolves to that connection after every later call of [load],
    [safe_execute] or [commit], whatever the call's result. *)
Theorem issued_token_is_stable fuel connection st t fuel' call history :
  (load fuel connection st).1 = Ok t ->
  db (self (load fuel connection st).2) !! t = Some connection
  ∧ db (self (do_call conn_commit fuel' call (load fuel connection st).2).2) !! t
      = Some connection
  ∧ db (self (do_calls conn_commit fuel' history (load fuel connection st).2).2) !! t
      = Some connection.
Proof.
  intros Hload. pose proof (load_db fuel connection st) as Hdb.
  rewrite Hload in Hdb. destruct Hdb as [_ Hdb].
  assert (db (self (load fuel connection st).2) !! t = Some connection) as Hc.
  { rewrite Hdb. apply lookup_insert_eq. }
  split; [done|]. split.
  - by apply do_call_keeps_entries.
  - by apply do_calls_keeps_entries.
Qed.

End History.

(** ** One outcome at a time *)

Section Outcomes.

Context {conn World V : Type}.
Implicit Types (st : machine conn World) (action : action_t conn World V).

(** The loop is driven by what the action does with the next cursor. *)
Lemma loop_run_inv action c failures k w tr (r : result V) w' n :
  loop_run action c failures k w tr r w' n ->
  match action c k w with
  | (Returns v, w1) =>
      tr = attempt_events failures k None ∧ r = Ok v ∧ w' = w1 ∧ n = S k
  | (Raises e, w1) =>
      if is_operational e
      then if decide (failures + 1 = 10)
           then tr = attempt_events (failures + 1) k (Some e)
                ∧ r = Err retry_exhausted ∧ w' = w1 ∧ n = S k
           else ∃ tr', tr = attempt_events (failures + 1) k (Some e) ++ tr'
                  ∧ loop_run action c (failures + 1) (S k) w1 tr' r w' n
      else tr = attempt_events failures k (Some e) ∧ r = Err e ∧ w' = w1 ∧ n = S k
  end.
Proof.
  destruct 1 as [f k w v w' Hact|f k w e w' Hact He|f k w e w' Hact He Hten
                |f k w e w' tr r w'' n Hact He Hten Hrun]; rewrite Hact.
  - done.
  - by rewrite He.
  - rewrite He. by case_decide.
  - rewrite He. case_decide; [done|]. eauto.
Qed.

(** C2. An action that raises the transient error on its first two
    invocations and returns [v] on the third: [safe_execute] returns [v]
    after exactly three invocations, having slept 3 and then 6 seconds. *)
Theorem safe_execute_busy_twice fuel session_id action st c e1 w1 e2 w2 v w3 :
  idle (self st) ->
  db (self st) !! session_id = Some c ->
  10 <= fuel ->
  action c (next_cursor st) (world st) = (Raises e1, w1) ->
  is_operational e1 = true ->
  action c (S (next_cursor st)) w1 = (Raises e2, w2) ->
  is_operational e2 = true ->
  action c (S (S (next_cursor st))) w2 = (Returns v, w3) ->
  (safe_execute fuel session_id action st).1 = Ok v
  ∧ length (calls (emitted st (safe_execute fuel session_id action st).2)) = 3
  ∧ sleeps (emitted st (safe_execute fuel session_id action st).2) = [3; 6]
  ∧ emitted st (safe_execute fuel session_id action st).2
      = [EAcquire MasterLock; EAcquire (SessionLock session_id);
         ECursor (next_cursor st); EAction (next_cursor st) (Some e1);
         EPrint (retry_notice 3); ESleep 3; EClose (next_cursor st);
         ECursor (S (next_cursor st)); EAction (S (next_cursor st)) (Some e2);
         EPrint (retry_notice 6); ESleep 6; EClose (S (next_cursor st));
         ECursor (S (S (next_cursor st))); EAction (S (S (next_cursor st))) None;
         EClose (S (S (next_cursor st)));
         ERelease (SessionLock session_id); ERelease MasterLock].
Proof.
  intros Hidle Hc Hfuel Hact1 He1 Hact2 He2 Hact3.
  destruct (safe_execute_run fuel session_id action st c Hidle Hc Hfuel)
    as (tr & r & w & n & -> & Hrun).
  apply loop_run_inv in Hrun. rewrite Hact1, He1 in Hrun.
  destruct Hrun as (tr1 & -> & Hrun).
  apply loop_run_inv in Hrun. rewrite Hact2, He2 in Hrun.
  destruct Hrun as (tr2 & -> & Hrun).
  apply loop_run_inv in Hrun. rewrite Hact3 in Hrun.
  destruct Hrun as (-> & -> & -> & ->).
  cbn [fst snd]. rewrite emitted_advance.
  rewrite !attempt_events_busy by done. done.
Qed.

Lemma retried_nil e : ¬ retried [] e.
Proof. intros (l1 & k & l2 & k' & o & Heq & _). by destruct l1. Qed.

Lemma retried_cons ev tr e :
  retried (ev :: tr) e ->
  (∃ k k' o, ev = EAction k (Some e) ∧ EAction k' o ∈ tr) ∨ retried tr e.
Proof.
  intros (l1 & k & l2 & k' & o & Heq & Hin). destruct l1 as [|ev' l1].
  - injection Heq as -> ->. left. eauto.
  - injection Heq as -> ->. right. exists l1, k, l2, k', o. done.
Qed.

Lemma elem_of_calls k o tr : EAction k o ∈ tr -> k ∈ calls tr.
Proof.
  intros Hin. apply list_elem_of_omap. exists (EAction k o). done.
Qed.

(** Peel the events in front of a log off a [retried] hypothesis; the
    cases where no later invocation exists are closed on the way. *)
Ltac peel_retried H :=
  repeat (apply retried_cons in H as [(? & ? & ? & ? & H)|H];
          [try done; apply elem_of_calls in H; cbn in H;
           try (by apply elem_of_nil in H)|]);
  try (by apply retried_nil in H).

(** Within the loop, an exception is followed by another invocation only if
    it is a transient error. *)
Lemma loop_run_retried action c failures k w tr (r : result V) w' n e :
  loop_run action c failures k w tr r w' n ->
  retried tr e -> is_operational e = true.
Proof.
  induction 1 as [f k w v w' Hact|f k w e0 w' Hact He|f k w e0 w' Hact He Hten
                 |f k w e0 w' tr r w'' n Hact He Hten Hrun IH]; intros Hre.
  - rewrite attempt_events_quiet in Hre by done. peel_retried Hre.
  - rewrite attempt_events_quiet in Hre by (by intros ? [= <-]).
    peel_retried Hre.
  - rewrite attempt_events_busy in Hre by done. peel_retried Hre.
  - rewrite attempt_events_busy in Hre by done. cbn in Hre.
    apply retried_cons in Hre as [(? & ? & ? & ? & _)|Hre]; [done|].
    apply retried_cons in Hre as [(? & ? & ? & [= _ <-] & _)|Hre]; [done|].
    apply retried_cons in Hre as [(? & ? & ? & ? & _)|Hre]; [done|].
    apply retried_cons in Hre as [(? & ? & ? & ? & _)|Hre]; [done|].
    apply retried_cons in Hre as [(? & ? & ? & ? & _)|Hre]; [done|].
    by apply IH.
Qed.

Lemma retried_here k e k' o tr : EAction k' o ∈ tr -> retried (EAction k (Some e) :: tr) e.
Proof.
  intros Hin. exists [], k, tr, k', o. done.
Qed.

Lemma retried_later ev tr e : retried tr e -> retried (ev :: tr) e.
Proof.
  intros (l1 & k & l2 & k' & o & -> & Hin). exists (ev :: l1), k, l2, k', o. done.
Qed.

(** Events after the last invocation do not make anything retried. *)
Lemma retried_app_quiet tr post e :
  calls post = [] -> retried (tr ++ post) e -> retried tr e.
Proof.
  intros Hquiet. induction tr as [|ev tr IH]; cbn [app]; intros Hre.
  - destruct Hre as (l1 & k & l2 & k' & o & Heq & _).
    assert (k ∈ calls post) as Hin.
    { apply (elem_of_calls k (Some e)). rewrite Heq.
      apply elem_of_app. right. apply elem_of_cons. by left. }
    rewrite Hquiet in Hin. by apply elem_of_nil in Hin.
  - apply retried_cons in Hre as [(k & k' & o & -> & Hin)|Hre].
    + apply elem_of_app in Hin as [Hin|Hin]; [by eapply retried_here|].
      apply elem_of_calls in Hin. rewrite Hquiet in Hin.
      by apply elem_of_nil in Hin.
    + apply retried_later. by apply IH.
Qed.

(** C3. An error of the action that is not the transient one leaves
    [safe_execute] as it is, after a single invocation, without print or
    sleep, and after the cursor has been closed (and both locks released);
    and whatever the action does, the only exceptions followed by another
    invocation are transient errors. *)
Theorem safe_execute_other_error fuel session_id action st c :
  idle (self st) ->
  db (self st) !! session_id = Some c ->
  10 <= fuel ->
  (∀ e w1,
      action c (next_cursor st) (world st) = (Raises e, w1) ->
      is_operational e = false ->
      safe_execute fuel session_id action st
        = (Err e,
           advance w1 (S (next_cursor st))
             [EAcquire MasterLock; EAcquire (SessionLock session_id);
              ECursor (next_cursor st); EAction (next_cursor st) (Some e);
              EClose (next_cursor st);
              ERelease (SessionLock session_id); ERelease MasterLock] st))
  ∧ (∀ e, retried (emitted st (safe_execute fuel session_id action st).2) e ->
          is_operational e = true).
Proof.
  intros Hidle Hc Hfuel.
  destruct (safe_execute_run fuel session_id action st c Hidle Hc Hfuel)
    as (tr & r & w & n & -> & Hrun).
  split.
  - intros e w1 Hact He. apply loop_run_inv in Hrun. rewrite Hact, He in Hrun.
    destruct Hrun as (-> & -> & -> & ->).
    by rewrite attempt_events_quiet by (by intros ? [= <-]).
  - intros e Hre. cbn [snd] in Hre. rewrite emitted_advance in Hre.
    cbn [app] in Hre.
    apply retried_cons in Hre as [(? & ? & ? & ? & _)|Hre]; [done|].
    apply retried_cons in Hre as [(? & ? & ? & ? & _)|Hre]; [done|].
    apply retried_app_quiet in Hre; [|done].
    by eapply loop_run_retried.
Qed.

(** C10. The invalid-session failure and the retries-exhausted failure of
    [safe_execute] are exceptions of one and the same class, [ValueError];
    they differ in their message only, so a handler that looks at the class
    alone treats them alike. *)
Theorem safe_execute_failures_share_type
    fuel session_id action st fuel' session_id' action' st' c :
  db (self st) !! session_id = None ->
  idle (self st') ->
  db (self st') !! session_id' = Some c ->
  10 <= fuel' ->
  always_busy action' ->
  ∃ e1 e2,
    (safe_execute fuel session_id action st).1 = Err e1
    ∧ (safe_execute fuel' session_id' action' st').1 = Err e2
    ∧ exn_type e1 = ValueError
    ∧ exn_type e2 = ValueError
    ∧ exn_msg e1 ≠ exn_msg e2
    ∧ ∀ (A : Type) (handler : exn_class -> A),
        handler (exn_type e1) = handler (exn_type e2).
Proof.
  intros Hnone Hidle Hc Hfuel Hbusy.
  exists (invalid_session session_id), retry_exhausted.
  split; [by rewrite safe_execute_unknown|]. split.
  - destruct (safe_execute_run fuel' session_id' action' st' c Hidle Hc Hfuel)
      as (tr & r & w & n & -> & Hrun).
    by destruct (loop_run_always_busy _ _ _ _ _ _ _ _ _ Hrun Hbusy)
      as (-> & _); [lia|].
  - repeat split; done.
Qed.

End Outcomes.

(** ** Cursors *)

Section Cursors.

Context {conn World V : Type}.
Implicit Types (st : machine conn World) (action : action_t conn World V).

Lemma live_from_app open tr1 tr2 :
  live_from open (tr1 ++ tr2) = live_from (live_from open tr1) tr2.
Proof. apply foldl_app. Qed.

Lemma one_at_a_time_prefix open tr p :
  one_at_a_time open tr -> p `prefix_of` tr -> length (live_from open p) <= 1.
Proof.
  revert open p. induction tr as [|e tr IH]; intros open p [Hopen Hrest] Hp.
  - apply prefix_nil_inv in Hp as ->. done.
  - destruct p as [|e' p]; [done|].
    pose proof (prefix_cons_inv_1 _ _ _ _ Hp) as ->.
    apply prefix_cons_inv_2 in Hp. cbn. by apply IH.
Qed.

Lemma one_at_a_time_app open tr1 tr2 :
  one_at_a_time open tr1 ->
  one_at_a_time (live_from open tr1) tr2 ->
  one_at_a_time open (tr1 ++ tr2).
Proof.
  revert open. induction tr1 as [|e tr1 IH]; intros open [Hopen H1] H2.
  - destruct tr2; cbn in *; tauto.
  - split; [done|]. by apply IH.
Qed.

(** One attempt opens its cursor and closes it again. *)
Lemma attempt_events_scoped failures k o :
  one_at_a_time [] (attempt_events failures k o)
  ∧ live_from [] (attempt_events failures k o) = []
  ∧ created (attempt_events failures k o) = [k]
  ∧ calls (attempt_events failures k o) = [k].
Proof.
  unfold attempt_events.
  destruct o as [e|]; [destruct (is_operational e)|]; cbn;
    rewrite decide_False by (by intros H; apply H); cbn; repeat split; lia.
Qed.

(** The loop uses the cursors [k], [k + 1], ..., one per invocation, one at a
    time, and leaves none open. *)
Lemma loop_run_cursors action c failures k w tr (r : result V) w' n :
  loop_run action c failures k w tr r w' n ->
  k < n
  ∧ one_at_a_time [] tr
  ∧ live_from [] tr = []
  ∧ created tr = seq k (n - k)
  ∧ calls tr = seq k (n - k).
Proof.
  induction 1 as [f k w v w' Hact|f k w e w' Hact He|f k w e w' Hact He Hten
                 |f k w e w' tr r w'' n Hact He Hten Hrun IH];
    try (replace (S k - k) with 1 by lia;
         match goal with |- context [attempt_events ?f' ?k' ?o'] =>
           destruct (attempt_events_scoped f' k' o') as (? & ? & ? & ?) end;
         split; [lia|done]).
  destruct IH as (Hlt & Hone & Hlive & Hcreated & Hcalls).
  destruct (attempt_events_scoped (f + 1) k (Some e)) as (Hone1 & Hlive1 & Hcr1 & Hca1).
  split; [lia|]. split; [|split; [|split]].
  - apply one_at_a_time_app; [done|]. by rewrite Hlive1.
  - by rewrite live_from_app, Hlive1.
  - rewrite created_app, Hcr1, Hcreated.
    replace (n - k) with (S (n - S k)) by lia. done.
  - rewrite calls_app, Hca1, Hcalls.
    replace (n - k) with (S (n - S k)) by lia. done.
Qed.

Lemma loop_run_no_locks action c failures k w tr (r : result V) w' n :
  loop_run action c failures k w tr r w' n -> lock_events tr = [].
Proof.
  induction 1 as [f k w v w' Hact|f k w e w' Hact He|f k w e w' Hact He Hten
                 |f k w e w' tr r w'' n Hact He Hten Hrun IH].
  - done.
  - rewrite attempt_events_quiet by (by intros ? [= <-]). done.
  - rewrite attempt_events_busy by done. done.
  - rewrite attempt_events_busy by done. unfold lock_events.
    rewrite filter_app. fold (lock_events tr). by rewrite IH.
Qed.

Lemma emitted_same st : emitted st st = [].
Proof. unfold emitted. by rewrite drop_all. Qed.

(** C6. However the action behaves, [safe_execute] comes back (it returns
    or raises), and in what it logged every cursor it created has been
    closed, at no point is more than one cursor open, and each invocation of
    the action got a cursor of its own, created just for it. *)
Theorem cursors_always_released fuel session_id action st :
  idle (self st) ->
  10 <= fuel ->
  (∀ h, (safe_execute fuel session_id action st).1 ≠ Hang h)
  ∧ live (emitted st (safe_execute fuel session_id action st).2) = []
  ∧ (∀ p, p `prefix_of` emitted st (safe_execute fuel session_id action st).2 ->
          length (live p) <= 1)
  ∧ created (emitted st (safe_execute fuel session_id action st).2)
      = calls (emitted st (safe_execute fuel session_id action st).2)
  ∧ NoDup (created (emitted st (safe_execute fuel session_id action st).2)).
Proof.
  intros Hidle Hfuel.
  destruct (db (self st) !! session_id) as [c|] eqn:Hc.
  - destruct (safe_execute_run fuel session_id action st c Hidle Hc Hfuel)
      as (tr & r & w & n & -> & Hrun).
    cbn [fst snd]. rewrite emitted_advance.
    destruct (loop_run_cursors _ _ _ _ _ _ _ _ _ Hrun)
      as (Hlt & Hone & Hlive & Hcreated & Hcalls).
    split; [by eapply loop_run_comes_back|].
    assert (one_at_a_time []
              ([EAcquire MasterLock; EAcquire (SessionLock session_id)] ++
               tr ++ [ERelease (SessionLock session_id); ERelease MasterLock]))
      as Hall.
    { apply one_at_a_time_app; [cbn; lia|].
      apply one_at_a_time_app; [done|]. change (live_from [] _) with (@nil nat).
      change (live_from (live_from [] []) tr) with (live_from [] tr).
      rewrite Hlive. cbn. lia. }
    split; [|split; [|split]].
    + unfold live. rewrite !live_from_app.
      change (live_from [] [_; _]) with (@nil nat). by rewrite Hlive.
    + intros p Hp. by eapply one_at_a_time_prefix.
    + rewrite !created_app, !calls_app, Hcreated, Hcalls. done.
    + rewrite !created_app, Hcreated. cbn. rewrite app_nil_r. apply NoDup_seq.
  - rewrite safe_execute_unknown by done. cbn [fst snd]. rewrite emitted_same.
    split; [done|]. split; [done|]. split; [|split; [done|constructor]].
    intros p Hp. apply prefix_nil_inv in Hp as ->. cbn. lia.
Qed.

End Cursors.

(** ** Committing *)

Section Commit.

Context {conn World R : Type}.
Context (op : conn -> World -> outcome R * World).
Implicit Types (st : machine conn (World * nat)).

(** C7. On a registered session, when the connection's commit operation
    raises no error, [commit] invokes it exactly once (the invocation
    counter goes up by one, and one action call is logged) and returns
    [True]; and whenever the wrapped [safe_execute] call returns, with
    whatever value, [commit] returns [True]. *)
Theorem commit_once fuel session_id st c w n :
  idle (self st) ->
  db (self st) !! session_id = Some c ->
  10 <= fuel ->
  world st = (w, n) ->
  (∀ r w1,
      op c w = (Returns r, w1) ->
      commit (counting op) fuel session_id st
        = (Ok true,
           advance (w1, S n) (S (next_cursor st))
             [EAcquire MasterLock; EAcquire (SessionLock session_id);
              ECursor (next_cursor st); EAction (next_cursor st) None;
              EClose (next_cursor st);
              ERelease (SessionLock session_id); ERelease MasterLock] st))
  ∧ (∀ v st',
        safe_execute fuel session_id (fun db _ => counting op db) st = (Ok v, st') ->
        commit (counting op) fuel session_id st = (Ok true, st')).
Proof.
  intros Hidle Hc Hfuel Hworld. split.
  - intros r w1 Hop. unfold commit, bind.
    destruct (safe_execute_run fuel session_id
                (fun db _ => counting op db) st c Hidle Hc Hfuel)
      as (tr & res & w' & n' & -> & Hrun).
    apply loop_run_inv in Hrun. unfold counting in Hrun.
    rewrite Hworld in Hrun. cbn [fst snd] in Hrun. rewrite Hop in Hrun.
    destruct Hrun as (-> & -> & -> & ->). done.
  - intros v st' Hrun. unfold commit, bind. by rewrite Hrun.
Qed.

End Commit.

(** ** Threads: a program run alone is the sequential method *)

Section RunAlone.

Context {conn World : Type}.
Implicit Types (st : machine conn World).

Lemma bind_ext {A B} (m m' : M conn World A) (f f' : A -> M conn World B) st :
  (∀ st, m st = m' st) -> (∀ a st, f a st = f' a st) ->
  bind m f st = bind m' f' st.
Proof.
  intros Hm Hf. unfold bind. rewrite Hm.
  destruct (m' st) as [[a|e|h] st']; [apply Hf|done|done].
Qed.

Lemma try_finally_ext {A} (body body' : M conn World A) fin fin' st :
  (∀ st, body st = body' st) -> (∀ st, fin st = fin' st) ->
  try_finally body fin st = try_finally body' fin' st.
Proof.
  intros Hbody Hfin. unfold try_finally. rewrite Hbody.
  destruct (body' st) as [[a|e|h] st']; by rewrite ?Hfin.
Qed.

Lemma try_except_ext {A} (body body' : M conn World A) catches handler handler' st :
  (∀ st, body st = body' st) -> (∀ st, handler st = handler' st) ->
  try_except body catches handler st = try_except body' catches handler' st.
Proof.
  intros Hbody Hhandler. unfold try_except. rewrite Hbody.
  destruct (body' st) as [[a|e|h] st']; try done.
  destruct (catches e); by rewrite ?Hhandler.
Qed.

Lemma run_atomic {X} (m : M conn World X) st :
  Threads.run (Threads.atomic m) st = m st.
Proof. cbn. by destruct (m st) as [[x|e|h] st']. Qed.

Lemma run_bind {A B} (p : Threads.prog conn World A)
    (f : A -> Threads.prog conn World B) st :
  Threads.run (Threads.bind p f) st
    = bind (Threads.run p) (fun a => Threads.run (f a)) st.
Proof.
  revert st. induction p as [[a|e|h]|X m k IH]; intros st; try done.
  cbn. unfold bind in *. destruct (m st) as [[x|e|h] st']; by rewrite ?IH.
Qed.

Lemma run_finish {A} (fin : Threads.prog conn World unit) (r : result A) st :
  (∀ h, r ≠ Hang h) ->
  Threads.run (Threads.finish fin r) st = try_finally (fun st => (r, st)) (Threads.run fin) st.
Proof.
  intros Hr. revert st. induction fin as [[[]|e|h]|X m k IH]; intros st.
  - unfold try_finally; cbn. by destruct r.
  - unfold try_finally; cbn. destruct r as [a|e'|h]; [done|done|by destruct (Hr h)].
  - unfold try_finally; cbn. destruct r as [a|e'|h']; [done|done|by destruct (Hr h')].
  - cbn. unfold try_finally in *. cbn in *.
    destruct (m st) as [[x|e|h] st']; cbn; rewrite ?IH;
      destruct r as [a|e'|h']; try done; by destruct (Hr h').
Qed.

Lemma run_try_finally {A} (body : Threads.prog conn World A) fin st :
  Threads.run (Threads.try_finally body fin) st
    = try_finally (Threads.run body) (Threads.run fin) st.
Proof.
  revert st. induction body as [[a|e|h]|X m k IH]; intros st.
  - cbn [Threads.try_finally]. by rewrite run_finish.
  - cbn [Threads.try_finally]. by rewrite run_finish.
  - done.
  - cbn. unfold try_finally in *. cbn.
    destruct (m st) as [[x|e|h] st']; by rewrite ?IH.
Qed.

Lemma run_try_except {A} (body : Threads.prog conn World A) catches handler st :
  Threads.run (Threads.try_except body catches handler) st
    = try_except (Threads.run body) catches (Threads.run handler) st.
Proof.
  revert st. induction body as [[a|e|h]|X m k IH]; intros st; try done.
  - unfold try_except; cbn. by destruct (catches e).
  - cbn. unfold try_except in *. cbn.
    destruct (m st) as [[x|e|h] st']; by rewrite ?IH.
Qed.

Lemma run_attempt {V} session_id (action : action_t conn World V) failures st :
  Threads.run (Threads.attempt session_id action failures) st
    = attempt session_id action failures st.
Proof.
  unfold Threads.attempt, attempt.
  rewrite run_bind. apply bind_ext.
  - intros st1. rewrite run_bind. apply bind_ext; intros; apply run_atomic.
  - intros k st1. rewrite run_try_finally. apply try_finally_ext.
    + intros st2. rewrite run_try_except. apply try_except_ext.
      * intros st3. rewrite run_bind. apply bind_ext; [intros; apply run_atomic|].
        intros c st4. rewrite run_bind. apply bind_ext; [intros; apply run_atomic|].
        done.
      * intros st3. rewrite run_bind. apply bind_ext; [intros; apply run_atomic|].
        intros _ st4. rewrite run_bind. apply bind_ext; [intros; apply run_atomic|].
        done.
    + intros; apply run_atomic.
Qed.

Lemma run_safe_execute_loop {V} fuel session_id (action : action_t conn World V)
    failures st :
  Threads.run (Threads.safe_execute_loop fuel session_id action failures) st
    = safe_execute_loop fuel session_id action failures st.
Proof.
  revert failures st. induction fuel as [|fuel IH]; intros failures st; [done|].
  cbn [Threads.safe_execute_loop safe_execute_loop].
  rewrite run_bind. apply bind_ext; [intros; apply run_attempt|].
  intros [failures' [res|]] st1; [done|]. by case_bool_decide.
Qed.

(** A thread that runs [safe_execute] with nobody else around does what the
    sequential method does. *)
Lemma run_safe_execute {V} fuel session_id (action : action_t conn World V) st :
  Threads.run (Threads.safe_execute fuel session_id action) st
    = safe_execute fuel session_id action st.
Proof.
  unfold Threads.safe_execute, safe_execute.
  rewrite run_bind. apply bind_ext; [intros; apply run_atomic|].
  intros [|] st1; cbn [negb]; [|done].
  rewrite run_bind. apply bind_ext; [intros; apply run_atomic|].
  intros _ st2. rewrite run_bind. apply bind_ext; [intros; apply run_atomic|].
  intros _ st3. rewrite run_try_finally. apply try_finally_ext.
  - intros; apply run_safe_execute_loop.
  - intros st4. rewrite run_bind. apply bind_ext; intros; apply run_atomic.
Qed.

End RunAlone.

(** ** Threads: [safe_execute] respects the master lock *)

Section Discipline.

Context {conn World : Type}.
Implicit Types (st : machine conn World).

Lemma emitted_emit st st1 e :
  log st1 = log st -> emitted st (emit e st1) = [e].
Proof. intros Hlog. unfold emitted, emit; cbn. by rewrite Hlog, drop_app_length. Qed.

Lemma not_master_session_acquire t : ¬ Threads.master_event (EAcquire (SessionLock t)).
Proof. by intros [?|?]. Qed.

Lemma not_master_session_release t : ¬ Threads.master_event (ERelease (SessionLock t)).
Proof. by intros [?|?]. Qed.

(** A step that logs nothing and keeps the registry. *)
Lemma calm_silent {X} (m : M conn World X) :
  (∀ st, (m st).2 = st) -> Threads.calm m.
Proof.
  intros Hm st. rewrite Hm. split; [done|]. rewrite emitted_same. constructor.
Qed.

(** A step that logs one event that is no master lock operation and keeps
    the master lock. *)
Lemma calm_one {X} (m : M conn World X) :
  (∀ st, ∃ e st1, (m st).2 = emit e st1 ∧ log st1 = log st
                  ∧ master_lock (self st1) = master_lock (self st)
                  ∧ ¬ Threads.master_event e) ->
  Threads.calm m.
Proof.
  intros Hm st. destruct (Hm st) as (e & st1 & -> & Hlog & Hlock & He).
  split; [done|]. rewrite emitted_emit by done. by repeat constructor.
Qed.

Lemma calm_getitem_db t : Threads.calm (getitem_db (conn := conn) (World := World) t).
Proof.
  apply calm_silent. intros st. unfold getitem_db.
  by destruct (db (self st) !! t).
Qed.

Lemma calm_conn_cursor (c : conn) : Threads.calm (conn_cursor (World := World) c).
Proof.
  apply calm_one. intros st. eexists _, _. split; [reflexivity|].
  repeat split; try done. by intros [?|?].
Qed.

Lemma calm_cursor_close k : Threads.calm (cursor_close (conn := conn) (World := World) k).
Proof.
  apply calm_one. intros st. eexists _, _. split; [reflexivity|].
  repeat split; try done. by intros [?|?].
Qed.

Lemma calm_print line : Threads.calm (print (conn := conn) (World := World) line).
Proof.
  apply calm_one. intros st. eexists _, _. split; [reflexivity|].
  repeat split; try done. by intros [?|?].
Qed.

Lemma calm_sleep n : Threads.calm (sleep (conn := conn) (World := World) n).
Proof.
  apply calm_one. intros st. eexists _, _. split; [reflexivity|].
  repeat split; try done. by intros [?|?].
Qed.

Lemma calm_call {V} (action : action_t conn World V) c k : Threads.calm (call action c k).
Proof.
  apply calm_one. intros st. unfold call.
  destruct (action c k (world st)) as [[v|e] w]; eexists _, _;
    (split; [reflexivity|]); repeat split; try done; by intros [?|?].
Qed.

Lemma calm_session_acquire t :
  Threads.calm (Lock_acquire (conn := conn) (World := World) (SessionLock t)).
Proof.
  intros st. unfold Lock_acquire, bind, lookup_lock.
  destruct (session_lock (self st) !! t) as [[|]|]; cbn [snd];
    try (split; [done|]; rewrite emitted_same; constructor).
  split; [done|]. rewrite emitted_emit by done.
  repeat constructor. apply not_master_session_acquire.
Qed.

Lemma calm_session_release t :
  Threads.calm (Lock_release (conn := conn) (World := World) (SessionLock t)).
Proof.
  intros st. unfold Lock_release, bind, lookup_lock.
  destruct (session_lock (self st) !! t) as [[|]|]; cbn [snd];
    try (split; [done|]; rewrite emitted_same; constructor).
  split; [done|]. rewrite emitted_emit by done.
  repeat constructor. apply not_master_session_release.
Qed.

Lemma inside_atomic {X} (m : M conn World X) :
  Threads.calm m -> Threads.inside (Threads.atomic m).
Proof. by split. Qed.

Lemma inside_bind {A B} (p : Threads.prog conn World A)
    (f : A -> Threads.prog conn World B) :
  Threads.inside p -> (∀ a, Threads.inside (f a)) ->
  Threads.inside (Threads.bind p f).
Proof.
  intros Hp Hf. induction p as [[a|e|h]|X m k IH]; cbn; try done.
  destruct Hp as [Hm Hk]. split; [done|]. intros r. by apply IH.
Qed.

Lemma inside_finish {A} (fin : Threads.prog conn World unit) (r : result A) :
  Threads.inside fin -> Threads.inside (Threads.finish fin r).
Proof.
  intros Hfin. induction fin as [[[]|e|h]|X m k IH]; cbn; try done.
  destruct Hfin as [Hm Hk]. split; [done|]. intros x. by apply IH.
Qed.

Lemma inside_try_finally {A} (body : Threads.prog conn World A) fin :
  Threads.inside body -> Threads.inside fin ->
  Threads.inside (Threads.try_finally body fin).
Proof.
  intros Hbody Hfin. induction body as [[a|e|h]|X m k IH];
    cbn [Threads.try_finally]; try (by apply inside_finish); try done.
  destruct Hbody as [Hm Hk]. split; [done|]. intros r. by apply IH.
Qed.

Lemma inside_try_except {A} (body : Threads.prog conn World A) catches handler :
  Threads.inside body -> Threads.inside handler ->
  Threads.inside (Threads.try_except body catches handler).
Proof.
  intros Hbody Hhandler. induction body as [[a|e|h]|X m k IH]; cbn; try done.
  - by destruct (catches e).
  - destruct Hbody as [Hm Hk]. split; [done|]. intros r. by apply IH.
Qed.

Lemma inside_attempt {V} t (action : action_t conn World V) failures :
  Threads.inside (Threads.attempt t action failures).
Proof.
  unfold Threads.attempt.
  repeat first
    [ apply calm_getitem_db | apply calm_conn_cursor
    | apply calm_cursor_close | apply calm_print | apply calm_sleep
    | apply calm_call | apply inside_try_finally | apply inside_try_except
    | apply inside_bind | apply inside_atomic | done | intros ? ].
Qed.

Lemma inside_safe_execute_loop {V} fuel t (action : action_t conn World V) failures :
  Threads.inside (Threads.safe_execute_loop fuel t action failures).
Proof.
  revert failures. induction fuel as [|fuel IH]; intros failures; [done|].
  cbn [Threads.safe_execute_loop]. apply inside_bind; [apply inside_attempt|].
  intros [failures' [res|]]; [done|]. by case_bool_decide.
Qed.

(** Under the lock, a body that leaves the lock alone followed by a
    [finally] block that is disciplined is disciplined. *)
Lemma disciplined_try_finally {A} (body : Threads.prog conn World A) fin :
  Threads.inside body ->
  (∀ r : result A, Threads.disciplined true (Threads.finish fin r)) ->
  Threads.disciplined true (Threads.try_finally body fin).
Proof.
  intros Hbody Hfin. induction body as [[a|e|h]|X m k IH];
    cbn [Threads.try_finally]; try apply Hfin; try done.
  destruct Hbody as [Hm Hk]. cbn. intros st r st' Hstep Hr.
  exists true. split; [|by apply IH].
  specialize (Hm st). by rewrite Hstep in Hm.
Qed.

(** The two releases of the [finally] block of [safe_execute]. *)
Lemma disciplined_releases {A} t (r : result A) :
  Threads.disciplined true
    (Threads.finish
       (Threads.bind
          (Threads.atomic (Lock_release (conn := conn) (World := World) (SessionLock t)))
          (fun _ => Threads.atomic (Lock_release MasterLock))) r).
Proof.
  cbn. intros st r1 st1 Hstep1 Hr1. exists true. split.
  { pose proof (calm_session_release t st) as Hcalm. by rewrite Hstep1 in Hcalm. }
  destruct r1 as [[]|e|h]; [|done|done].
  cbn. intros st2 r2 st3 Hstep2 Hr2.
  unfold Lock_release, bind, lookup_lock in Hstep2.
  destruct (master_lock (self st2)) eqn:Hmaster.
  - injection Hstep2 as <- <-. exists false. split; [|done].
    split; [done|]. by apply emitted_emit.
  - injection Hstep2 as <- <-. exists true. split; [|done].
    split; [done|]. rewrite emitted_same. constructor.
Qed.

(** [safe_execute] respects the master lock. *)
Lemma disciplined_safe_execute {V} fuel t (action : action_t conn World V) :
  Threads.disciplined false (Threads.safe_execute fuel t action).
Proof.
  unfold Threads.safe_execute. cbn.
  intros st r st' [= <- <-] _. exists false. split.
  { split; [done|]. apply emitted_same. }
  destruct (bool_decide (is_Some (db (self st) !! t))); cbn; [|done].
  intros st1 r1 st1' Hstep1 Hr1.
  unfold Lock_acquire, bind, lookup_lock in Hstep1.
  destruct (master_lock (self st1)) eqn:Hmaster.
  { injection Hstep1 as <- <-. by destruct (Hr1 Deadlock). }
  injection Hstep1 as <- <-. exists true. split.
  { split; [done|]. split; [done|]. by apply emitted_emit. }
  cbn. intros st2 r2 st2' Hstep2 Hr2. exists true. split.
  { pose proof (calm_session_acquire t st2) as Hcalm. by rewrite Hstep2 in Hcalm. }
  destruct r2 as [[]|e|h]; [|done|done].
  apply disciplined_try_finally; [apply inside_safe_execute_loop|].
  intros r. apply disciplined_releases.
Qed.

End Discipline.

(** ** Threads: mutual exclusion *)

Section Exclusion.

Context {conn World V : Type}.
Implicit Types (st : machine conn World) (pool : list (Threads.prog conn World V)).

Lemma owner_after_app owner ttr1 ttr2 :
  Threads.owner_after owner (ttr1 ++ ttr2)
    = Threads.owner_after (Threads.owner_after owner ttr1) ttr2.
Proof. apply foldl_app. Qed.

Lemma exclusive_app owner ttr1 ttr2 :
  Threads.exclusive owner ttr1 ->
  Threads.exclusive (Threads.owner_after owner ttr1) ttr2 ->
  Threads.exclusive owner (ttr1 ++ ttr2).
Proof.
  revert owner. induction ttr1 as [|[i e] ttr1 IH]; intros owner H1 H2; [done|].
  cbn in *.
  destruct e as [[|t]|[|t]|k|k o|line|n|k]; destruct H1 as [Hown H1];
    (split; [done|]); by apply IH.
Qed.

(** The events of the owner that are no master lock operations keep it the
    owner. *)
Lemma exclusive_calm i evs :
  Forall (fun e => ¬ Threads.master_event e) evs ->
  Threads.exclusive (Some i) (Threads.tagged i evs)
  ∧ Threads.owner_after (Some i) (Threads.tagged i evs) = Some i.
Proof.
  induction 1 as [|e evs He Hevs [IH1 IH2]]; [done|].
  unfold Threads.master_event in He. cbn.
  destruct e as [[|t]|[|t]|k|k o|line|n|k]; try (by split); exfalso; apply He; eauto.
Qed.

(** What a step of thread [i] that respects the master lock does to the
    tagged log and to the ownership of the lock. *)
Lemma lock_move_owner (held held' : bool) st st' owner i :
  Threads.lock_move held held' st st' ->
  held = bool_decide (owner = Some i) ->
  master_lock (self st) = bool_decide (is_Some owner) ->
  Threads.exclusive owner (Threads.tagged i (emitted st st'))
  ∧ master_lock (self st')
      = bool_decide (is_Some (Threads.owner_after owner (Threads.tagged i (emitted st st'))))
  ∧ held' = bool_decide (Threads.owner_after owner (Threads.tagged i (emitted st st')) = Some i)
  ∧ ∀ j, j ≠ i ->
      bool_decide (Threads.owner_after owner (Threads.tagged i (emitted st st')) = Some j)
        = bool_decide (owner = Some j).
Proof.
  intros Hmove Hheld Hmaster.
  destruct held, held'; cbn in Hmove.
  - destruct Hmove as [Hkeep Hevs].
    symmetry in Hheld. apply bool_decide_eq_true_1 in Hheld as ->.
    destruct (exclusive_calm i _ Hevs) as [Hex Hown].
    rewrite Hown, Hkeep, Hmaster. split; [done|]. split; [done|].
    split; [by rewrite bool_decide_eq_true_2|done].
  - destruct Hmove as [Hfree ->].
    symmetry in Hheld. apply bool_decide_eq_true_1 in Hheld as ->.
    cbn. split; [done|]. split; [done|]. split; [done|].
    intros j Hj. rewrite !bool_decide_eq_false_2; [done|congruence|done].
  - destruct Hmove as (Hfree & Htaken & ->).
    rewrite Hfree in Hmaster. symmetry in Hmaster.
    apply bool_decide_eq_false_1 in Hmaster.
    assert (owner = None) as -> by (destruct owner; [by destruct Hmaster|done]).
    cbn. split; [done|]. split; [by rewrite Htaken|].
    split; [by rewrite bool_decide_eq_true_2|].
    intros j Hj. rewrite !bool_decide_eq_false_2; [done|done|congruence].
  - destruct Hmove as [Hkeep ->]. cbn. by rewrite Hkeep.
Qed.

(** However the threads of a pool of disciplined programs are interleaved,
    the tagged log shows mutual exclusion. *)
Lemma exec_exclusive (c0 c : Threads.config conn World V) ttr :
  Threads.exec c0 ttr c ->
  master_lock (self c0.1) = false ->
  (∀ i p, c0.2 !! i = Some p -> Threads.disciplined false p) ->
  Threads.exclusive None ttr
  ∧ master_lock (self c.1) = bool_decide (is_Some (Threads.owner_after None ttr))
  ∧ ∀ i p, c.2 !! i = Some p ->
      Threads.disciplined (bool_decide (Threads.owner_after None ttr = Some i)) p.
Proof.
  intros Hexec Hfree Hpool.
  induction Hexec as [c|c ttr c1 i c2 Hexec IH Hstep]; [by eauto|].
  destruct (IH Hfree Hpool) as (Hex & Hmaster & Hthreads).
  destruct Hstep as [i st pool X m k r st' Hi Hm Hr]. cbn [fst snd] in *.
  pose proof (Hthreads i _ Hi) as Hdisc. cbn in Hdisc.
  destruct (Hdisc st r st' Hm Hr) as (held' & Hmove & Hnext).
  destruct (lock_move_owner _ _ _ _ _ i Hmove eq_refl Hmaster)
    as (Hex' & Hmaster' & Hheld' & Hothers).
  rewrite owner_after_app. split; [by apply exclusive_app|]. split; [done|].
  intros j p Hj. destruct (decide (j = i)) as [->|Hne].
  - rewrite list_lookup_insert_eq in Hj by (by eapply lookup_lt_Some).
    injection Hj as <-. by rewrite <- Hheld'.
  - rewrite list_lookup_insert_ne in Hj by done.
    rewrite Hothers by done. by apply Hthreads.
Qed.

(** The computed interleavings are executions. *)
Lemma interleave_exec order (c0 c c' : Threads.config conn World V) ttr ttr' :
  Threads.exec c0 ttr c ->
  Threads.interleave order ttr c = Some (ttr', c') ->
  Threads.exec c0 ttr' c'.
Proof.
  revert ttr c. induction order as [|i order IH]; intros ttr c Hexec Hrun.
  - injection Hrun as <- <-. done.
  - cbn [Threads.interleave] in Hrun. destruct c as [st pool]. cbn [fst snd] in Hrun.
    destruct (pool !! i) as [[r|X m k]|] eqn:Hi; try done.
    destruct (m st) as [r st'] eqn:Hm.
    assert (∀ h, r ≠ Hang h) as Hr by (intros h ->; done).
    assert (Threads.exec c0 (ttr ++ Threads.tagged i (emitted st st'))
              (st', <[i := k r]> pool)) as Hexec'.
    { apply (Threads.exec_step c0 ttr (st, pool) i (st', <[i := k r]> pool) Hexec).
      by eapply Threads.step_atomic. }
    destruct r as [x|e|h]; [by eapply IH|by eapply IH|done].
Qed.

(** In an exclusive log, what comes after an event of the owner [i] and
    before an event of another thread [j] contains a release of the master
    lock by [i] and an acquire by [j]. *)
Lemma exclusive_released i l j e' l3 :
  Threads.exclusive (Some i) (l ++ (j, e') :: l3) ->
  i ≠ j ->
  ¬ Threads.master_event e' ->
  (i, ERelease MasterLock) ∈ l.
Proof.
  intros Hex Hij He'. induction l as [|[i' e''] l IH]; cbn in Hex.
  - exfalso. unfold Threads.master_event in He'.
    destruct e' as [[|t]|[|t]|k|k o|line|n|k]; destruct Hex as [Hown _];
      first [congruence | apply He'; eauto].
  - destruct e'' as [[|t]|[|t]|k|k o|line|n|k]; destruct Hex as [Hown Hex];
      try (injection Hown as <-; apply elem_of_cons; right; by apply IH);
      try done.
    injection Hown as <-. apply elem_of_cons. by left.
Qed.

Lemma exclusive_acquired owner l j e' l3 :
  Threads.exclusive owner (l ++ (j, e') :: l3) ->
  owner ≠ Some j ->
  ¬ Threads.master_event e' ->
  (j, EAcquire MasterLock) ∈ l.
Proof.
  intros Hex Hown He'. revert owner Hex Hown.
  induction l as [|[i' e''] l IH]; intros owner Hex Hown; cbn in Hex.
  - exfalso. unfold Threads.master_event in He'.
    destruct e' as [[|t]|[|t]|k|k o|line|n|k]; destruct Hex as [Hown' _];
      first [congruence | apply He'; eauto].
  - destruct e'' as [[|t]|[|t]|k|k o|line|n|k]; destruct Hex as [Hown' Hex];
      try (apply elem_of_cons; right; by eapply IH).
    destruct (decide (i' = j)) as [->|Hne].
    + apply elem_of_cons. by left.
    + apply elem_of_cons. right. eapply IH; [done|congruence].
Qed.

Lemma exclusive_suffix owner l1 l2 :
  Threads.exclusive owner (l1 ++ l2) ->
  Threads.exclusive (Threads.owner_after owner l1) l2.
Proof.
  revert owner. induction l1 as [|[i e] l1 IH]; intros owner Hex; [done|].
  cbn in Hex. cbn.
  destruct e as [[|t]|[|t]|k|k o|line|n|k]; destruct Hex as [-> Hex];
    by apply IH.
Qed.

Lemma exclusive_handover owner l1 i e l2 j e' l3 :
  Threads.exclusive owner (l1 ++ (i, e) :: l2 ++ (j, e') :: l3) ->
  ¬ Threads.master_event e ->
  ¬ Threads.master_event e' ->
  i ≠ j ->
  (i, ERelease MasterLock) ∈ l2 ∧ (j, EAcquire MasterLock) ∈ l2.
Proof.
  intros Hex He He' Hij. apply exclusive_suffix in Hex. cbn in Hex.
  assert (Threads.exclusive (Some i) (l2 ++ (j, e') :: l3)) as Hrest.
  { unfold Threads.master_event in He.
    destruct e as [[|t]|[|t]|k|k o|line|n|k]; destruct Hex as [Hown Hex];
      first [by rewrite <- Hown | exfalso; apply He; eauto]. }
  split; [by eapply exclusive_released|].
  eapply exclusive_acquired; [done|congruence|done].
Qed.

(** A computed interleaving, read as an execution. *)
Lemma interleave_is_exec order (c0 : Threads.config conn World V) :
  is_Some (Threads.interleave order [] c0) ->
  Threads.exec c0
    (from_option fst [] (Threads.interleave order [] c0))
    (from_option snd c0 (Threads.interleave order [] c0)).
Proof.
  intros [[ttr c'] Hrun]. rewrite Hrun. cbn.
  eapply interleave_exec; [apply Threads.exec_start|done].
Qed.

Lemma spawn_disciplined (jobs : list (nat * token * action_t conn World V)) i p :
  Threads.spawn jobs !! i = Some p -> Threads.disciplined false p.
Proof.
  unfold Threads.spawn. rewrite list_lookup_fmap.
  destruct (jobs !! i) as [[[fuel t] action]|]; [|done].
  intros [= <-]. apply disciplined_safe_execute.
Qed.

(** C9. A call of [safe_execute] on a registered session comes back, and
    the lock operations it performed are, in this order: acquire the master
    lock, acquire the session lock, release the session lock, release the
    master lock, whether it returned or raised; all locks are free again
    afterwards.  And when any number of threads call [safe_execute]
    concurrently (each running, step by step, the program that run alone is
    the sequential method), every interleaving of their steps shows mutual
    exclusion: a thread takes the master lock only when nobody owns it, and
    every cursor, action call, sleep and session lock operation is performed
    by the one thread that owns the master lock; so between two action calls
    of different threads the first thread has released the master lock and
    the second has acquired it. *)
Theorem safe_execute_locking fuel session_id (action : action_t conn World V) st c
    (jobs : list (nat * token * action_t conn World V)) st0 ttr c' :
  idle (self st) ->
  db (self st) !! session_id = Some c ->
  10 <= fuel ->
  master_lock (self st0) = false ->
  Threads.exec (st0, Threads.spawn jobs) ttr c' ->
  (∀ h, (safe_execute fuel session_id action st).1 ≠ Hang h)
  ∧ lock_events (emitted st (safe_execute fuel session_id action st).2)
      = [EAcquire MasterLock; EAcquire (SessionLock session_id);
         ERelease (SessionLock session_id); ERelease MasterLock]
  ∧ self (safe_execute fuel session_id action st).2 = self st
  ∧ (∀ st1, Threads.run (Threads.safe_execute fuel session_id action) st1
              = safe_execute fuel session_id action st1)
  ∧ Threads.exclusive None ttr
  ∧ (∀ l1 i k o l2 j k' o' l3,
        ttr = l1 ++ (i, EAction k o) :: l2 ++ (j, EAction k' o') :: l3 ->
        i ≠ j ->
        (i, ERelease MasterLock) ∈ l2 ∧ (j, EAcquire MasterLock) ∈ l2).
Proof.
  intros Hidle Hc Hfuel Hfree Hexec.
  assert (Threads.exclusive None ttr) as Hex.
  { apply (exec_exclusive _ _ _ Hexec Hfree). apply spawn_disciplined. }
  destruct (safe_execute_run fuel session_id action st c Hidle Hc Hfuel)
    as (tr & r & w & n & -> & Hrun).
  cbn [fst snd]. rewrite emitted_advance.
  split; [by eapply loop_run_comes_back|].
  split; [|split; [done|split; [|split; [done|]]]].
  - unfold lock_events. rewrite !filter_app. fold (lock_events tr).
    by rewrite (loop_run_no_locks _ _ _ _ _ _ _ _ _ Hrun).
  - intros st1. apply run_safe_execute.
  - intros l1 i k o l2 j k' o' l3 -> Hij.
    eapply exclusive_handover; [exact Hex| | |done]; by intros [?|?].
Qed.

End Exclusion.

(** * The model at work *)

Example repr_bytes_sample :
  repr_bytes [x00; x41; x0a; xff; x5c] = "b'\x00A\n\xff\\'".
Proof. reflexivity. Qed.

Example invalid_session_message :
  exn_msg (invalid_session [x41; x42]) = "Session ID b'AB' is invalid.".
Proof. reflexivity. Qed.

(** The second [load] draws the bytes of the first session id again, sees
    that they are in use, and draws once more. *)
Example load_redraws :
  (load 2 "a.db" Demo.fresh).1 = Ok Demo.sid0
  ∧ drawn (load 2 "a.db" Demo.fresh).2 = 16
  ∧ (load 2 "b.db" (load 2 "a.db" Demo.fresh).2).1 = Ok Demo.sid1
  ∧ drawn (load 2 "b.db" (load 2 "a.db" Demo.fresh).2).2 = 48
  ∧ (load 1 "b.db" (load 2 "a.db" Demo.fresh).2).1 = Hang OutOfFuel.
Proof. by vm_compute. Qed.

Example history_results :
  issued (do_calls Demo.do_commit 10 Demo.history Demo.fresh).1
    = [Demo.sid0; Demo.sid1].
Proof. by vm_compute. Qed.

(** With too little fuel the model of the retry loop gives up where the
    program would go on; ten rounds are all the program ever makes. *)
Example nine_rounds_are_not_enough :
  (safe_execute 9 Demo.sid0 Demo.stubborn Demo.quiet).1 = Hang OutOfFuel.
Proof. by vm_compute. Qed.

(** A commit operation that raises the transient error is invoked again by
    the retry loop, like any action. *)
Example commit_retries_busy_commit :
  (commit (counting Demo.do_commit) 10 Demo.sid0 Demo.committing_busy).1 = Ok true
  ∧ world (commit (counting Demo.do_commit) 10 Demo.sid0 Demo.committing_busy).2
      = ([], 2)
  ∧ sleeps (emitted Demo.committing_busy
              (commit (counting Demo.do_commit) 10 Demo.sid0 Demo.committing_busy).2)
      = [3].
Proof. by vm_compute. Qed.

(** Two threads: the events of thread 0 come in one block, those of thread 1
    in another; a thread that asks for the master lock while it is held does
    not get to step. *)
Example interleaved_threads :
  map fst (from_option fst [] Demo.interleaved)
    = [0; 0; 0; 0; 0; 0; 0; 1; 1; 1; 1; 1; 1; 1]
  ∧ Demo.blocked = None.
Proof. by vm_compute. Qed.

(** * The theorems at work on the demo registry *)

Lemma loaded_idle {W : Type} (w : W) : idle (self (Demo.loaded w)).
Proof.
  apply (load_idle 2 "b.db" _ Demo.sid1); [|by vm_compute].
  apply (load_idle 2 "a.db" _ Demo.sid0); [|by vm_compute].
  apply idle_init.
Qed.

Lemma loaded_sid0 {W : Type} (w : W) :
  db (self (Demo.loaded w)) !! Demo.sid0 = Some "a.db".
Proof. by vm_compute. Qed.

Lemma safe_execute_always_busy_witness :
  (safe_execute 10 Demo.sid0 Demo.stubborn Demo.quiet).1 = Err retry_exhausted
  ∧ length (calls (emitted Demo.quiet
                     (safe_execute 10 Demo.sid0 Demo.stubborn Demo.quiet).2)) = 10
  ∧ sleeps (emitted Demo.quiet
              (safe_execute 10 Demo.sid0 Demo.stubborn Demo.quiet).2)
      = [3; 6; 9; 12; 15; 18; 21; 24; 27; 30]
  ∧ schedule (emitted Demo.quiet
                (safe_execute 10 Demo.sid0 Demo.stubborn Demo.quiet).2)
      = [Attempt; Sleep 3; Attempt; Sleep 6; Attempt; Sleep 9; Attempt; Sleep 12;
         Attempt; Sleep 15; Attempt; Sleep 18; Attempt; Sleep 21; Attempt; Sleep 24;
         Attempt; Sleep 27; Attempt; Sleep 30].
Proof.
  apply (safe_execute_always_busy 10 Demo.sid0 Demo.stubborn Demo.quiet "a.db").
  - apply loaded_idle.
  - apply loaded_sid0.
  - lia.
  - intros c k w. exists Demo.busy, w. done.
Defined.

Lemma safe_execute_busy_twice_witness :
  (safe_execute 10 Demo.sid0 Demo.scripted
     Demo.flaky).1 = Ok 42
  ∧ length (calls (emitted Demo.flaky
                     (safe_execute 10 Demo.sid0 Demo.scripted
                        Demo.flaky).2))
      = 3
  ∧ sleeps (emitted Demo.flaky
              (safe_execute 10 Demo.sid0 Demo.scripted
                 Demo.flaky).2)
      = [3; 6].
Proof.
  destruct (safe_execute_busy_twice 10 Demo.sid0 Demo.scripted
              Demo.flaky "a.db"
              Demo.busy [Raises Demo.busy; Returns 42]
              Demo.busy [Returns 42] 42 [])
    as (Hres & Hcalls & Hsleeps & _).
  - apply loaded_idle.
  - apply loaded_sid0.
  - lia.
  - reflexivity.
  - reflexivity.
  - reflexivity.
  - reflexivity.
  - reflexivity.
  - exact (conj Hres (conj Hcalls Hsleeps)).
Defined.

Lemma safe_execute_other_error_witness :
  safe_execute 10 Demo.sid0 Demo.scripted Demo.failing
  = (Err Demo.broken,
     advance [] 1
       [EAcquire MasterLock; EAcquire (SessionLock Demo.sid0);
        ECursor 0; EAction 0 (Some Demo.broken); EClose 0;
        ERelease (SessionLock Demo.sid0); ERelease MasterLock]
       Demo.failing).
Proof.
  apply (safe_execute_other_error 10 Demo.sid0 Demo.scripted
           Demo.failing "a.db").
  - apply loaded_idle.
  - apply loaded_sid0.
  - lia.
  - reflexivity.
  - reflexivity.
Defined.

Lemma safe_execute_unknown_session_witness :
  safe_execute 10 Demo.sid1 Demo.scripted
    (do_calls Demo.do_commit 2 Demo.first_load Demo.fresh).2
  = (Err (invalid_session Demo.sid1),
     (do_calls Demo.do_commit 2 Demo.first_load Demo.fresh).2).
Proof.
  apply (safe_execute_unknown_session Demo.do_commit 2 Demo.first_load
           Demo.fresh 10 Demo.sid1 Demo.scripted).
  - reflexivity.
  - apply (bool_decide_unpack _). by vm_compute.
Defined.

Lemma cursors_always_released_witness :
  (∀ h, (safe_execute 10 Demo.sid0 Demo.scripted
           Demo.mixed).1 ≠ Hang h)
  ∧ live (emitted Demo.mixed
            (safe_execute 10 Demo.sid0 Demo.scripted
               Demo.mixed).2) = []
  ∧ (∀ p, p `prefix_of` emitted Demo.mixed
                          (safe_execute 10 Demo.sid0 Demo.scripted
                             Demo.mixed).2 ->
          length (live p) <= 1)
  ∧ created (emitted Demo.mixed
               (safe_execute 10 Demo.sid0 Demo.scripted
                  Demo.mixed).2)
      = calls (emitted Demo.mixed
                 (safe_execute 10 Demo.sid0 Demo.scripted
                    Demo.mixed).2)
  ∧ NoDup (created (emitted Demo.mixed
                      (safe_execute 10 Demo.sid0 Demo.scripted
                         Demo.mixed).2)).
Proof.
  apply (cursors_always_released 10 Demo.sid0 Demo.scripted
           Demo.mixed).
  - apply loaded_idle.
  - lia.
Defined.

Lemma commit_once_witness :
  commit (counting Demo.do_commit) 10 Demo.sid0 Demo.committing
  = (Ok true,
     advance ([], 1) 1
       [EAcquire MasterLock; EAcquire (SessionLock Demo.sid0);
        ECursor 0; EAction 0 None; EClose 0;
        ERelease (SessionLock Demo.sid0); ERelease MasterLock]
       Demo.committing).
Proof.
  refine (proj1 (commit_once Demo.do_commit 10 Demo.sid0
                   Demo.committing "a.db" [Returns 7] 0 _ _ _ _)
            7 [] _).
  - apply loaded_idle.
  - apply loaded_sid0.
  - lia.
  - reflexivity.
  - reflexivity.
Defined.

Lemma issued_token_is_stable_witness :
  db (self (load 2 "a.db" Demo.fresh).2) !! Demo.sid0 = Some "a.db"
  ∧ db (self (do_call Demo.do_commit 10 Demo.second_load
                (load 2 "a.db" Demo.fresh).2).2) !! Demo.sid0 = Some "a.db"
  ∧ db (self (do_calls Demo.do_commit 10 Demo.history
                (load 2 "a.db" Demo.fresh).2).2) !! Demo.sid0 = Some "a.db".
Proof.
  apply (issued_token_is_stable Demo.do_commit). by vm_compute.
Defined.

Lemma safe_execute_locking_witness :
  (∀ h, (safe_execute 10 Demo.sid0 Demo.scripted Demo.failing).1
          ≠ Hang h)
  ∧ lock_events (emitted Demo.failing
                   (safe_execute 10 Demo.sid0 Demo.scripted
                      Demo.failing).2)
      = [EAcquire MasterLock; EAcquire (SessionLock Demo.sid0);
         ERelease (SessionLock Demo.sid0); ERelease MasterLock]
  ∧ self (safe_execute 10 Demo.sid0 Demo.scripted Demo.failing).2
      = self Demo.failing
  ∧ (∀ st1, Threads.run (Threads.safe_execute 10 Demo.sid0 Demo.scripted) st1
              = safe_execute 10 Demo.sid0 Demo.scripted st1)
  ∧ Threads.exclusive None (from_option fst [] Demo.interleaved)
  ∧ (∀ l1 i k o l2 j k' o' l3,
        from_option fst [] Demo.interleaved
          = l1 ++ (i, EAction k o) :: l2 ++ (j, EAction k' o') :: l3 ->
        i ≠ j ->
        (i, ERelease MasterLock) ∈ l2 ∧ (j, EAcquire MasterLock) ∈ l2).
Proof.
  apply (safe_execute_locking 10 Demo.sid0 Demo.scripted
           Demo.failing "a.db" Demo.jobs
           (Demo.loaded [Returns 1; Returns 2])
           (from_option fst [] Demo.interleaved)
           (from_option snd (Demo.loaded [Returns 1; Returns 2], Threads.spawn Demo.jobs)
              Demo.interleaved)).
  - apply loaded_idle.
  - apply loaded_sid0.
  - lia.
  - reflexivity.
  - apply interleave_is_exec. apply (bool_decide_unpack _). by vm_compute.
Defined.

Lemma safe_execute_failures_share_type_witness :
  ∃ e1 e2,
    (safe_execute 10 [x41] Demo.scripted Demo.quiet).1 = Err e1
    ∧ (safe_execute 10 Demo.sid0 Demo.stubborn Demo.quiet).1 = Err e2
    ∧ exn_type e1 = ValueError
    ∧ exn_type e2 = ValueError
    ∧ exn_msg e1 ≠ exn_msg e2
    ∧ ∀ (A : Type) (handler : exn_class -> A),
        handler (exn_type e1) = handler (exn_type e2).
Proof.
  apply (safe_execute_failures_share_type 10 [x41] Demo.scripted Demo.quiet
           10 Demo.sid0 Demo.stubborn Demo.quiet "a.db").
  - by vm_compute.
  - apply loaded_idle.
  - apply loaded_sid0.
  - lia.
  - intros c k w. exists Demo.busy, w. done.
Defined.

(** * Further properties of the methods *)

(** ** [load] *)

Section LoadMore.

Context {conn World : Type}.
Implicit Types (st : machine conn World) (connection : conn).

(** A session id returned by the draw loop is the one it was started with
    or sixteen consecutive bytes of the entropy stream. *)
Lemma load_loop_draws fuel o st t :
  (load_loop fuel o st).1 = Ok t ->
  o = Some t ∨ ∃ d, drawn st <= d ∧ t = map (entropy st) (seq d 16).
Proof.
  revert o st. induction fuel as [|fuel IH]; intros o st;
    rewrite load_loop_unfold; cbn zeta.
  - destruct o as [[|b t']|]; try done.
    case_bool_decide; [done|]. intros [= <-]. by left.
  - assert ((bind (urandom 16) (fun t => load_loop fuel (Some t)) st).1 = Ok t ->
            ∃ d, drawn st <= d ∧ t = map (entropy st) (seq d 16)) as Hdraw.
    { unfold bind, urandom. intros Hres.
      apply IH in Hres as [[= <-]|(d & Hd & ->)]; cbn in *.
      - exists (drawn st). done.
      - exists d. split; [lia|done]. }
    destruct o as [[|b t']|]; try (intros Hres; right; by apply Hdraw).
    case_bool_decide; [intros Hres; right; by apply Hdraw|].
    intros [= <-]. by left.
Qed.

(** A [load] that returns has found the master lock free, and its session
    id is the one the draw loop chose. *)
Lemma load_ok_inv fuel connection st t :
  (load fuel connection st).1 = Ok t ->
  master_lock (self st) = false
  ∧ (load_loop fuel None (load_entered st)).1 = Ok t.
Proof.
  intros Hload. destruct (master_lock (self st)) eqn:Hmaster.
  { destruct (load_cases fuel connection st)
      as [[_ Heq]|[Hfree _]]; [by rewrite Heq in Hload|congruence]. }
  split; [done|].
  destruct (load_loop_spec fuel None (load_entered st)) as (d & _ & Hst & Hres).
  assert (load fuel connection st
          = try_finally
              (bind (load_loop fuel None)
                 (fun t => bind (setitem_db t connection)
                    (fun _ => bind (setitem_session_lock t) (fun _ => ret t))))
              (Lock_release MasterLock) (load_entered st)) as Heq.
  { unfold load, bind at 1. by rewrite Lock_acquire_free by (by cbn; f_equal). }
  rewrite Heq in Hload. unfold try_finally, bind at 1 in Hload.
  destruct (load_loop fuel None (load_entered st)) as [[t'|e|h] st2];
    cbn in Hst, Hres; [|done|by cbn in Hload].
  subst st2. unfold bind, setitem_db, setitem_session_lock, ret in Hload.
  rewrite Lock_release_held in Hload by done. done.
Qed.

(** X1. A session id returned by [load] is what one [os.urandom(16)] call
    handed out: sixteen consecutive bytes of the entropy stream, taken at or
    after the position where [load] started reading. *)
Theorem load_token_is_sixteen_bytes fuel connection st t :
  (load fuel connection st).1 = Ok t ->
  length t = 16
  ∧ ∃ d, drawn st <= d ∧ t = map (entropy st) (seq d 16).
Proof.
  intros Hload. apply load_ok_inv in Hload as [_ Hloop].
  apply load_loop_draws in Hloop as [?|(d & Hd & ->)]; [done|].
  split; [by rewrite length_map, length_seq|]. by exists d.
Qed.

(** X2. When [load] returns a session id, the id was not a key before, it
    is now bound to the connection and to a fresh lock that nobody holds,
    every other entry of the two dictionaries is as it was, the master lock
    is free again, and all that was logged is the acquire and the release of
    the master lock. *)
Theorem load_registers fuel connection st t :
  (load fuel connection st).1 = Ok t ->
  db (self st) !! t = None
  ∧ db (self (load fuel connection st).2) !! t = Some connection
  ∧ session_lock (self (load fuel connection st).2) !! t = Some false
  ∧ master_lock (self (load fuel connection st).2) = false
  ∧ (∀ t', t' ≠ t ->
       db (self (load fuel connection st).2) !! t' = db (self st) !! t'
       ∧ session_lock (self (load fuel connection st).2) !! t'
           = session_lock (self st) !! t')
  ∧ emitted st (load fuel connection st).2 = [EAcquire MasterLock; ERelease MasterLock]
  ∧ world (load fuel connection st).2 = world st
  ∧ next_cursor (load fuel connection st).2 = next_cursor st.
Proof.
  destruct (load_cases fuel connection st)
    as [[_ ->]|[_ (d & _ & [(t' & _ & Hfresh & ->)| ->])]]; try done.
  intros [= <-]. cbn. rewrite !lookup_insert_eq.
  split; [done|]. split; [done|]. split; [done|]. split; [done|]. split.
  - intros t0 Hne. by rewrite !lookup_insert_ne.
  - split; [|done]. unfold emitted; cbn. by rewrite drop_app_length.
Qed.

(** X3. [load] never raises.  It blocks without touching anything when the
    master lock is held; when its draws run out it is still inside the loop,
    holding the master lock. *)
Theorem load_never_raises fuel connection st :
  match (load fuel connection st).1 with
  | Ok _ => master_lock (self st) = false
  | Err _ => False
  | Hang Deadlock =>
      master_lock (self st) = true ∧ (load fuel connection st).2 = st
  | Hang OutOfFuel =>
      master_lock (self st) = false
      ∧ master_lock (self (load fuel connection st).2) = true
      ∧ db (self (load fuel connection st).2) = db (self st)
  end.
Proof.
  destruct (load_cases fuel connection st)
    as [[Hheld ->]|[Hfree (d & _ & [(t' & _ & _ & ->)| ->])]]; done.
Qed.

(** The draw loop, exactly: it returns the first draw that is not in use and
    has consumed the bytes up to and including that draw. *)
Lemma load_loop_first_free j fuel o st :
  (∀ t, o = Some t -> t = [] ∨ is_Some (db (self st) !! t)) ->
  j < fuel ->
  (∀ i, i < j -> is_Some (db (self st) !! nth_draw st i)) ->
  db (self st) !! nth_draw st j = None ->
  load_loop fuel o st
    = (Ok (nth_draw st j), with_drawn (drawn st + 16 * S j) st).
Proof.
  revert fuel o st. induction j as [|j IH]; intros fuel o st Ho Hfuel Hbusy Hfree;
    (destruct fuel as [|fuel]; [lia|]).
  - rewrite load_loop_unfold. cbn zeta.
    assert (bind (urandom 16) (fun t => load_loop fuel (Some t)) st
            = (Ok (nth_draw st 0), with_drawn (drawn st + 16 * 1) st)) as Hdraw.
    { unfold bind, urandom. rewrite load_loop_unfold.
      unfold nth_draw in *. rewrite Nat.mul_0_r, Nat.add_0_r in *.
      cbn [seq map] in *. cbn [self db].
      rewrite bool_decide_eq_false_2 by (rewrite Hfree; by intros [? ?]).
      unfold with_drawn. cbn. do 2 f_equal. }
    destruct o as [[|b t]|]; try exact Hdraw.
    destruct (Ho _ eq_refl) as [?|Hin]; [done|].
    by rewrite bool_decide_eq_true_2.
  - rewrite load_loop_unfold. cbn zeta.
    assert (bind (urandom 16) (fun t => load_loop fuel (Some t)) st
            = (Ok (nth_draw st (S j)), with_drawn (drawn st + 16 * S (S j)) st))
      as Hdraw.
    { unfold bind, urandom.
      match goal with |- load_loop fuel ?o' ?st' = _ =>
        assert (∀ i, nth_draw st' i = nth_draw st (S i)) as Hshift
          by (intros i; unfold nth_draw; cbn [entropy drawn]; do 2 f_equal; lia);
        rewrite (IH fuel o' st')
      end.
      - rewrite Hshift. unfold with_drawn; cbn. do 2 f_equal. lia.
      - intros t [= <-]. right. specialize (Hbusy 0 ltac:(lia)).
        unfold nth_draw in Hbusy. by rewrite Nat.mul_0_r, Nat.add_0_r in Hbusy.
      - lia.
      - intros i Hi. rewrite Hshift. apply Hbusy. lia.
      - rewrite Hshift. exact Hfree. }
    destruct o as [[|b t]|]; try exact Hdraw.
    destruct (Ho _ eq_refl) as [?|Hin]; [done|].
    by rewrite bool_decide_eq_true_2.
Qed.

(** X4. The collision loop of [load]: with the master lock free, if the
    first [j] draws of sixteen bytes are session ids in use and the next one
    is not, and the fuel allows [j + 1] draws, [load] returns that draw,
    having read exactly [16 * (j + 1)] bytes of entropy. *)
Theorem load_first_free_draw fuel connection st j :
  master_lock (self st) = false ->
  j < fuel ->
  (∀ i, i < j -> is_Some (db (self st) !! nth_draw st i)) ->
  db (self st) !! nth_draw st j = None ->
  load fuel connection st
    = (Ok (nth_draw st j),
       after_load (nth_draw st j) connection (drawn st + 16 * S j) st).
Proof.
  intros Hmaster Hfuel Hbusy Hfree.
  pose proof (load_loop_first_free j fuel None (load_entered st)
                ltac:(done) Hfuel Hbusy Hfree) as Hloop.
  assert (load fuel connection st
          = try_finally
              (bind (load_loop fuel None)
                 (fun t => bind (setitem_db t connection)
                    (fun _ => bind (setitem_session_lock t) (fun _ => ret t))))
              (Lock_release MasterLock) (load_entered st)) as ->.
  { unfold load, bind at 1. by rewrite Lock_acquire_free by (by cbn; f_equal). }
  unfold try_finally, bind at 1. rewrite Hloop.
  unfold bind, setitem_db, setitem_session_lock, ret.
  rewrite Lock_release_held by done. f_equal. by machine_eq.
Qed.

End LoadMore.

(** ** [safe_execute] *)

(** The two lock operations at either end of a call are no action calls,
    sleeps or prints. *)
Ltac lock_ends :=
  repeat match goal with
    | |- context [calls [EAcquire ?a; EAcquire ?b]] =>
        change (calls [EAcquire a; EAcquire b]) with (@nil nat)
    | |- context [calls [ERelease ?a; ERelease ?b]] =>
        change (calls [ERelease a; ERelease b]) with (@nil nat)
    | |- context [sleeps [EAcquire ?a; EAcquire ?b]] =>
        change (sleeps [EAcquire a; EAcquire b]) with (@nil nat)
    | |- context [sleeps [ERelease ?a; ERelease ?b]] =>
        change (sleeps [ERelease a; ERelease b]) with (@nil nat)
    | |- context [prints [EAcquire ?a; EAcquire ?b]] =>
        change (prints [EAcquire a; EAcquire b]) with (@nil string)
    | |- context [prints [ERelease ?a; ERelease ?b]] =>
        change (prints [ERelease a; ERelease b]) with (@nil string)
    end;
  rewrite ?app_nil_l, ?app_nil_r.

Section ExecuteMore.

Context {conn World V : Type}.
Implicit Types (st : machine conn World) (action : action_t conn World V).

Lemma attempt_events_calls failures k o : calls (attempt_events failures k o) = [k].
Proof. unfold attempt_events. by destruct o as [e|]; [destruct (is_operational e)|]. Qed.

Lemma attempt_events_sleeps_quiet failures k o :
  (∀ e, o = Some e -> is_operational e = false) ->
  sleeps (attempt_events failures k o) = [].
Proof. intros Ho. by rewrite attempt_events_quiet. Qed.

Lemma raised_quiet (o : outcome V) :
  (∀ e, o = Raises e -> is_operational e = false) ->
  ∀ e, raised o = Some e -> is_operational e = false.
Proof. intros Ho e. destruct o as [v|e']; [done|]. intros [= <-]. by apply Ho. Qed.

(** [k] transient failures in a row and then an outcome of another kind. *)
Lemma loop_run_transient_prefix k action c :
  ∀ failures n (ws : nat -> World) (es : nat -> exn) tr (r : result V) w'' n' o w',
    loop_run action c failures n (ws 0) tr r w'' n' ->
    (∀ i, i < k ->
       action c (n + i) (ws i) = (Raises (es i), ws (S i))
       ∧ is_operational (es i) = true) ->
    action c (n + k) (ws k) = (o, w') ->
    (∀ e, o = Raises e -> is_operational e = false) ->
    failures + k < 10 ->
    r = as_result o ∧ w'' = w' ∧ n' = n + S k
    ∧ calls tr = seq n (S k)
    ∧ sleeps tr = map (Nat.mul 3) (seq (failures + 1) k).
Proof.
  induction k as [|k IH]; intros f n ws es tr r w'' n' o w' Hrun Hbusy Hlast Ho Hlt.
  - apply loop_run_inv in Hrun. rewrite Nat.add_0_r in Hlast. rewrite Hlast in Hrun.
    destruct o as [v|e].
    + destruct Hrun as (-> & -> & -> & ->).
      rewrite attempt_events_calls. repeat split; try done. lia.
    + rewrite (Ho e eq_refl) in Hrun. destruct Hrun as (-> & -> & -> & ->).
      rewrite attempt_events_calls.
      rewrite attempt_events_sleeps_quiet by (intros ? [= <-]; by apply Ho).
      repeat split; try done. lia.
  - destruct (Hbusy 0 ltac:(lia)) as [Hact He]. rewrite Nat.add_0_r in Hact.
    apply loop_run_inv in Hrun. rewrite Hact, He in Hrun.
    destruct (decide (f + 1 = 10)) as [?|_]; [lia|].
    destruct Hrun as (tr' & -> & Hrun).
    destruct (IH (f + 1) (S n) (fun i => ws (S i)) (fun i => es (S i))
                tr' r w'' n' o w' Hrun) as (-> & -> & -> & Hcalls & Hsleeps).
    + intros i Hi. destruct (Hbusy (S i) ltac:(lia)) as [Hact' He'].
      by replace (S n + i) with (n + S i) by lia.
    + by replace (S n + k) with (n + S k) by lia.
    + done.
    + lia.
    + rewrite calls_app, sleeps_app, attempt_events_calls, Hcalls, Hsleeps.
      rewrite attempt_events_busy by done. cbn [sleeps omap app].
      replace (f + 1 + 1) with (S (f + 1)) by lia.
      repeat split; try done. lia.
Qed.

(** X5. The retry loop in general: when the first [k] invocations (with
    [k < 10]) raise the transient error and the next one returns or raises
    something else, [safe_execute] ends with that return value or that
    exception after exactly [k + 1] invocations, having slept 3, 6, ..., [3 k]
    seconds; the world is the one the last invocation left. *)
Theorem safe_execute_retries_then_ends fuel session_id action st c k
    (ws : nat -> World) (es : nat -> exn) o w' :
  idle (self st) ->
  db (self st) !! session_id = Some c ->
  10 <= fuel ->
  k < 10 ->
  ws 0 = world st ->
  (∀ i, i < k ->
     action c (next_cursor st + i) (ws i) = (Raises (es i), ws (S i))
     ∧ is_operational (es i) = true) ->
  action c (next_cursor st + k) (ws k) = (o, w') ->
  (∀ e, o = Raises e -> is_operational e = false) ->
  (safe_execute fuel session_id action st).1 = as_result o
  ∧ world (safe_execute fuel session_id action st).2 = w'
  ∧ length (calls (emitted st (safe_execute fuel session_id action st).2)) = S k
  ∧ sleeps (emitted st (safe_execute fuel session_id action st).2)
      = map (Nat.mul 3) (seq 1 k).
Proof.
  intros Hidle Hc Hfuel Hk Hw Hbusy Hlast Ho.
  destruct (safe_execute_run fuel session_id action st c Hidle Hc Hfuel)
    as (tr & r & w & n & -> & Hrun).
  rewrite <- Hw in Hrun.
  destruct (loop_run_transient_prefix k action c 0 (next_cursor st) ws es
              tr r w n o w' Hrun Hbusy Hlast Ho ltac:(lia))
    as (-> & -> & -> & Hcalls & Hsleeps).
  cbn [fst snd world]. rewrite emitted_advance.
  rewrite !calls_app, !sleeps_app, Hcalls, Hsleeps. lock_ends.
  by rewrite length_seq.
Qed.

(** What the loop can do at most. *)
Lemma loop_run_bounds action c failures n w tr (r : result V) w' n' :
  loop_run action c failures n w tr r w' n' ->
  failures < 10 ->
  ∃ m, m <= 10 - failures
    ∧ sleeps tr = map (Nat.mul 3) (seq (failures + 1) m)
    ∧ m <= length (calls tr) <= S m
    ∧ length (calls tr) <= 10 - failures.
Proof.
  induction 1 as [f k w v w' Hact|f k w e w' Hact He|f k w e w' Hact He Hten
                 |f k w e w' tr r w'' n Hact He Hten Hrun IH]; intros Hlt.
  - exists 0. rewrite attempt_events_calls.
    rewrite attempt_events_sleeps_quiet by done. cbn.
    repeat split; first [done | lia].
  - exists 0. rewrite attempt_events_calls.
    rewrite attempt_events_sleeps_quiet by (by intros ? [= <-]). cbn.
    repeat split; first [done | lia].
  - exists 1. rewrite attempt_events_calls, attempt_events_busy by done.
    assert (f = 9) as -> by lia. cbn.
    repeat split; first [done | lia].
  - destruct IH as (m & Hm & Hsleeps & Hcalls & Hmax); [lia|].
    exists (S m). rewrite calls_app, sleeps_app, attempt_events_calls, Hsleeps.
    rewrite attempt_events_busy by done. cbn [sleeps omap app length].
    replace (f + 1 + 1) with (S (f + 1)) by lia.
    repeat split; first [done | lia].
Qed.

Lemma sum_of_delays m :
  m <= 10 -> sum_list (map (Nat.mul 3) (seq 1 m)) <= 165.
Proof.
  intros Hm. do 11 (destruct m as [|m]; [cbn; lia|]). lia.
Qed.

(** X6. Whatever the action does and whatever the session id is, one call of
    [safe_execute] invokes the action at most ten times; the sleeps are an
    initial part of 3, 6, ..., 30 seconds, one after each invocation except
    possibly the last, and add up to at most 165 seconds. *)
Theorem safe_execute_bounds fuel session_id action st :
  idle (self st) ->
  10 <= fuel ->
  length (calls (emitted st (safe_execute fuel session_id action st).2)) <= 10
  ∧ (∃ m, m <= 10
       ∧ sleeps (emitted st (safe_execute fuel session_id action st).2)
           = map (Nat.mul 3) (seq 1 m)
       ∧ m <= length (calls (emitted st (safe_execute fuel session_id action st).2))
           <= S m)
  ∧ sum_list (sleeps (emitted st (safe_execute fuel session_id action st).2)) <= 165.
Proof.
  intros Hidle Hfuel. destruct (db (self st) !! session_id) as [c|] eqn:Hc.
  - destruct (safe_execute_run fuel session_id action st c Hidle Hc Hfuel)
      as (tr & r & w & n & -> & Hrun).
    cbn [snd]. rewrite emitted_advance.
    destruct (loop_run_bounds _ _ _ _ _ _ _ _ _ Hrun ltac:(lia))
      as (m & Hm & Hsleeps & Hcalls & Hmax).
    rewrite !calls_app, !sleeps_app, Hsleeps. lock_ends.
    split; [lia|]. split.
    + exists m. repeat split; try done; lia.
    + apply sum_of_delays. lia.
  - rewrite safe_execute_unknown by done. cbn [snd]. rewrite emitted_same.
    cbn. split; [lia|]. split; [|lia]. exists 0. cbn. repeat split; lia.
Qed.

Lemma prints_app tr1 tr2 : prints (tr1 ++ tr2) = prints tr1 ++ prints tr2.
Proof. apply omap_app. Qed.

Lemma loop_run_prints action c failures n w tr (r : result V) w' n' :
  loop_run action c failures n w tr r w' n' ->
  prints tr = map retry_notice (sleeps tr).
Proof.
  induction 1 as [f k w v w' Hact|f k w e w' Hact He|f k w e w' Hact He Hten
                 |f k w e w' tr r w'' n Hact He Hten Hrun IH].
  - by rewrite attempt_events_quiet.
  - by rewrite attempt_events_quiet by (by intros ? [= <-]).
  - by rewrite attempt_events_busy.
  - rewrite prints_app, sleeps_app, map_app, IH.
    by rewrite attempt_events_busy.
Qed.

(** X7. Every sleep of [safe_execute] is announced: the lines printed during
    a call are the retry notices for the delays slept, in the same order, and
    nothing else is printed. *)
Theorem safe_execute_notices fuel session_id action st :
  idle (self st) ->
  10 <= fuel ->
  prints (emitted st (safe_execute fuel session_id action st).2)
    = map retry_notice (sleeps (emitted st (safe_execute fuel session_id action st).2)).
Proof.
  intros Hidle Hfuel. destruct (db (self st) !! session_id) as [c|] eqn:Hc.
  - destruct (safe_execute_run fuel session_id action st c Hidle Hc Hfuel)
      as (tr & r & w & n & -> & Hrun).
    cbn [snd]. rewrite emitted_advance.
    rewrite !prints_app, !sleeps_app, (loop_run_prints _ _ _ _ _ _ _ _ _ Hrun).
    by lock_ends.
  - rewrite safe_execute_unknown by done. cbn [snd]. by rewrite emitted_same.
Qed.

(** X8. The locks are not reentrant: while the master lock is held,
    [safe_execute] on a registered session and [load] block without changing
    or logging anything; the session check comes before the locks, so an
    unknown session id is still refused at once. *)
Theorem calls_block_while_locked fuel session_id action connection st :
  master_lock (self st) = true ->
  (is_Some (db (self st) !! session_id) ->
     safe_execute fuel session_id action st = (Hang Deadlock, st))
  ∧ (db (self st) !! session_id = None ->
       safe_execute fuel session_id action st
         = (Err (invalid_session session_id), st))
  ∧ load fuel connection st = (Hang Deadlock, st).
Proof.
  intros Hheld. split; [|split].
  - intros Hsome. unfold safe_execute, bind at 1, contains_db.
    rewrite bool_decide_eq_true_2 by done. cbn [negb].
    unfold bind, Lock_acquire, bind, lookup_lock. by rewrite Hheld.
  - apply safe_execute_unknown.
  - unfold load, bind, Lock_acquire, bind, lookup_lock. by rewrite Hheld.
Qed.

(** X9. [load] and then [safe_execute] with the session id it returned: the
    action is invoked with the connection that was loaded, and when that
    first invocation returns, or raises something that is not the transient
    error, [safe_execute] ends the same way, after one cursor and with both
    locks released. *)
Theorem load_then_safe_execute fuel connection st t fuel' action o w' :
  idle (self st) ->
  (load fuel connection st).1 = Ok t ->
  10 <= fuel' ->
  action connection (next_cursor st) (world st) = (o, w') ->
  (∀ e, o = Raises e -> is_operational e = false) ->
  safe_execute fuel' t action (load fuel connection st).2
    = (as_result o,
       advance w' (S (next_cursor st))
         [EAcquire MasterLock; EAcquire (SessionLock t);
          ECursor (next_cursor st); EAction (next_cursor st) (raised o);
          EClose (next_cursor st);
          ERelease (SessionLock t); ERelease MasterLock]
         (load fuel connection st).2).
Proof.
  intros Hidle Hload Hfuel Hact Ho.
  pose proof (load_idle fuel connection st t Hidle Hload) as Hidle'.
  pose proof (load_db fuel connection st) as Hdb. rewrite Hload in Hdb.
  destruct Hdb as [_ Hdb].
  assert (world (load fuel connection st).2 = world st
          ∧ next_cursor (load fuel connection st).2 = next_cursor st) as [Hw Hn].
  { destruct (load_cases fuel connection st)
      as [[_ Heq]|[_ (d & _ & [(t' & _ & _ & Heq)|Heq])]]; by rewrite Heq in *. }
  destruct (safe_execute_run fuel' t action (load fuel connection st).2 connection
              Hidle') as (tr & r & w & n & -> & Hrun); [|done|].
  { rewrite Hdb. apply lookup_insert_eq. }
  rewrite Hw, Hn in Hrun. apply loop_run_inv in Hrun. rewrite Hact in Hrun.
  destruct o as [v|e].
  - by destruct Hrun as (-> & -> & -> & ->).
  - rewrite (Ho e eq_refl) in Hrun. destruct Hrun as (-> & -> & -> & ->).
    by rewrite attempt_events_quiet by (intros ? [= <-]; by apply Ho).
Qed.

End ExecuteMore.

(** ** [commit] *)

Section CommitMore.

Context {conn World R : Type}.
Context (op : conn -> World -> outcome R * World).
Implicit Types (st : machine conn (World * nat)).

(** Each action call of [commit] is one invocation of the commit operation. *)
Lemma loop_run_counts c failures k wn tr (r : result R) wn' n' :
  loop_run (fun db (_ : nat) => counting op db) c failures k wn tr r wn' n' ->
  wn'.2 = wn.2 + length (calls tr).
Proof.
  assert (∀ c wn o wn', counting op c wn = (o, wn') -> wn'.2 = S wn.2) as Hstep.
  { intros c0 [w0 n0] o0 wn0. unfold counting. cbn.
    destruct (op c0 w0) as [o1 w1]. by intros [= <- <-]. }
  induction 1 as [f k w v w' Hact|f k w e w' Hact He|f k w e w' Hact He Hten
                 |f k w e w' tr r w'' n Hact He Hten Hrun IH];
    rewrite ?calls_app, ?length_app, attempt_events_calls;
    apply Hstep in Hact; cbn [length]; lia.
Qed.

(** The wrapped call and [commit] leave the same machine. *)
Lemma commit_state fuel session_id st :
  (commit (counting op) fuel session_id st).2
    = (safe_execute fuel session_id (fun db _ => counting op db) st).2
  ∧ (commit (counting op) fuel session_id st).1
      = match (safe_execute fuel session_id (fun db _ => counting op db) st).1 with
        | Ok _ => Ok true
        | Err e => Err e
        | Hang h => Hang h
        end.
Proof.
  unfold commit, bind.
  by destruct (safe_execute fuel session_id _ st) as [[r|e|h] st'].
Qed.

(** X10. When the connection's commit operation raises an error that is not
    the transient one, [commit] raises that error ([True] is not returned)
    after invoking the operation exactly once, with the cursor closed and
    both locks released. *)
Theorem commit_propagates_error fuel session_id st c w n e w1 :
  idle (self st) ->
  db (self st) !! session_id = Some c ->
  10 <= fuel ->
  world st = (w, n) ->
  op c w = (Raises e, w1) ->
  is_operational e = false ->
  commit (counting op) fuel session_id st
    = (Err e,
       advance (w1, S n) (S (next_cursor st))
         [EAcquire MasterLock; EAcquire (SessionLock session_id);
          ECursor (next_cursor st); EAction (next_cursor st) (Some e);
          EClose (next_cursor st);
          ERelease (SessionLock session_id); ERelease MasterLock] st).
Proof.
  intros Hidle Hc Hfuel Hworld Hop He. unfold commit, bind.
  destruct (safe_execute_run fuel session_id
              (fun db _ => counting op db) st c Hidle Hc Hfuel)
    as (tr & res & w' & n' & -> & Hrun).
  apply loop_run_inv in Hrun. unfold counting in Hrun.
  rewrite Hworld in Hrun. cbn [fst snd] in Hrun. rewrite Hop, He in Hrun.
  destruct Hrun as (-> & -> & -> & ->).
  by rewrite attempt_events_quiet by (by intros ? [= <-]).
Qed.

(** X11. [commit] invokes the commit operation once per action call of the
    retry loop and never otherwise: after a call on a registered session the
    invocation counter has gone up by the number of action calls logged,
    which is between one and ten, and [commit] has returned [True] or
    raised. *)
Theorem commit_counts_invocations fuel session_id st c :
  idle (self st) ->
  db (self st) !! session_id = Some c ->
  10 <= fuel ->
  (world (commit (counting op) fuel session_id st).2).2
    = (world st).2
      + length (calls (emitted st (commit (counting op) fuel session_id st).2))
  ∧ 1 <= length (calls (emitted st (commit (counting op) fuel session_id st).2)) <= 10
  ∧ ((commit (counting op) fuel session_id st).1 = Ok true
     ∨ ∃ e, (commit (counting op) fuel session_id st).1 = Err e).
Proof.
  intros Hidle Hc Hfuel.
  destruct (commit_state fuel session_id st) as [-> ->].
  destruct (safe_execute_run fuel session_id
              (fun db _ => counting op db) st c Hidle Hc Hfuel)
    as (tr & res & w' & n' & -> & Hrun).
  cbn [fst snd world]. rewrite emitted_advance, !calls_app. lock_ends.
  split; [by eapply loop_run_counts|]. split.
  - destruct (loop_run_cursors _ _ _ _ _ _ _ _ _ Hrun) as (Hlt & _ & _ & _ & Hcalls).
    destruct (loop_run_bounds _ _ _ _ _ _ _ _ _ Hrun ltac:(lia))
      as (m & _ & _ & _ & Hmax).
    rewrite Hcalls, length_seq in *. lia.
  - destruct res as [r|e|h]; [by left|right; by exists e|].
    by destruct (loop_run_comes_back _ _ _ _ _ _ _ _ _ Hrun h).
Qed.

(** X12. A commit operation that is busy at every invocation is invoked ten
    times, with the sleeps 3, 6, ..., 30 after the invocations, and then
    [commit] raises the retries-exhausted error. *)
Theorem commit_exhausted fuel session_id st c :
  idle (self st) ->
  db (self st) !! session_id = Some c ->
  10 <= fuel ->
  (∀ c w, ∃ e w', op c w = (Raises e, w') ∧ is_operational e = true) ->
  (commit (counting op) fuel session_id st).1 = Err retry_exhausted
  ∧ (world (commit (counting op) fuel session_id st).2).2 = (world st).2 + 10
  ∧ sleeps (emitted st (commit (counting op) fuel session_id st).2)
      = [3; 6; 9; 12; 15; 18; 21; 24; 27; 30].
Proof.
  intros Hidle Hc Hfuel Hbusy.
  destruct (commit_state fuel session_id st) as [-> ->].
  destruct (safe_execute_run fuel session_id
              (fun db _ => counting op db) st c Hidle Hc Hfuel)
    as (tr & res & w' & n' & -> & Hrun).
  cbn [fst snd world]. rewrite emitted_advance, !sleeps_app. lock_ends.
  assert (always_busy (fun db (_ : nat) => counting op db)) as Hbusy'.
  { intros c0 k0 [w0 n0]. destruct (Hbusy c0 w0) as (e & w1 & Hop & He).
    exists e, (w1, S n0). unfold counting. cbn. by rewrite Hop. }
  pose proof (loop_run_counts _ _ _ _ _ _ _ _ Hrun) as Hcount.
  destruct (loop_run_always_busy _ _ _ _ _ _ _ _ _ Hrun Hbusy' ltac:(lia))
    as (-> & _ & Hcalls & Hsleeps).
  rewrite Hcalls, length_seq in Hcount.
  split; [done|]. split; [exact Hcount|by rewrite Hsleeps].
Qed.

End CommitMore.

Section CommitUnknown.

Context {conn World R : Type}.
Context (conn_commit : conn -> World -> outcome R * World).

(** X13. [commit] with a session id that is not registered raises the
    invalid-session error; the commit operation is not invoked and nothing
    changes, whatever the state of the locks. *)
Theorem commit_unknown_session fuel session_id (st : machine conn World) :
  db (self st) !! session_id = None ->
  commit conn_commit fuel session_id st = (Err (invalid_session session_id), st).
Proof.
  intros Hnone. unfold commit, bind. by rewrite safe_execute_unknown.
Qed.

End CommitUnknown.

(** ** Histories *)

Section HistoryMore.

Context {conn World V R : Type}.
Context (conn_commit : conn -> World -> outcome R * World).
Implicit Types (st : machine conn World).
Implicit Types (history : list (api_call (conn := conn) (World := World) (V := V))).

(** X14. Locks do not leak: after any history of calls on a registry
    created by [__init__], with fuel for ten rounds and no [load] stuck, the
    master lock is free and every registered session has a lock that nobody
    holds, whether the calls returned or raised. *)
Theorem locks_never_leak fuel history st0 :
  self st0 = AtomicSQL_init ->
  10 <= fuel ->
  (∀ h, FromLoad (Hang h) ∉ (do_calls conn_commit fuel history st0).1) ->
  idle (self (do_calls conn_commit fuel history st0).2).
Proof.
  intros Hinit Hfuel Hback. apply do_calls_idle; [done| |done].
  rewrite Hinit. apply idle_init.
Qed.

(** The entries of [self.db] after a history are those it started with and
    those the [load] calls of the history made. *)
Lemma do_calls_bindings fuel history st t c :
  db (self (do_calls conn_commit fuel history st).2) !! t = Some c
  ↔ db (self st) !! t = Some c
    ∨ (t, c) ∈ bindings history (do_calls conn_commit fuel history st).1.
Proof.
  revert st. induction history as [|call history IH]; intros st.
  { cbn. split; [by left|]. intros [?|?%elem_of_nil]; done. }
  cbn [do_calls].
  pose proof (do_call_db conn_commit fuel call st) as Hdb.
  pose proof (do_calls_keeps_entries conn_commit fuel history
                (do_call conn_commit fuel call st).2) as Hkeep.
  specialize (IH (do_call conn_commit fuel call st).2).
  destruct (do_call conn_commit fuel call st) as [r st1]. cbn [fst snd] in *.
  destruct (do_calls conn_commit fuel history st1) as [rs st2]. cbn [fst snd] in *.
  assert (∀ P : Prop,
            (db (self st1) = db (self st)) ->
            (P ↔ (t, c) ∈ bindings history rs) ->
            (db (self st2) !! t = Some c ↔ db (self st) !! t = Some c ∨ P))
    as Hsame.
  { intros P Heq HP. rewrite IH, Heq. tauto. }
  destruct call as [connection|session_id action|session_id];
    destruct r as [[t'|e|h]|r|r]; cbn [bindings];
    try (by apply Hsame);
    try (by destruct Hdb as (? & ? & _)).
  destruct Hdb as (connection' & [= <-] & Hfresh & Hdb).
  rewrite IH, Hdb, elem_of_cons. split.
  - intros [Hin|Hin]; [|by eauto].
    destruct (decide (t' = t)) as [->|Hne].
    + rewrite lookup_insert_eq in Hin. injection Hin as ->. by eauto.
    + rewrite lookup_insert_ne in Hin by done. by left.
  - intros [Hold|[[= -> ->]|Hin]]; [|left; apply lookup_insert_eq|by right].
    left. rewrite lookup_insert_ne; [done|]. intros ->. congruence.
Qed.

(** X15. On a registry created by [__init__], [self.db] holds exactly what
    the [load] calls of the history put there: a session id resolves to a
    connection if and only if some [load] call was given that connection and
    returned that id. *)
Theorem db_is_what_load_issued fuel history st0 t c :
  self st0 = AtomicSQL_init ->
  db (self (do_calls conn_commit fuel history st0).2) !! t = Some c
  ↔ (t, c) ∈ bindings history (do_calls conn_commit fuel history st0).1.
Proof.
  intros Hinit. rewrite do_calls_bindings, Hinit. cbn. rewrite lookup_empty.
  split; [by intros [?|?]|by right].
Qed.

End HistoryMore.

(** ** Threads that call [load] *)

Section LoadThreads.

Context {conn World : Type}.
Implicit Types (st : machine conn World).

Lemma run_load_loop fuel o st :
  Threads.run (Loaders.load_loop fuel o) st = load_loop fuel o st.
Proof.
  revert o st. induction fuel as [|fuel IH]; intros o st.
  - destruct o as [[|b t]|]; try reflexivity.
    cbn [Loaders.load_loop load_loop]. rewrite run_bind.
    apply bind_ext; [apply run_atomic|]. by intros [].
  - assert (∀ st,
      Threads.run (Threads.bind (Threads.atomic (urandom 16))
                     (fun t => Loaders.load_loop fuel (Some t))) st
      = bind (urandom 16) (fun t => load_loop fuel (Some t)) st) as Hdraw.
    { intros st1. rewrite run_bind. apply bind_ext; [apply run_atomic|].
      intros t st2. apply IH. }
    destruct o as [[|b t]|]; try apply Hdraw.
    cbn [Loaders.load_loop load_loop]. rewrite run_bind.
    apply bind_ext; [apply run_atomic|]. intros [] st1; [apply Hdraw|done].
Qed.

Lemma run_load fuel connection st :
  Threads.run (Loaders.load fuel connection) st = load fuel connection st.
Proof.
  unfold Loaders.load, load. rewrite run_bind.
  apply bind_ext; [apply run_atomic|]. intros _ st1.
  rewrite run_try_finally. apply try_finally_ext; [|apply run_atomic].
  intros st2. rewrite run_bind. apply bind_ext; [apply run_load_loop|].
  intros t st3. rewrite run_bind. apply bind_ext; [apply run_atomic|].
  intros _ st4. rewrite run_bind. apply bind_ext; [apply run_atomic|]. done.
Qed.


Lemma step_thread_step {V} i (c1 c2 : Threads.config conn World V) :
  Threads.step i c1 c2 ->
  ∃ p p', c1.2 !! i = Some p
    ∧ Loaders.thread_step p c1.1 = Some (p', c2.1)
    ∧ c2.2 = <[i := p']> c1.2.
Proof.
  intros Hstep. destruct Hstep as [i st pool X m k r st' Hi Hm Hr].
  exists (Threads.Atomic m k), (k r). cbn. rewrite Hm.
  repeat split; try done. destruct r as [x|e|h]; try done. by destruct (Hr h).
Qed.

Lemma thread_step_run {A} (p p' : Threads.prog conn World A) st st' :
  Loaders.thread_step p st = Some (p', st') ->
  Threads.run p st = Threads.run p' st'.
Proof.
  destruct p as [r|X m k]; [done|]. cbn.
  destruct (m st) as [[x|e|h] st1]; intros [= <- <-]; done.
Qed.

Lemma thread_step_critical {A} (p p' : Threads.prog conn World A) st st' :
  Loaders.critical p -> master_lock (self st) = true ->
  Loaders.thread_step p st = Some (p', st') ->
  (master_lock (self st') = true ∧ Loaders.critical p')
  ∨ (master_lock (self st') = false ∧ ∃ r', p' = Threads.Done r').
Proof.
  destruct p as [r|X m k]; [done|]. cbn. intros Hp Hheld Hstep.
  destruct (m st) as [r st1] eqn:Hm.
  assert (p' = k r ∧ st' = st1 ∧ ∀ h, r ≠ Hang h) as (-> & -> & Hr).
  { destruct r as [x|e|h]; try done; by injection Hstep as <- <-. }
  by apply (Hp st).
Qed.

Lemma critical_release {A} (r : result A) :
  Loaders.critical
    (Threads.finish (Threads.atomic (Lock_release (conn := conn) (World := World)
                                       MasterLock)) r).
Proof.
  cbn [Threads.finish Threads.atomic Loaders.critical].
  intros st r' st' Hm Hr Hheld. right.
  rewrite Lock_release_held in Hm by (by cbn; f_equal).
  injection Hm as <- <-. split; [done|]. by exists r.
Qed.

Lemma critical_try_finally {A} (body : Threads.prog conn World A) fin :
  Threads.inside body -> (∀ r : result A, Loaders.critical (Threads.finish fin r)) ->
  Loaders.critical (Threads.try_finally body fin).
Proof.
  intros Hbody Hfin. induction body as [[a|e|h]|X m k IH];
    cbn [Threads.try_finally]; try apply Hfin; try done.
  destruct Hbody as [Hm Hk]. cbn. intros st r st' Hst Hr Hheld. left.
  destruct (Hm st) as [Hlock _]. rewrite Hst in Hlock. cbn in Hlock.
  split; [congruence|]. by apply IH.
Qed.


(** A step that logs nothing and keeps the master lock. *)
Lemma calm_quiet {X} (m : M conn World X) :
  (∀ st, master_lock (self (m st).2) = master_lock (self st)
         ∧ log (m st).2 = log st) ->
  Threads.calm m.
Proof.
  intros Hm st. destruct (Hm st) as [Hlock Hlog]. split; [done|].
  unfold emitted. rewrite Hlog, drop_all. constructor.
Qed.

Lemma inside_load_loop fuel o :
  Threads.inside (Loaders.load_loop (conn := conn) (World := World) fuel o).
Proof.
  revert o. induction fuel as [|fuel IH]; intros o.
  - destruct o as [[|b t]|]; try done.
    cbn [Loaders.load_loop]. apply inside_bind; [|by intros []].
    apply inside_atomic, calm_quiet. done.
  - assert (Threads.inside
              (Threads.bind (Threads.atomic (urandom (conn := conn) (World := World) 16))
                 (fun t => Loaders.load_loop fuel (Some t)))) as Hdraw.
    { apply inside_bind; [|intros t; apply IH].
      apply inside_atomic, calm_quiet. done. }
    destruct o as [[|b t]|]; try exact Hdraw.
    cbn [Loaders.load_loop]. apply inside_bind; [|by intros []].
    apply inside_atomic, calm_quiet. done.
Qed.

Lemma inside_load_body fuel connection :
  Threads.inside
    (Threads.bind (Loaders.load_loop (conn := conn) (World := World) fuel None)
       (fun session_id =>
          Threads.bind (Threads.atomic (setitem_db session_id connection))
            (fun _ => Threads.bind (Threads.atomic (setitem_session_lock session_id))
               (fun _ => Threads.Done (Ok session_id))))).
Proof.
  apply inside_bind; [apply inside_load_loop|]. intros t.
  apply inside_bind; [by apply inside_atomic, calm_quiet|]. intros _.
  apply inside_bind; [by apply inside_atomic, calm_quiet|]. done.
Qed.

Lemma nonblocking_atomic {X} (m : M conn World X) :
  (∀ st h, (m st).1 ≠ Hang h) -> Loaders.nonblocking (Threads.atomic m).
Proof. by split. Qed.

Lemma nonblocking_bind {A B} (p : Threads.prog conn World A)
    (f : A -> Threads.prog conn World B) :
  Loaders.nonblocking p -> (∀ a, Loaders.nonblocking (f a)) ->
  Loaders.nonblocking (Threads.bind p f).
Proof.
  intros Hp Hf. induction p as [[a|e|h]|X m k IH]; cbn; try done.
  destruct Hp as [Hm Hk]. split; [done|]. intros r. by apply IH.
Qed.

Lemma nonblocking_finish {A} (fin : Threads.prog conn World unit) (r : result A) :
  Loaders.nonblocking fin -> Loaders.nonblocking (Threads.finish fin r).
Proof.
  intros Hfin. induction fin as [[[]|e|h]|X m k IH]; cbn; try done.
  destruct Hfin as [Hm Hk]. split; [done|]. intros x. by apply IH.
Qed.

Lemma nonblocking_try_finally {A} (body : Threads.prog conn World A) fin :
  Loaders.nonblocking body -> Loaders.nonblocking fin ->
  Loaders.nonblocking (Threads.try_finally body fin).
Proof.
  intros Hbody Hfin. induction body as [[a|e|h]|X m k IH];
    cbn [Threads.try_finally]; try (by apply nonblocking_finish); try done.
  destruct Hbody as [Hm Hk]. split; [done|]. intros r. by apply IH.
Qed.

Lemma nonblocking_load_loop fuel o :
  Loaders.nonblocking (Loaders.load_loop (conn := conn) (World := World) fuel o).
Proof.
  revert o. induction fuel as [|fuel IH]; intros o.
  - destruct o as [[|b t]|]; try done.
    cbn [Loaders.load_loop]. apply nonblocking_bind; [|by intros []].
    by apply nonblocking_atomic.
  - assert (Loaders.nonblocking
              (Threads.bind (Threads.atomic (urandom (conn := conn) (World := World) 16))
                 (fun t => Loaders.load_loop fuel (Some t)))) as Hdraw.
    { apply nonblocking_bind; [|intros t; apply IH]. by apply nonblocking_atomic. }
    destruct o as [[|b t]|]; try exact Hdraw.
    cbn [Loaders.load_loop]. apply nonblocking_bind; [|by intros []].
    by apply nonblocking_atomic.
Qed.

Lemma Lock_release_nonblocking l st h :
  (Lock_release (conn := conn) (World := World) l st).1 ≠ Hang h.
Proof.
  unfold Lock_release, bind, lookup_lock.
  destruct l as [|t]; [by destruct (master_lock (self st))|].
  by destruct (session_lock (self st) !! t) as [[|]|].
Qed.

Lemma nonblocking_load_body fuel connection :
  Loaders.nonblocking
    (Threads.try_finally
       (Threads.bind (Loaders.load_loop (conn := conn) (World := World) fuel None)
          (fun session_id =>
             Threads.bind (Threads.atomic (setitem_db session_id connection))
               (fun _ => Threads.bind (Threads.atomic (setitem_session_lock session_id))
                  (fun _ => Threads.Done (Ok session_id)))))
       (Threads.atomic (Lock_release MasterLock))).
Proof.
  apply nonblocking_try_finally.
  - apply nonblocking_bind; [apply nonblocking_load_loop|]. intros t.
    apply nonblocking_bind; [by apply nonblocking_atomic|]. intros _.
    apply nonblocking_bind; [by apply nonblocking_atomic|]. done.
  - apply nonblocking_atomic. intros st h. apply Lock_release_nonblocking.
Qed.

(** The first step of [load] takes the master lock, which must be free. *)
Lemma load_first_step fuel connection st p' st' :
  Loaders.thread_step (Loaders.load fuel connection) st = Some (p', st') ->
  master_lock (self st) = false ∧ master_lock (self st') = true
  ∧ Loaders.critical p' ∧ Loaders.nonblocking p'
  ∧ Threads.run p' st' = load fuel connection st.
Proof.
  intros Hstep. rewrite <- run_load, (thread_step_run _ _ _ _ Hstep).
  revert Hstep. unfold Loaders.load.
  cbn [Threads.bind Threads.atomic Loaders.thread_step].
  destruct (master_lock (self st)) eqn:Hmaster.
  - unfold Lock_acquire, bind, lookup_lock. by rewrite Hmaster.
  - rewrite Lock_acquire_free by (by cbn; f_equal). intros [= <- <-].
    repeat split; try done.
    + apply (critical_try_finally _ _ (inside_load_body fuel connection)).
      apply critical_release.
    + apply nonblocking_load_body.
Qed.

(** A free master lock lets [load] take its first step. *)
Lemma load_can_start fuel connection st :
  master_lock (self st) = false ->
  ∃ p' st', Loaders.thread_step (Loaders.load fuel connection) st = Some (p', st').
Proof.
  intros Hfree. unfold Loaders.load.
  cbn [Threads.bind Threads.atomic Loaders.thread_step].
  rewrite Lock_acquire_free by (by cbn; f_equal). by eexists _, _.
Qed.

Lemma thread_step_step {V} i (pool : list (Threads.prog conn World V)) p st p' st' :
  pool !! i = Some p -> Loaders.thread_step p st = Some (p', st') ->
  Threads.step i (st, pool) (st', <[i := p']> pool).
Proof.
  intros Hi. destruct p as [r|X m k]; [done|]. cbn.
  destruct (m st) as [r st1] eqn:Hm. intros Hstep.
  assert (p' = k r ∧ st' = st1 ∧ ∀ h, r ≠ Hang h) as (-> & -> & Hr).
  { destruct r as [x|e|h]; try done; by injection Hstep as <- <-. }
  by eapply Threads.step_atomic.
Qed.

Lemma serial_snoc (jobs : list (nat * conn)) returned i t fuel c st0 ref d :
  Loaders.serial jobs returned st0 = Some ref ->
  jobs !! i = Some (fuel, c) ->
  load fuel c ref = (Ok t, after_load t c d ref) ->
  Loaders.serial jobs (returned ++ [(i, t)]) st0 = Some (after_load t c d ref).
Proof.
  intros Hser Hjob Hload. revert st0 Hser.
  induction returned as [|[j t'] returned IH]; intros st0 Hser.
  - injection Hser as ->. cbn. rewrite Hjob, Hload. by rewrite bool_decide_true.
  - cbn in *. destruct (jobs !! j) as [[fuel' c']|]; [|done].
    destruct (load fuel' c' st0) as [[t''|e|h] st1]; try done.
    case_bool_decide; [|done]. by apply IH.
Qed.

Lemma pool_inv_start (jobs : list (nat * conn)) st :
  master_lock (self st) = false ->
  Loaders.pool_inv jobs st st (Loaders.spawn jobs).
Proof.
  intros Hfree. split; [apply length_fmap|].
  assert (∀ i t, Loaders.spawn jobs !! i
                 ≠ Some (Threads.Done (conn := conn) (World := World) (Ok t)))
    as Hinit.
  { intros i t Hi. unfold Loaders.spawn in Hi. rewrite list_lookup_fmap in Hi.
    destruct (jobs !! i) as [[fuel c]|]; discriminate. }
  exists None, st, []. split; [done|]. split; [done|]. split.
  { intros j fuel c p _ Hjob Hp. left.
    unfold Loaders.spawn in Hp. rewrite list_lookup_fmap, Hjob in Hp.
    by injection Hp as <-. }
  split. { intros i j t _ _ Hi _. by destruct (Hinit i t). }
  split; [constructor|]. split; [done|].
  intros j t _. split; [intros Hj; by destruct (Hinit j t)|].
  intros Hin. by apply elem_of_nil in Hin.
Qed.

Lemma pool_inv_step (jobs : list (nat * conn)) st0 i
    (c1 c2 : Threads.config conn World token) :
  Loaders.pool_inv jobs st0 c1.1 c1.2 -> Threads.step i c1 c2 ->
  Loaders.pool_inv jobs st0 c2.1 c2.2.
Proof.
  intros (Hlen & owner & ref & returned & Href & Hown & Hrest & Hdist
          & Hnodup & Hser & Hret) Hstep.
  destruct (step_thread_step _ _ _ Hstep) as (p & p' & Hi & Hts & Hpool).
  destruct c1 as [st pool], c2 as [st' pool']. cbn in *. subst pool'.
  split; [by rewrite length_insert|].
  assert (i < length pool) as Hlt by (by eapply lookup_lt_Some).
  assert (∀ j q, pool !! j = Some q -> ∃ fuel c, jobs !! j = Some (fuel, c))
    as Hjobs.
  { intros j q Hq. apply lookup_lt_Some in Hq. rewrite Hlen in Hq.
    apply lookup_lt_is_Some_2 in Hq as [[fuel c] Hq]. by exists fuel, c. }
  destruct owner as [o|].
  - destruct Hown as (Hheld & Hfresh & fuel_o & c_o & p_o & Hjo & Hpo & Hcrit
                      & Hnb & Hrun).
    destruct (decide (i = o)) as [->|Hne].
    + rewrite Hpo in Hi. injection Hi as ->.
      pose proof (thread_step_run _ _ _ _ Hts) as Hrun'. rewrite Hrun in Hrun'.
      assert (Loaders.nonblocking p') as Hnb'.
      { destruct p as [r|X m k]; [done|]. cbn in Hts. destruct Hnb as [_ Hk].
        destruct (m st) as [[x|e|h] st1]; try done; injection Hts as <- <-;
          apply Hk. }
      destruct (thread_step_critical p p' st st' Hcrit Hheld Hts)
        as [[Hheld' Hcrit']|[Hfree (r' & ->)]].
      * exists (Some o), ref, returned. split; [done|]. split.
        { split; [done|]. split; [done|]. exists fuel_o, c_o, p'.
          by rewrite list_lookup_insert_eq. }
        split.
        { intros j fuel c q Hj Hjob Hq.
          rewrite list_lookup_insert_ne in Hq by congruence. by apply (Hrest j). }
        split.
        { intros i' j t Hi' Hj Hqi Hqj.
          rewrite list_lookup_insert_ne in Hqi, Hqj by congruence.
          by apply (Hdist i' j t). }
        split; [done|]. split; [done|].
        intros j t Hj. rewrite list_lookup_insert_ne by congruence.
        by apply Hret.
      * cbn in Hrun'.
        destruct (load_cases fuel_o c_o ref)
          as [[Htrue _]|(_ & d & _ & [(t & Ht & Hnone & Hload)|Hload])];
          [congruence| |].
        2:{ rewrite Hload in Hrun'. injection Hrun' as <- <-. done. }
        pose proof Hload as Hload'.
        rewrite Hload in Hrun'. injection Hrun' as <- <-.
        assert (∀ j t', j ≠ o -> pool !! j = Some (Threads.Done (Ok t')) ->
                  ∃ c, db (self ref) !! t' = Some c ∧ t' ≠ t) as Hold.
        { intros j t' Hj Hq. destruct (Hjobs _ _ Hq) as (fuel & c & Hjob).
          destruct (Hrest j fuel c _ ltac:(congruence) Hjob Hq)
            as [Hinit|(t'' & [= <-] & Ht')]; [discriminate|].
          exists c. split; [done|]. intros ->. congruence. }
        exists None, (after_load t c_o d ref), (returned ++ [(o, t)]).
        split; [done|]. split; [done|].
        split.
        { intros j fuel c q _ Hjob Hq. destruct (decide (j = o)) as [->|Hj].
          - rewrite list_lookup_insert_eq in Hq by done. injection Hq as <-.
            right. exists t. split; [done|].
            rewrite Hjo in Hjob. injection Hjob as <- <-. cbn.
            apply lookup_insert_eq.
          - rewrite list_lookup_insert_ne in Hq by done.
            destruct (Hrest j fuel c q ltac:(congruence) Hjob Hq)
              as [->|(t' & -> & Ht')]; [by left|].
            right. exists t'. split; [done|]. cbn.
            rewrite lookup_insert_ne; [done|]. intros ->. congruence. }
        split.
        { intros i' j t' _ _ Hqi Hqj.
          destruct (decide (i' = o)) as [->|Hi'], (decide (j = o)) as [->|Hj];
            [done| | |].
          - rewrite list_lookup_insert_eq in Hqi by done. injection Hqi as ->.
            rewrite list_lookup_insert_ne in Hqj by done.
            by destruct (Hold j t' Hj Hqj) as (c & _ & ?).
          - rewrite list_lookup_insert_eq in Hqj by done. injection Hqj as ->.
            rewrite list_lookup_insert_ne in Hqi by done.
            by destruct (Hold i' t' Hi' Hqi) as (c & _ & ?).
          - rewrite list_lookup_insert_ne in Hqi, Hqj by done.
            apply (Hdist i' j t'); congruence. }
        split.
        { rewrite fmap_app. apply NoDup_app. split; [done|]. split.
          - intros j Hj Hj'. cbn in Hj'. apply list_elem_of_singleton in Hj'.
            by subst j.
          - cbn. apply NoDup_singleton. }
        split; [by eapply serial_snoc|].
        intros j t' _. rewrite elem_of_app, list_elem_of_singleton.
        destruct (decide (j = o)) as [->|Hj].
        -- rewrite list_lookup_insert_eq by done. split.
           ++ intros [= ->]. by right.
           ++ intros [Hin|[= ->]]; [|done]. destruct Hfresh.
              apply list_elem_of_fmap. by exists (o, t').
        -- rewrite list_lookup_insert_ne by done.
           rewrite (Hret j t') by congruence. split; [by left|].
           intros [Hin|[= -> _]]; done.
    + exfalso. destruct (Hjobs _ _ Hi) as (fuel & c & Hjob).
      destruct (Hrest i fuel c p ltac:(congruence) Hjob Hi)
        as [->|(t & -> & _)]; [|done].
      apply load_first_step in Hts as (Hfree & _). congruence.
  - subst ref. destruct (Hjobs _ _ Hi) as (fuel & c & Hjob).
    destruct (Hrest i fuel c p ltac:(done) Hjob Hi) as [->|(t & -> & _)]; [|done].
    apply load_first_step in Hts as (_ & Hheld' & Hcrit' & Hnb' & Hrun').
    exists (Some i), st, returned. split; [done|]. split.
    { split; [done|]. split.
      - intros Hin. apply list_elem_of_fmap in Hin as ([j t] & Heq & Hin).
        cbn in Heq. subst j. apply Hret in Hin; [|done].
        rewrite Hi in Hin. discriminate.
      - exists fuel, c, p'. by rewrite list_lookup_insert_eq. }
    split.
    { intros j fuel' c' q Hj Hjob' Hq.
      rewrite list_lookup_insert_ne in Hq by congruence. by apply (Hrest j). }
    split.
    { intros i' j t Hi' Hj Hqi Hqj.
      rewrite list_lookup_insert_ne in Hqi, Hqj by congruence.
      by apply (Hdist i' j t). }
    split; [done|]. split; [done|].
    intros j t Hj. rewrite list_lookup_insert_ne by congruence. by apply Hret.
Qed.

Lemma pool_inv_exec (jobs : list (nat * conn)) c ttr
    (c' : Threads.config conn World token) :
  Threads.exec c ttr c' -> master_lock (self c.1) = false ->
  c.2 = Loaders.spawn jobs ->
  Loaders.pool_inv jobs c.1 c'.1 c'.2.
Proof.
  induction 1 as [c|c ttr c1 i c2 Hexec IH Hstep]; intros Hfree Hpool.
  - rewrite Hpool. by apply pool_inv_start.
  - eapply pool_inv_step; [by apply IH|done].
Qed.


(** What the invariant says about the threads that have come to their end. *)
Lemma pool_inv_finished (jobs : list (nat * conn)) st0 st pool :
  Loaders.pool_inv jobs st0 st pool ->
  ∃ ref returned,
    (master_lock (self st) = false -> ref = st)
    ∧ NoDup (returned.*1)
    ∧ Loaders.serial jobs returned st0 = Some ref
    ∧ (∀ j t, pool !! j = Some (Threads.Done (Ok t)) ↔ (j, t) ∈ returned)
    ∧ (∀ j t, (j, t) ∈ returned ->
         ∃ fuel c, jobs !! j = Some (fuel, c) ∧ db (self ref) !! t = Some c)
    ∧ (∀ i j t, pool !! i = Some (Threads.Done (Ok t)) ->
         pool !! j = Some (Threads.Done (Ok t)) -> i = j)
    ∧ (∀ j r, pool !! j = Some (Threads.Done r) ->
         (∃ t, r = Ok t) ∨ r = Hang OutOfFuel).
Proof.
  intros (Hlen & owner & ref & returned & Href & Hown & Hrest & Hdist
          & Hnodup & Hser & Hret).
  assert (∀ j q, pool !! j = Some q -> ∃ fuel c, jobs !! j = Some (fuel, c))
    as Hjobs.
  { intros j q Hq. apply lookup_lt_Some in Hq. rewrite Hlen in Hq.
    apply lookup_lt_is_Some_2 in Hq as [[fuel c] Hq]. by exists fuel, c. }
  assert (∀ j r, owner = Some j -> pool !! j = Some (Threads.Done r) ->
            r = Hang OutOfFuel) as Howner.
  { intros j r -> Hj.
    destruct Hown as (Hheld & _ & fuel & c & p & _ & Hp & _ & _ & Hrun).
    rewrite Hj in Hp. injection Hp as <-. cbn in Hrun.
    destruct (load_cases fuel c ref)
      as [[Htrue _]|(_ & d & _ & [(t & _ & _ & Hload)|Hload])];
      [congruence| |]; rewrite Hload in Hrun.
    - injection Hrun as _ ->. done.
    - by injection Hrun as -> _. }
  assert (∀ j t, pool !! j = Some (Threads.Done (Ok t)) -> owner ≠ Some j)
    as Hfin.
  { intros j t Hj Ho. by specialize (Howner j _ Ho Hj). }
  exists ref, returned. split.
  { intros Hfree. destruct owner as [o|]; [|done].
    destruct Hown as (Hheld & _). congruence. }
  split; [done|]. split; [done|]. split.
  { intros j t. split.
    - intros Hj. apply Hret; [by eapply Hfin|done].
    - intros Hin. apply Hret; [|done]. intros ->.
      destruct Hown as (_ & Hfresh & _). destruct Hfresh.
      apply list_elem_of_fmap. by exists (j, t). }
  split.
  { intros j t Hin.
    assert (owner ≠ Some j) as Hj.
    { intros ->. destruct Hown as (_ & Hfresh & _). destruct Hfresh.
      apply list_elem_of_fmap. by exists (j, t). }
    apply Hret in Hin; [|done]. destruct (Hjobs _ _ Hin) as (fuel & c & Hjob).
    exists fuel, c. split; [done|].
    destruct (Hrest j fuel c _ Hj Hjob Hin) as [Hinit|(t' & [= <-] & Ht)];
      [discriminate|done]. }
  split.
  { intros i j t Hi Hj. apply (Hdist i j t); eauto. }
  intros j r Hj. destruct (decide (owner = Some j)) as [Ho|Ho].
  - right. by apply (Howner j).
  - left. destruct (Hjobs _ _ Hj) as (fuel & c & Hjob).
    destruct (Hrest j fuel c _ Ho Hjob Hj) as [Hinit|(t & [= ->] & _)];
      [discriminate|by exists t].
Qed.

(** X16. Threads that call [load] concurrently get different session ids:
    at any moment of any interleaving, two threads that have returned the
    same id are the same thread.  And whenever the master lock is free, the
    id a thread has returned is bound in [self.db] to the connection that
    this thread passed. *)
Theorem concurrent_loads_distinct (jobs : list (nat * conn)) st0 ttr
    (c : Threads.config conn World token) :
  master_lock (self st0) = false ->
  Threads.exec (st0, Loaders.spawn jobs) ttr c ->
  (∀ i j t, c.2 !! i = Some (Threads.Done (Ok t)) ->
     c.2 !! j = Some (Threads.Done (Ok t)) -> i = j)
  ∧ (master_lock (self c.1) = false ->
     ∀ i t, c.2 !! i = Some (Threads.Done (Ok t)) ->
       ∃ fuel connection,
         jobs !! i = Some (fuel, connection)
         ∧ db (self c.1) !! t = Some connection).
Proof.
  intros Hfree Hexec.
  pose proof (pool_inv_exec jobs _ _ _ Hexec Hfree eq_refl) as Hinv.
  cbn [fst snd] in Hinv.
  destruct (pool_inv_finished _ _ _ _ Hinv)
    as (ref & returned & Href & _ & _ & Hret & Hbound & Hdist & _).
  split; [exact Hdist|]. intros Hfree' i t Hi. rewrite <- (Href Hfree').
  apply Hbound. by apply Hret.
Qed.

(** X17. No thread that calls [load] ends with an exception, however the
    threads are interleaved: a thread that has come to its end has returned
    a session id, unless its draw loop was cut off for want of fuel. *)
Theorem concurrent_loads_never_raise (jobs : list (nat * conn)) st0 ttr
    (c : Threads.config conn World token) :
  master_lock (self st0) = false ->
  Threads.exec (st0, Loaders.spawn jobs) ttr c ->
  ∀ i r, c.2 !! i = Some (Threads.Done r) ->
    (∃ t, r = Ok t) ∨ r = Hang OutOfFuel.
Proof.
  intros Hfree Hexec.
  pose proof (pool_inv_exec jobs _ _ _ Hexec Hfree eq_refl) as Hinv.
  cbn [fst snd] in Hinv.
  by destruct (pool_inv_finished _ _ _ _ Hinv)
    as (ref & returned & _ & _ & _ & _ & _ & _ & Hres).
Qed.

(** X18. Concurrent calls of [load] are serialised by the master lock:
    whenever the master lock is free in an interleaving, the shared registry
    is the one that the calls which have returned would have produced one
    after the other, in some order without repetition, and each of these
    threads has returned the session id of its call in that order; no other
    thread has returned. *)
Theorem concurrent_loads_serial (jobs : list (nat * conn)) st0 ttr
    (c : Threads.config conn World token) :
  master_lock (self st0) = false ->
  Threads.exec (st0, Loaders.spawn jobs) ttr c ->
  master_lock (self c.1) = false ->
  ∃ returned,
    NoDup (returned.*1)
    ∧ Loaders.serial jobs returned st0 = Some c.1
    ∧ ∀ i t, c.2 !! i = Some (Threads.Done (Ok t)) ↔ (i, t) ∈ returned.
Proof.
  intros Hfree Hexec Hfree'.
  pose proof (pool_inv_exec jobs _ _ _ Hexec Hfree eq_refl) as Hinv.
  cbn [fst snd] in Hinv.
  destruct (pool_inv_finished _ _ _ _ Hinv)
    as (ref & returned & Href & Hnodup & Hser & Hret & _).
  exists returned. by rewrite <- (Href Hfree').
Qed.

(** X19. Threads that call [load] do not deadlock: at any moment of any
    interleaving, some thread can take a step, or every thread has returned
    a session id, or the draw loop of some thread was cut off for want of
    fuel (it holds the master lock, and the others wait for it). *)
Theorem concurrent_loads_progress (jobs : list (nat * conn)) st0 ttr
    (c : Threads.config conn World token) :
  master_lock (self st0) = false ->
  Threads.exec (st0, Loaders.spawn jobs) ttr c ->
  (∃ i c', Threads.step i c c')
  ∨ (∀ i p, c.2 !! i = Some p -> ∃ t, p = Threads.Done (Ok t))
  ∨ (∃ i, c.2 !! i = Some (Threads.Done (Hang OutOfFuel))).
Proof.
  intros Hfree Hexec.
  pose proof (pool_inv_exec jobs _ _ _ Hexec Hfree eq_refl) as Hinv.
  destruct c as [st pool]. cbn [fst snd] in *.
  destruct Hinv as (Hlen & owner & ref & returned & Href & Hown & Hrest & _).
  assert (∀ j q, pool !! j = Some q -> ∃ fuel c, jobs !! j = Some (fuel, c))
    as Hjobs.
  { intros j q Hq. apply lookup_lt_Some in Hq. rewrite Hlen in Hq.
    apply lookup_lt_is_Some_2 in Hq as [[fuel c] Hq]. by exists fuel, c. }
  destruct owner as [o|].
  - destruct Hown as (Hheld & _ & fuel & c & p & Hjob & Hp & _ & Hnb & Hrun).
    destruct p as [r|X m k].
    + right. right. exists o. cbn in Hrun.
      destruct (load_cases fuel c ref)
        as [[Htrue _]|(_ & d & _ & [(t & _ & _ & Hload)|Hload])];
        [congruence| |]; rewrite Hload in Hrun.
      * injection Hrun as _ ->. done.
      * injection Hrun as -> _. done.
    + left. destruct Hnb as [Hm _]. destruct (m st) as [r st'] eqn:Hst.
      exists o, (st', <[o := k r]> pool).
      eapply Threads.step_atomic; [done|done|].
      intros h ->. apply (Hm st h). by rewrite Hst.
  - subst ref.
    destruct (decide (Forall Loaders.finished pool)) as [Hall|Hsome].
    + right. left. intros i p Hi.
      destruct (Hjobs _ _ Hi) as (fuel & c & Hjob).
      destruct (Hrest i fuel c p ltac:(done) Hjob Hi) as [->|(t & -> & _)];
        [|by exists t].
      rewrite Forall_lookup in Hall. by destruct (Hall _ _ Hi).
    + left. apply not_Forall_Exists in Hsome; [|apply _].
      apply Exists_exists in Hsome as (p & Hin & Hp).
      apply list_elem_of_lookup in Hin as [i Hi].
      destruct (Hjobs _ _ Hi) as (fuel & c & Hjob).
      destruct (Hrest i fuel c p ltac:(done) Hjob Hi) as [->|(t & -> & _)];
        [|by destruct Hp].
      destruct (load_can_start fuel c st Href) as (p' & st' & Hstep).
      exists i, (st', <[i := p']> pool). by eapply thread_step_step.
Qed.

Lemma disciplined_release_master {A} (r : result A) :
  Threads.disciplined true
    (Threads.finish (Threads.atomic (Lock_release (conn := conn) (World := World)
                                       MasterLock)) r).
Proof.
  cbn. intros st r1 st1 Hstep Hr.
  unfold Lock_release, bind, lookup_lock in Hstep.
  destruct (master_lock (self st)) eqn:Hmaster.
  - injection Hstep as <- <-. exists false. split; [|done].
    split; [done|]. by apply emitted_emit.
  - injection Hstep as <- <-. exists true. split; [|done].
    split; [done|]. rewrite emitted_same. constructor.
Qed.

(** [load] respects the master lock. *)
Lemma disciplined_load fuel (connection : conn) :
  Threads.disciplined (World := World) false (Loaders.load fuel connection).
Proof.
  unfold Loaders.load. cbn [Threads.bind Threads.atomic Threads.disciplined].
  intros st r st' Hstep Hr.
  unfold Lock_acquire, bind, lookup_lock in Hstep.
  destruct (master_lock (self st)) eqn:Hmaster.
  { injection Hstep as <- <-. by destruct (Hr Deadlock). }
  injection Hstep as <- <-. exists true. split.
  { split; [done|]. split; [done|]. by apply emitted_emit. }
  apply (disciplined_try_finally _ _ (inside_load_body fuel connection)).
  intros r. apply disciplined_release_master.
Qed.

(** X20. The critical section of [load] is mutually exclusive: in every
    interleaving of threads that call [load], the master lock is acquired
    only when no thread owns it and released only by the thread that owns
    it, and it is held exactly while some thread owns it. *)
Theorem concurrent_loads_exclusive (jobs : list (nat * conn)) st0 ttr
    (c : Threads.config conn World token) :
  master_lock (self st0) = false ->
  Threads.exec (st0, Loaders.spawn jobs) ttr c ->
  Threads.exclusive None ttr
  ∧ master_lock (self c.1)
    = bool_decide (is_Some (Threads.owner_after None ttr)).
Proof.
  intros Hfree Hexec.
  destruct (exec_exclusive _ _ _ Hexec Hfree) as (Hex & Hmaster & _); [|done].
  intros i p Hi. unfold Loaders.spawn in Hi. cbn in Hi.
  rewrite list_lookup_fmap in Hi.
  destruct (jobs !! i) as [[fuel connection]|]; [|done].
  injection Hi as <-. apply disciplined_load.
Qed.

End LoadThreads.

(** ** The further properties at work on the demo registry *)

Lemma load_token_is_sixteen_bytes_witness :
  length Demo.sid1 = 16
  ∧ ∃ d, drawn (load 2 "a.db" Demo.fresh).2 <= d
      ∧ Demo.sid1 = map (entropy (load 2 "a.db" Demo.fresh).2) (seq d 16).
Proof.
  apply (load_token_is_sixteen_bytes 2 "b.db" (load 2 "a.db" Demo.fresh).2 Demo.sid1).
  by vm_compute.
Defined.

Lemma load_registers_witness :
  db (self (load 2 "a.db" Demo.fresh).2) !! Demo.sid1 = None
  ∧ db (self (load 2 "b.db" (load 2 "a.db" Demo.fresh).2).2) !! Demo.sid1 = Some "b.db"
  ∧ session_lock (self (load 2 "b.db" (load 2 "a.db" Demo.fresh).2).2) !! Demo.sid1
      = Some false
  ∧ master_lock (self (load 2 "b.db" (load 2 "a.db" Demo.fresh).2).2) = false
  ∧ (∀ t', t' ≠ Demo.sid1 ->
       db (self (load 2 "b.db" (load 2 "a.db" Demo.fresh).2).2) !! t'
         = db (self (load 2 "a.db" Demo.fresh).2) !! t'
       ∧ session_lock (self (load 2 "b.db" (load 2 "a.db" Demo.fresh).2).2) !! t'
           = session_lock (self (load 2 "a.db" Demo.fresh).2) !! t')
  ∧ emitted (load 2 "a.db" Demo.fresh).2
      (load 2 "b.db" (load 2 "a.db" Demo.fresh).2).2
      = [EAcquire MasterLock; ERelease MasterLock]
  ∧ world (load 2 "b.db" (load 2 "a.db" Demo.fresh).2).2
      = world (load 2 "a.db" Demo.fresh).2
  ∧ next_cursor (load 2 "b.db" (load 2 "a.db" Demo.fresh).2).2
      = next_cursor (load 2 "a.db" Demo.fresh).2.
Proof.
  apply (load_registers 2 "b.db" (load 2 "a.db" Demo.fresh).2 Demo.sid1).
  by vm_compute.
Defined.

Lemma load_first_free_draw_witness :
  load 2 "b.db" (load 2 "a.db" Demo.fresh).2
  = (Ok (nth_draw (load 2 "a.db" Demo.fresh).2 1),
     after_load (nth_draw (load 2 "a.db" Demo.fresh).2 1) "b.db"
       (drawn (load 2 "a.db" Demo.fresh).2 + 16 * 2) (load 2 "a.db" Demo.fresh).2).
Proof.
  apply (load_first_free_draw 2 "b.db" (load 2 "a.db" Demo.fresh).2 1).
  - by vm_compute.
  - lia.
  - intros i Hi. assert (i = 0) as -> by lia.
    apply (bool_decide_unpack _). by vm_compute.
  - by vm_compute.
Defined.

Lemma safe_execute_retries_then_ends_witness :
  (safe_execute 10 Demo.sid0 Demo.scripted Cases.thrice).1 = Err Demo.broken
  ∧ world (safe_execute 10 Demo.sid0 Demo.scripted Cases.thrice).2 = []
  ∧ length (calls (emitted Cases.thrice
                     (safe_execute 10 Demo.sid0 Demo.scripted Cases.thrice).2)) = 4
  ∧ sleeps (emitted Cases.thrice
              (safe_execute 10 Demo.sid0 Demo.scripted Cases.thrice).2)
      = map (Nat.mul 3) (seq 1 3).
Proof.
  apply (safe_execute_retries_then_ends 10 Demo.sid0 Demo.scripted Cases.thrice
           "a.db" 3 (fun i => drop i (world Cases.thrice)) (fun _ => Demo.busy)
           (Raises Demo.broken) []).
  - apply loaded_idle.
  - apply loaded_sid0.
  - lia.
  - lia.
  - reflexivity.
  - intros i Hi. destruct i as [|[|[|i]]]; [by vm_compute..|lia].
  - reflexivity.
  - by intros e [= <-].
Defined.

Lemma safe_execute_bounds_witness :
  length (calls (emitted Cases.thrice
                   (safe_execute 10 Demo.sid0 Demo.scripted Cases.thrice).2)) <= 10
  ∧ (∃ m, m <= 10
       ∧ sleeps (emitted Cases.thrice
                   (safe_execute 10 Demo.sid0 Demo.scripted Cases.thrice).2)
           = map (Nat.mul 3) (seq 1 m)
       ∧ m <= length (calls (emitted Cases.thrice
                               (safe_execute 10 Demo.sid0 Demo.scripted
                                  Cases.thrice).2))
           <= S m)
  ∧ sum_list (sleeps (emitted Cases.thrice
                        (safe_execute 10 Demo.sid0 Demo.scripted Cases.thrice).2))
      <= 165.
Proof.
  apply (safe_execute_bounds 10 Demo.sid0 Demo.scripted Cases.thrice).
  - apply loaded_idle.
  - lia.
Defined.

Lemma safe_execute_notices_witness :
  prints (emitted Cases.thrice
            (safe_execute 10 Demo.sid0 Demo.scripted Cases.thrice).2)
  = map retry_notice
      (sleeps (emitted Cases.thrice
                 (safe_execute 10 Demo.sid0 Demo.scripted Cases.thrice).2)).
Proof.
  apply (safe_execute_notices 10 Demo.sid0 Demo.scripted Cases.thrice).
  - apply loaded_idle.
  - lia.
Defined.

Lemma calls_block_while_locked_witness :
  (is_Some (db (self Cases.held) !! Demo.sid0) ->
     safe_execute 10 Demo.sid0 Demo.scripted Cases.held = (Hang Deadlock, Cases.held))
  ∧ (db (self Cases.held) !! Demo.sid0 = None ->
       safe_execute 10 Demo.sid0 Demo.scripted Cases.held
         = (Err (invalid_session Demo.sid0), Cases.held))
  ∧ load 2 "c.db" Cases.held = (Hang Deadlock, Cases.held).
Proof.
  apply (calls_block_while_locked 10 Demo.sid0 Demo.scripted "c.db" Cases.held).
  reflexivity.
Defined.

Lemma load_then_safe_execute_witness :
  safe_execute 10 Demo.sid1 Demo.scripted
    (load 2 "b.db" (load 2 "a.db" (Demo.boot [Returns 5])).2).2
  = (Ok 5,
     advance [] 1
       [EAcquire MasterLock; EAcquire (SessionLock Demo.sid1);
        ECursor 0; EAction 0 None; EClose 0;
        ERelease (SessionLock Demo.sid1); ERelease MasterLock]
       (load 2 "b.db" (load 2 "a.db" (Demo.boot [Returns 5])).2).2).
Proof.
  apply (load_then_safe_execute 2 "b.db" (load 2 "a.db" (Demo.boot [Returns 5])).2
           Demo.sid1 10 Demo.scripted (Returns 5) []).
  - apply (load_idle 2 "a.db" _ Demo.sid0); [apply idle_init|by vm_compute].
  - by vm_compute.
  - lia.
  - reflexivity.
  - done.
Defined.

Lemma commit_propagates_error_witness :
  commit (counting Demo.do_commit) 10 Demo.sid0 Cases.refusing
  = (Err Demo.broken,
     advance ([], 1) 1
       [EAcquire MasterLock; EAcquire (SessionLock Demo.sid0);
        ECursor 0; EAction 0 (Some Demo.broken); EClose 0;
        ERelease (SessionLock Demo.sid0); ERelease MasterLock] Cases.refusing).
Proof.
  apply (commit_propagates_error Demo.do_commit 10 Demo.sid0 Cases.refusing "a.db"
           [Raises Demo.broken] 0 Demo.broken []).
  - apply loaded_idle.
  - apply loaded_sid0.
  - lia.
  - reflexivity.
  - reflexivity.
  - reflexivity.
Defined.

Lemma commit_counts_invocations_witness :
  (world (commit (counting Demo.do_commit) 10 Demo.sid0 Demo.committing_busy).2).2
    = (world Demo.committing_busy).2
      + length (calls (emitted Demo.committing_busy
                         (commit (counting Demo.do_commit) 10 Demo.sid0
                            Demo.committing_busy).2))
  ∧ 1 <= length (calls (emitted Demo.committing_busy
                          (commit (counting Demo.do_commit) 10 Demo.sid0
                             Demo.committing_busy).2)) <= 10
  ∧ ((commit (counting Demo.do_commit) 10 Demo.sid0 Demo.committing_busy).1 = Ok true
     ∨ ∃ e, (commit (counting Demo.do_commit) 10 Demo.sid0 Demo.committing_busy).1
              = Err e).
Proof.
  apply (commit_counts_invocations Demo.do_commit 10 Demo.sid0 Demo.committing_busy
           "a.db").
  - apply loaded_idle.
  - apply loaded_sid0.
  - lia.
Defined.

Lemma commit_exhausted_witness :
  (commit (counting Cases.busy_commit) 10 Demo.sid0 Cases.counted).1
    = Err retry_exhausted
  ∧ (world (commit (counting Cases.busy_commit) 10 Demo.sid0 Cases.counted).2).2
      = (world Cases.counted).2 + 10
  ∧ sleeps (emitted Cases.counted
              (commit (counting Cases.busy_commit) 10 Demo.sid0 Cases.counted).2)
      = [3; 6; 9; 12; 15; 18; 21; 24; 27; 30].
Proof.
  apply (commit_exhausted Cases.busy_commit 10 Demo.sid0 Cases.counted "a.db").
  - apply loaded_idle.
  - apply loaded_sid0.
  - lia.
  - intros c w. exists Demo.busy, w. done.
Defined.

Lemma commit_unknown_session_witness :
  commit Demo.do_commit 10 [x41] Demo.quiet
  = (Err (invalid_session [x41]), Demo.quiet).
Proof.
  apply (commit_unknown_session Demo.do_commit 10 [x41] Demo.quiet).
  by vm_compute.
Defined.

Lemma history_results_all :
  (do_calls Demo.do_commit 10 Demo.history Demo.fresh).1
  = [FromLoad (Ok Demo.sid0); FromSafeExecute (Ok 0); FromLoad (Ok Demo.sid1);
     FromCommit (Ok true)].
Proof. by vm_compute. Qed.

Lemma locks_never_leak_witness :
  idle (self (do_calls Demo.do_commit 10 Demo.history Demo.fresh).2).
Proof.
  apply (locks_never_leak Demo.do_commit 10 Demo.history Demo.fresh).
  - reflexivity.
  - lia.
  - intros h Hin. rewrite history_results_all in Hin.
    repeat (apply elem_of_cons in Hin as [Hin|Hin]; [discriminate|]).
    by apply elem_of_nil in Hin.
Defined.

Lemma db_is_what_load_issued_witness :
  db (self (do_calls Demo.do_commit 10 Demo.history Demo.fresh).2) !! Demo.sid1
    = Some "b.db"
  ↔ (Demo.sid1, "b.db")
      ∈ bindings Demo.history (do_calls Demo.do_commit 10 Demo.history Demo.fresh).1.
Proof.
  apply (db_is_what_load_issued Demo.do_commit 10 Demo.history Demo.fresh).
  reflexivity.
Defined.

(** ** Threads that call [load], on the demo registry *)


Example loading_ends :
  from_option (fun x => x.2.2) [] Cases.loading
  = [Threads.Done (Ok Demo.sid1); Threads.Done (Ok Demo.sid0)].
Proof. by vm_compute. Qed.

Example loading_log :
  from_option fst [] Cases.loading
  = [(1, EAcquire MasterLock); (1, ERelease MasterLock);
     (0, EAcquire MasterLock); (0, ERelease MasterLock)].
Proof. by vm_compute. Qed.

Example waiting_blocks :
  Threads.interleave [1; 1; 1; 0] [] (Demo.fresh, Loaders.spawn Cases.loaders)
  = None.
Proof. by vm_compute. Qed.

Lemma loading_is_exec :
  Threads.exec (Demo.fresh, Loaders.spawn Cases.loaders)
    (from_option fst [] Cases.loading)
    (from_option snd (Demo.fresh, Loaders.spawn Cases.loaders) Cases.loading).
Proof. apply interleave_is_exec. apply (bool_decide_unpack _). by vm_compute. Qed.

Lemma concurrent_loads_distinct_witness :
  (∀ i j t,
     (from_option snd (Demo.fresh, Loaders.spawn Cases.loaders) Cases.loading).2 !! i
       = Some (Threads.Done (Ok t)) ->
     (from_option snd (Demo.fresh, Loaders.spawn Cases.loaders) Cases.loading).2 !! j
       = Some (Threads.Done (Ok t)) -> i = j)
  ∧ (master_lock
       (self (from_option snd (Demo.fresh, Loaders.spawn Cases.loaders)
                Cases.loading).1) = false ->
     ∀ i t,
       (from_option snd (Demo.fresh, Loaders.spawn Cases.loaders) Cases.loading).2 !! i
         = Some (Threads.Done (Ok t)) ->
       ∃ fuel connection,
         Cases.loaders !! i = Some (fuel, connection)
         ∧ db (self (from_option snd (Demo.fresh, Loaders.spawn Cases.loaders)
                       Cases.loading).1) !! t = Some connection).
Proof.
  apply (concurrent_loads_distinct Cases.loaders Demo.fresh
           (from_option fst [] Cases.loading)).
  - reflexivity.
  - apply loading_is_exec.
Defined.

Lemma concurrent_loads_never_raise_witness :
  (∃ t, Ok Demo.sid1 = Ok t) ∨ Ok Demo.sid1 = Hang OutOfFuel.
Proof.
  apply (concurrent_loads_never_raise Cases.loaders Demo.fresh
           (from_option fst [] Cases.loading)
           (from_option snd (Demo.fresh, Loaders.spawn Cases.loaders) Cases.loading)
           eq_refl loading_is_exec 0 (Ok Demo.sid1)).
  by vm_compute.
Defined.

Lemma concurrent_loads_serial_witness :
  ∃ returned,
    NoDup (returned.*1)
    ∧ Loaders.serial Cases.loaders returned Demo.fresh
      = Some (from_option snd (Demo.fresh, Loaders.spawn Cases.loaders)
                Cases.loading).1
    ∧ ∀ i t,
        (from_option snd (Demo.fresh, Loaders.spawn Cases.loaders) Cases.loading).2 !! i
          = Some (Threads.Done (Ok t)) ↔ (i, t) ∈ returned.
Proof.
  apply (concurrent_loads_serial Cases.loaders Demo.fresh
           (from_option fst [] Cases.loading)).
  - reflexivity.
  - apply loading_is_exec.
  - by vm_compute.
Defined.

Lemma waiting_is_exec :
  Threads.exec (Demo.fresh, Loaders.spawn Cases.loaders)
    (from_option fst [] Cases.waiting)
    (from_option snd (Demo.fresh, Loaders.spawn Cases.loaders) Cases.waiting).
Proof. apply interleave_is_exec. apply (bool_decide_unpack _). by vm_compute. Qed.

Lemma concurrent_loads_progress_witness :
  (∃ i c', Threads.step i
             (from_option snd (Demo.fresh, Loaders.spawn Cases.loaders) Cases.waiting)
             c')
  ∨ (∀ i p,
       (from_option snd (Demo.fresh, Loaders.spawn Cases.loaders) Cases.waiting).2 !! i
         = Some p -> ∃ t, p = Threads.Done (Ok t))
  ∨ (∃ i,
       (from_option snd (Demo.fresh, Loaders.spawn Cases.loaders) Cases.waiting).2 !! i
         = Some (Threads.Done (Hang OutOfFuel))).
Proof.
  apply (concurrent_loads_progress Cases.loaders Demo.fresh
           (from_option fst [] Cases.waiting)).
  - reflexivity.
  - apply waiting_is_exec.
Defined.

Lemma concurrent_loads_exclusive_witness :
  Threads.exclusive None (from_option fst [] Cases.loading)
  ∧ master_lock
      (self (from_option snd (Demo.fresh, Loaders.spawn Cases.loaders)
               Cases.loading).1)
    = bool_decide (is_Some (Threads.owner_after None (from_option fst [] Cases.loading))).
Proof.
  apply (concurrent_loads_exclusive Cases.loaders Demo.fresh
           (from_option fst [] Cases.loading)).
  - reflexivity.
  - apply loading_is_exec.
Defined.
